(** * StudioGrade Audio Converter: a shallow embedding of [app.js]

    The file embeds the [AudioConverter] class (validation, formatting,
    the simulated conversion and the batch driver) and the application
    logic that drives it (file admission and removal, the windowed
    conversion loop, the theme), and proves the properties of the batch
    conversion engine and of the page state against them.

    Conventions.
    - JavaScript numbers that hold sizes, indices and counts are [Z];
      numbers that may be fractional (progress, scaled sizes, the draws of
      [Math.random]) are exact rationals [Q].  Where what the page shows
      depends on the rounding of double arithmetic (the overall
      percentage), the operations are rounded with [fl64]; the statements
      about sizes stay within the range where the double computation gives
      the exact result.
    - A JavaScript string is a [string]; one [ascii] stands for one code unit.
    - Timers and [Math.random] are inputs: a conversion is run against the
      list of timer events the event loop delivers to it.
    - A [for] loop whose termination depends on an argument takes fuel and
      returns [None] when the fuel runs out. *)

From Stdlib Require Import ZArith QArith Qround Qminmax Qpower Lia Lqa.
From Stdlib Require Import Ascii String DecimalString.
From stdpp Require Import base tactics option list strings gmap.

Local Open Scope string_scope.
Local Open Scope list_scope.
Local Open Scope Z_scope.

(** ** JavaScript runtime operations used by the program *)

Module JS.

(** [x >>> 0]: conversion to an unsigned 32-bit integer. *)
Definition ushr0 (x : Z) : Z := x mod 2 ^ 32.

(** The relative index clamping of [slice]: a negative index counts from
    the end, and the result is clamped to [0 .. len]. *)
Definition clamp_index (len k : Z) : Z :=
  if k <? 0 then Z.max (len + k) 0 else Z.min k len.

Fixpoint string_drop (n : nat) (s : string) : string :=
  match n, s with
  | O, _ => s
  | S _, EmptyString => EmptyString
  | S n', String _ s' => string_drop n' s'
  end.

(** [s.slice(start)] on a string. *)
Definition string_slice_from (s : string) (start : Z) : string :=
  string_drop (Z.to_nat (clamp_index (Z.of_nat (String.length s)) start)) s.

(** [a.slice(start, end)] on an array. *)
Definition array_slice {A} (a : list A) (start stop : Z) : list A :=
  let len := Z.of_nat (length a) in
  let from := clamp_index len start in
  let to := clamp_index len stop in
  take (Z.to_nat (to - from)) (drop (Z.to_nat from) a).

Fixpoint lastIndexOf_from (c : ascii) (s : string) (i found : Z) : Z :=
  match s with
  | EmptyString => found
  | String a s' =>
      lastIndexOf_from c s' (i + 1) (if Ascii.eqb a c then i else found)
  end.

(** [s.lastIndexOf(c)] for a one-character needle: the index of its last
    occurrence, or [-1]. *)
Definition lastIndexOf (c : ascii) (s : string) : Z :=
  lastIndexOf_from c s 0 (-1).

(** [s.startsWith(p)]. *)
Definition startsWith (p s : string) : bool := String.prefix p s.

(** [Math.round]: the nearest integer, halves rounded up. *)
Definition round (x : Q) : Z := Qfloor (x + (1 # 2))%Q.

(** A promise is pending or has been settled, once, one way or the other. *)
Inductive Promise (V : Type) : Type :=
| Pending
| Resolved (v : V)
| Rejected (e : string).
Arguments Pending {V}.
Arguments Resolved {V} v.
Arguments Rejected {V} e.

(** [resolve] and [reject] act on a pending promise only. *)
Definition settle {V} (p new : Promise V) : Promise V :=
  match p with
  | Pending => new
  | _ => p
  end.

Definition is_settled {V} (p : Promise V) : bool :=
  match p with
  | Pending => false
  | _ => true
  end.

(** *** [Promise.all]

    [Promise.all(ps)] keeps an array of values with one slot per input
    promise and a count of the slots still empty.  When the promise at
    index [j] is fulfilled its value is stored in slot [j] and the count
    drops; at zero the result is fulfilled with the array.  The first
    rejection rejects the result.  [outs] gives what each input promise
    settles to ([Pending]: it never settles) and the promises are told to
    settle one after the other in a given order of indices. *)
Section PromiseAll.
Context {V : Type}.

Record AllState : Type := mkAllState {
  values : list (option V);
  remaining : nat;
  all_promise : Promise (list V)
}.

Definition all_start (n : nat) : AllState :=
  {| values := replicate n None;
     remaining := n;
     all_promise := if decide (n = 0%nat) then Resolved [] else Pending |}.

Definition all_on_settle (outs : list (Promise V)) (st : AllState)
    (j : nat) : AllState :=
  match outs !! j with
  | Some (Resolved v) =>
      match values st !! j with
      | Some None =>
          let values' := <[j := Some v]> (values st) in
          let remaining' := pred (remaining st) in
          {| values := values';
             remaining := remaining';
             all_promise :=
               if decide (remaining' = 0%nat)
               then settle (all_promise st) (Resolved (omap id values'))
               else all_promise st |}
      | _ => st
      end
  | Some (Rejected e) =>
      {| values := values st;
         remaining := remaining st;
         all_promise := settle (all_promise st) (Rejected e) |}
  | _ => st
  end.

Definition promise_all_run (outs : list (Promise V)) (order : list nat)
    : AllState :=
  fold_left (all_on_settle outs) order (all_start (length outs)).

Definition promise_all (outs : list (Promise V)) (order : list nat)
    : Promise (list V) :=
  all_promise (promise_all_run outs order).

End PromiseAll.

(** [Math.trunc]: the integer part, towards zero. *)
Definition trunc (x : Q) : Z :=
  if Qle_bool 0 x then Qfloor x else Qceiling x.

(** [a % n] on numbers: the remainder has the sign of the dividend. *)
Definition number_rem (a n : Q) : Q :=
  (a - n * inject_Z (trunc (a / n)))%Q.

Fixpoint string_repeat (c : ascii) (n : nat) : string :=
  match n with
  | O => EmptyString
  | S n' => String c (string_repeat c n')
  end.

(** [s.padStart(n, c)] for a one-character filler. *)
Definition padStart (n : nat) (c : ascii) (s : string) : string :=
  string_repeat c (n - String.length s) +:+ s.

(** The array after [a.splice(start, 1)]: a negative start counts from the
    end, and nothing is removed at or past the end. *)
Definition array_splice1 {A} (a : list A) (start : Z) : list A :=
  let from := Z.to_nat (clamp_index (Z.of_nat (length a)) start) in
  take from a ++ drop (S from) a.

(** *** Double arithmetic

    A number is a double: 53 significant bits.  [fl64 x] is the double
    nearest to [x], ties to the even significand, for [x] within the
    normal range.  The result of an addition, a multiplication or a
    division of doubles is [fl64] of the exact result. *)

(** The exponent [e] of a positive number: [2^e <= x < 2^(e+1)]. *)
Definition binade (x : Q) : Z :=
  if Qle_bool 1 x then Z.log2 (Qfloor x)
  else - Z.log2_up (Qceiling (/ x)).

(** The nearest integer, ties to the even one. *)
Definition round_half_even (m : Q) : Z :=
  let f := Qfloor m in
  match (m - inject_Z f ?= 1 # 2)%Q with
  | Lt => f
  | Gt => f + 1
  | Eq => if Z.even f then f else f + 1
  end.

Definition fl64_positive (x : Q) : Q :=
  let e := binade x in
  (inject_Z (round_half_even (x * 2 ^ (52 - e))) * 2 ^ (e - 52))%Q.

Definition fl64 (x : Q) : Q :=
  match (x ?= 0)%Q with
  | Eq => 0
  | Gt => fl64_positive x
  | Lt => - fl64_positive (- x)
  end.

End JS.

Export JS.

(** ** The data model *)

(** A browser [File]: only the attributes the program reads. *)
Record File : Type := mkFile {
  name : string;
  size : Z;
  type : string
}.

(** [this.settings] of the converter. *)
Record Settings : Type := mkSettings {
  outputFormat : string;
  sampleRate : Z;
  channels : Z;
  bitDepth : Z;
  codec : string
}.

(** The object [convertToFLAC] resolves with. *)
Record ConvertedFile : Type := mkConvertedFile {
  originalName : string;
  convertedName : string;
  originalSize : Z;
  estimatedSize : string;
  settings : Settings;
  timestamp : string
}.

(** ** The [AudioConverter] class *)

Module AudioConverter.

Definition default_settings : Settings :=
  {| outputFormat := "FLAC"; sampleRate := 96000; channels := 8;
     bitDepth := 24; codec := "flac" |}.

Definition supportedFormats : list string :=
  [ "audio/mpeg"; "audio/wav"; "audio/x-wav"; "audio/wave"; "audio/aac";
    "audio/ogg"; "audio/mp4"; "audio/x-m4a"; "audio/flac"; "audio/x-flac";
    "audio/wma"; "audio/webm"; "audio/opus" ].

Definition isValidAudioFile (file : File) : bool :=
  existsb (String.eqb (type file)) supportedFormats
  || startsWith "audio/" (type file).

(** [Math.floor(Math.log(bytes) / Math.log(1024))] for a positive number,
    computed exactly: the [i] with [1024^i <= bytes < 1024^(i+1)].  The
    quotient of the two double logarithms has this floor unless [bytes]
    lies below a power of 1024 by less than the doubles resolve, where it
    reaches the next index; the statements about sizes stay with whole
    numbers of bytes and their estimates below [1024^4], clear of that. *)
Definition unit_index (bytes : Q) : Z :=
  if Qle_bool 1 bytes then Z.log2 (Qfloor bytes) / 10
  else - ((Z.log2_up (Qceiling (/ bytes)) + 9) / 10).

Definition sizes : list string := ["Bytes"; "KB"; "MB"; "GB"; "TB"].

(** [sizes[i]]; an index outside the array reads [undefined], which the
    string concatenation prints as such. *)
Definition sizes_at (i : Z) : string :=
  if i <? 0 then "undefined"
  else default "undefined" (sizes !! Z.to_nat i).

(** [Math.round(bytes / Math.pow(1024, i) * 100)]: the scaled amount in
    hundredths. *)
Definition scaled_hundredths (bytes : Q) : Z :=
  round (bytes / Qpower 1024 (unit_index bytes) * 100)%Q.

Definition show_Z (z : Z) : string := NilZero.string_of_int (Z.to_int z).

(** The decimal rendering of the number [h / 100] for [h >= 0]: at most
    two fractional digits, trailing zeros dropped. *)
Definition show_hundredths (h : Z) : string :=
  let whole := show_Z (h / 100) in
  let frac := h mod 100 in
  if frac =? 0 then whole
  else if frac mod 10 =? 0 then whole +:+ "." +:+ show_Z (frac / 10)
  else whole +:+ "." +:+ show_Z (frac / 10) +:+ show_Z (frac mod 10).

Definition formatFileSize (bytes : Q) : string :=
  if Qeq_bool bytes 0 then "0 Bytes"
  else if Qle_bool bytes 0 then "NaN undefined"
  else show_hundredths (scaled_hundredths bytes)
         +:+ " " +:+ sizes_at (unit_index bytes).

(** [filename.slice((filename.lastIndexOf(".") - 1 >>> 0) + 2)] *)
Definition getFileExtension (filename : string) : string :=
  string_slice_from filename (ushr0 (lastIndexOf "." filename - 1) + 2).

(** The class [[^/.]] of the regular expression below. *)
Definition not_slash_dot (c : ascii) : bool :=
  negb (Ascii.eqb c "/") && negb (Ascii.eqb c ".").

Fixpoint all_not_slash_dot (s : string) : bool :=
  match s with
  | EmptyString => true
  | String c s' => not_slash_dot c && all_not_slash_dot s'
  end.

(** Does [/\.[^/.]+$/] match [s] from its first character: a dot, then
    one or more characters of the class, then the end of the input. *)
Definition ext_regex_matches_here (s : string) : bool :=
  match s with
  | String "." rest =>
      match rest with
      | EmptyString => false
      | _ => all_not_slash_dot rest
      end
  | _ => false
  end.

(** [s.replace(/\.[^/.]+$/, '.flac')]: the leftmost match, which runs to
    the end of the input, is replaced; without a match [s] is returned. *)
Fixpoint replace_extension (s : string) : string :=
  if ext_regex_matches_here s then ".flac"
  else match s with
       | EmptyString => EmptyString
       | String c s' => String c (replace_extension s')
       end.

Definition shrink_factor : Q := 55 # 100.

Definition estimateOutputSize (originalSize : Z) : string :=
  formatFileSize (inject_Z originalSize * shrink_factor)%Q.

(** The object returned by [validateFileSize]. *)
Record SizeValidation : Type := mkSizeValidation {
  valid : bool;
  checked_size : Z;
  maxSize_field : Z;
  message : string
}.

Definition maxSize : Z := 1024 * 1024 * 1024.

Definition too_large_prefix : string := "File terlalu besar. Maksimum ".

Definition validateFileSize (file : File) : SizeValidation :=
  {| valid := size file <=? maxSize;
     checked_size := size file;
     maxSize_field := maxSize;
     message := if maxSize <? size file
                then too_large_prefix +:+ formatFileSize (inject_Z maxSize)
                else "" |}.

(** *** The simulated conversion

    [convertToFLAC] arms an interval timer and a one-shot timer and
    returns a promise; everything else happens in the two callbacks.
    The event loop decides when each callback runs and [Math.random]
    what it draws, so a conversion is run against a list of timer
    events. *)

Inductive TimerEvent : Type :=
| IntervalTick (r : Q) (now : string)
    (** the [setInterval] callback runs; [r] is its [Math.random()] and
        [now] what [new Date().toISOString()] would read *)
| TimeoutFire (u : Q)
    (** the [setTimeout] callback runs; [u] is its [Math.random()] *).

(** The variables captured by the two callbacks, the promise, and the
    arguments [progressCallback] has been called with, oldest first. *)
Record Conversion : Type := mkConversion {
  progress : Q;
  interval_on : bool;
  timeout_armed : bool;
  promise : Promise ConvertedFile;
  reported : list Q
}.

Definition convertedFile (file : File) (now : string) : ConvertedFile :=
  {| originalName := name file;
     convertedName := replace_extension (name file);
     originalSize := size file;
     estimatedSize := estimateOutputSize (size file);
     settings := default_settings;
     timestamp := now |}.

Definition simulated_error : string := "Conversion failed: Simulated error".

Definition interval_callback (file : File) (r : Q) (now : string)
    (c : Conversion) : Conversion :=
  let increment := (r * 15 + 5)%Q in
  let progress' := (progress c + increment)%Q in
  if Qle_bool 100 progress' then
    {| progress := 100;
       interval_on := false;
       timeout_armed := timeout_armed c;
       promise := settle (promise c) (Resolved (convertedFile file now));
       reported := reported c |}
  else
    {| progress := progress';
       interval_on := interval_on c;
       timeout_armed := timeout_armed c;
       promise := promise c;
       reported := reported c ++ [Qmin progress' 100] |}.

Definition timeout_callback (u : Q) (c : Conversion) : Conversion :=
  if negb (Qle_bool (1 # 1000) u) then
    {| progress := progress c;
       interval_on := false;
       timeout_armed := false;
       promise := settle (promise c) (Rejected simulated_error);
       reported := reported c |}
  else
    {| progress := progress c;
       interval_on := interval_on c;
       timeout_armed := false;
       promise := promise c;
       reported := reported c |}.

(** A cleared interval and a timeout that has fired run no callback. *)
Definition deliver (file : File) (c : Conversion) (ev : TimerEvent)
    : Conversion :=
  match ev with
  | IntervalTick r now =>
      if interval_on c then interval_callback file r now c else c
  | TimeoutFire u =>
      if timeout_armed c then timeout_callback u c else c
  end.

Definition conversion_start : Conversion :=
  {| progress := 0; interval_on := true; timeout_armed := true;
     promise := Pending; reported := [] |}.

Definition convertToFLAC (file : File) (events : list TimerEvent)
    : Conversion :=
  fold_left (deliver file) events conversion_start.

Definition is_tick (ev : TimerEvent) : bool :=
  match ev with
  | IntervalTick _ _ => true
  | TimeoutFire _ => false
  end.

(** How often the interval timer is given the chance to run. *)
Definition ticks (events : list TimerEvent) : nat :=
  length (List.filter is_tick events).

(** [Math.random()] returns a number in [[0, 1)]. *)
Definition random_draw (r : Q) : Prop := (0 <= r /\ r < 1)%Q.

Definition draws_ok (ev : TimerEvent) : Prop :=
  match ev with
  | IntervalTick r _ => random_draw r
  | TimeoutFire u => random_draw u
  end.

(** *** The batch driver

    The timer events of the conversion of [files[i]] are [sched i], and
    the conversions of the [w]-th chunk settle in the order
    [settle_order w] of their indices within the chunk.  Besides its
    promise the model keeps a log of the conversions started and
    settled, by chunk and by index in [files]. *)

Inductive BatchEvent : Type :=
| Started (window task : nat)
| Settled (window task : nat) (ok : bool).

(** The loop that splits [files]; [i] and [chunks] are its variables.
    [chunks] has no bound here, which is the program's loop for a positive
    limit: the array then gets at most one chunk per file.
    [split_chunks_bounded] below is the loop with the capacity of an
    array, which matters when the limit is not positive. *)
Fixpoint split_chunks (fuel : nat) (files : list File)
    (concurrentLimit i : Z) (chunks : list (list File))
    : option (list (list File)) :=
  match fuel with
  | O => None
  | S fuel' =>
      if i <? Z.of_nat (length files) then
        split_chunks fuel' files concurrentLimit (i + concurrentLimit)
          (chunks ++ [array_slice files i (i + concurrentLimit)])
      else Some chunks
  end.

(** An array holds at most [2^32 - 1] elements: [a.push(x)] on a full
    array throws a [RangeError], [inl]; otherwise it appends, [inr]. *)
Definition max_array_length : Z := 2 ^ 32 - 1.

Definition range_error : string := "RangeError: Invalid array length".

Definition array_push {A : Type} (a : list A) (x : A) : string + list A :=
  if Z.of_nat (length a) <? max_array_length then inr (a ++ [x])
  else inl range_error.

(** The same loop with [chunks] as the array it is: the loop ends with
    the chunks, [inr], or with the error [chunks.push] throws, [inl]. *)
Fixpoint split_chunks_bounded (fuel : nat) (files : list File)
    (concurrentLimit i : Z) (chunks : list (list File))
    : option (string + list (list File)) :=
  match fuel with
  | O => None
  | S fuel' =>
      if i <? Z.of_nat (length files) then
        match array_push chunks (array_slice files i (i + concurrentLimit)) with
        | inr chunks' =>
            split_chunks_bounded fuel' files concurrentLimit
              (i + concurrentLimit) chunks'
        | inl e => Some (inl e)
        end
      else Some (inr chunks)
  end.

Section Batch.
Variable sched : nat -> list TimerEvent.
Variable settle_order : nat -> list nat.

(** [chunk.map((file, index) => this.convertToFLAC(file, ...))], the
    first file of the chunk being [files[offset]]. *)
Definition start_chunk (offset : nat) (chunk : list File)
    : list (Promise ConvertedFile) :=
  imap (fun j file => promise (convertToFLAC file (sched (offset + j))))
       chunk.

Definition settle_event {V} (w offset : nat) (outs : list (Promise V))
    (j : nat) : option BatchEvent :=
  match outs !! j with
  | Some (Resolved _) => Some (Settled w (offset + j) true)
  | Some (Rejected _) => Some (Settled w (offset + j) false)
  | _ => None
  end.

Definition chunk_log {V} (w offset : nat) (outs : list (Promise V))
    (order : list nat) : list BatchEvent :=
  (Started w <$> seq offset (length outs))
    ++ omap (settle_event w offset outs) order.

(** The loop over the chunks: [w] counts them, [results] is the array
    being filled. *)
Fixpoint process_chunks (chunks : list (list File)) (w offset : nat)
    (results : list ConvertedFile) (log : list BatchEvent)
    : Promise (list ConvertedFile) * list BatchEvent :=
  match chunks with
  | [] => (Resolved results, log)
  | chunk :: rest =>
      let outs := start_chunk offset chunk in
      let log' := log ++ chunk_log w offset outs (settle_order w) in
      match promise_all outs (settle_order w) with
      | Resolved chunkResults =>
          process_chunks rest (S w) (offset + length chunk)
            (results ++ chunkResults) log'
      | Rejected e => (Rejected e, log')
      | Pending => (Pending, log')
      end
  end.

(** [batchConvert(files, progressCallback, concurrentLimit)].  The
    result is the promise of the async function: rejected when an
    awaited [Promise.all] rejects, pending when one never settles.
    Each conversion reports its progress through [progressCallback]
    with the values [reported] lists. *)
Definition batchConvert (fuel : nat) (files : list File)
    (concurrentLimit : Z)
    : option (Promise (list ConvertedFile) * list BatchEvent) :=
  chunks ← split_chunks fuel files concurrentLimit 0 [];
  Some (process_chunks chunks 0 0 [] []).

(** [batchConvert] with the capacity of [chunks] taken into account: an
    error thrown while the files are split rejects the promise of the
    async function before a conversion is started.  For a positive limit
    the array never fills up, and this is [batchConvert]. *)
Definition batchConvert_bounded (fuel : nat) (files : list File)
    (concurrentLimit : Z)
    : option (Promise (list ConvertedFile) * list BatchEvent) :=
  split ← split_chunks_bounded fuel files concurrentLimit 0 [];
  Some match split with
       | inr chunks => process_chunks chunks 0 0 [] []
       | inl e => (Rejected e, [])
       end.

End Batch.

(** *** Durations *)

(** The minutes and the seconds [formatDuration] prints. *)
Definition duration_minutes (seconds : Q) : Z := Qfloor (seconds / 60).

Definition duration_seconds (seconds : Q) : Z :=
  Qfloor (number_rem seconds 60).

(** [formatDuration(seconds)]: minutes, a colon, and the seconds padded to
    two characters. *)
Definition formatDuration (seconds : Q) : string :=
  show_Z (duration_minutes seconds)
    +:+ ":" +:+ padStart 2 "0" (show_Z (duration_seconds seconds)).

End AudioConverter.

(** ** The application: file admission and the conversion loop *)

Module App.
Import AudioConverter.

(** The text of a [.file-status] element. *)
Inductive FileStatus : Type :=
| Ready
| Converting
| Completed
| Failed.

(** An entry of [invalidFiles]. *)
Record Rejection : Type := mkRejection {
  rejected_name : string;
  reason : string
}.

(** The calls of [showNotification], by the message they carry. *)
Inductive Notification : Type :=
| WaitForConversion
| FilesAdded (count : nat)
| FilesRejected (invalid : list Rejection)
| NoFilesSelected
| ChooseFilesFirst
| ConversionInProgress
| ConversionFailed.

(** The globals [selectedFiles] and [isConverting], and the rendered
    [.file-item] elements with their status, by [data-index]. *)
Record AppState : Type := mkAppState {
  selectedFiles : list File;
  isConverting : bool;
  items : gmap Z FileStatus
}.

Definition unsupported_reason : string := "Format tidak didukung".
Definition duplicate_reason : string := "File sudah ada dalam daftar".

(** [selectedFiles.some(f => f.name === file.name && f.size === file.size)] *)
Definition isDuplicate (selected : list File) (file : File) : bool :=
  existsb (fun f => String.eqb (name f) (name file) && (size f =? size file))
          selected.

(** The body of the [forEach] of [handleFiles]: [acc] is the pair of
    [validFiles] and [invalidFiles]. *)
Definition check_file (selected : list File)
    (acc : list File * list Rejection) (file : File)
    : list File * list Rejection :=
  let '(validFiles, invalidFiles) := acc in
  if negb (isValidAudioFile file) then
    (validFiles, invalidFiles ++ [mkRejection (name file) unsupported_reason])
  else
    let sizeValidation := validateFileSize file in
    if negb (valid sizeValidation) then
      (validFiles,
       invalidFiles ++ [mkRejection (name file) (message sizeValidation)])
    else if isDuplicate selected file then
      (validFiles, invalidFiles ++ [mkRejection (name file) duplicate_reason])
    else (validFiles ++ [file], invalidFiles).

(** [renderFileList]: one fresh item per selected file; with nothing
    selected the list is hidden and its items are left as they are. *)
Definition renderFileList (selected : list File) (old : gmap Z FileStatus)
    : gmap Z FileStatus :=
  match selected with
  | [] => old
  | _ => list_to_map (imap (fun i _ => (Z.of_nat i, Ready)) selected)
  end.

(** The outcome of a call of [handleFiles]. *)
Record Admission : Type := mkAdmission {
  state_after : AppState;
  validFiles : list File;
  invalidFiles : list Rejection;
  notifications : list Notification
}.

Definition handleFiles (st : AppState) (files : list File) : Admission :=
  if isConverting st then
    {| state_after := st; validFiles := []; invalidFiles := [];
       notifications := [WaitForConversion] |}
  else
    let '(valids, invalids) :=
      fold_left (check_file (selectedFiles st)) files ([], []) in
    let st' :=
      match valids with
      | [] => st
      | _ =>
          let selected := selectedFiles st ++ valids in
          {| selectedFiles := selected;
             isConverting := isConverting st;
             items := renderFileList selected (items st) |}
      end in
    {| state_after := st';
       validFiles := valids;
       invalidFiles := invalids;
       notifications :=
         match valids with [] => [] | _ => [FilesAdded (length valids)] end
         ++ match invalids with [] => [] | _ => [FilesRejected invalids] end
         ++ match valids, invalids with
            | [], [] => [NoFilesSelected]
            | _, _ => []
            end |}.

(** What the conversion loop does, in order. *)
Inductive AppEvent : Type :=
| ConversionStarted (index : Z)
| ConversionSettled (index : Z) (ok : bool)
| OverallProgress (completed total percentage : Z)
| CompletionDialog
| Notified (n : Notification).

(** [Math.round((completed / total) * 100)], the quotient and the
    product rounded as doubles. *)
Definition percentage_of (completed total : Z) : Z :=
  round (fl64 (fl64 (inject_Z completed / inject_Z total) * 100))%Q.

Section Conversion.
Variable sched : nat -> list TimerEvent.
Variable settle_order : nat -> list nat.

Definition conversion_of (file : File) (index : Z)
    : Promise ConvertedFile :=
  promise (convertToFLAC file (sched (Z.to_nat index))).

(** [convertSingleFile(file, index)] up to its [await]: without an item
    it returns at once; otherwise the item shows "Converting...". *)
Definition convertSingleFile_begin (its : gmap Z FileStatus) (index : Z)
    : gmap Z FileStatus :=
  match its !! index with
  | Some _ => <[index := Converting]> its
  | None => its
  end.

(** [convertSingleFile] after its [await]: the [try] branch marks the
    item completed, the [catch] branch marks it failed. *)
Definition convertSingleFile_end (its : gmap Z FileStatus) (file : File)
    (index : Z) : gmap Z FileStatus :=
  match its !! index with
  | Some _ =>
      match conversion_of file index with
      | Resolved _ => <[index := Completed]> its
      | Rejected _ => <[index := Failed]> its
      | Pending => its
      end
  | None => its
  end.

(** The promise of the async function [convertSingleFile]: it catches
    the rejection of the conversion.  An item is taken to hold the status
    and progress elements [createFileItem] writes into it, so that the
    lines before the [try] find them. *)
Definition convertSingleFile (its : gmap Z FileStatus) (file : File)
    (index : Z) : Promise unit :=
  match its !! index with
  | Some _ =>
      match conversion_of file index with
      | Pending => Pending
      | _ => Resolved tt
      end
  | None => Resolved tt
  end.

Definition started_events (its : gmap Z FileStatus) (i : Z)
    (batch : list File) : list AppEvent :=
  omap (fun index => (fun _ => ConversionStarted index) <$> its !! index)
       ((fun bi => i + Z.of_nat bi) <$> seq 0 (length batch)).

Definition settled_event (its : gmap Z FileStatus) (i : Z)
    (batch : list File) (bi : nat) : option AppEvent :=
  file ← batch !! bi;
  _ ← its !! (i + Z.of_nat bi);
  match conversion_of file (i + Z.of_nat bi) with
  | Resolved _ => Some (ConversionSettled (i + Z.of_nat bi) true)
  | Rejected _ => Some (ConversionSettled (i + Z.of_nat bi) false)
  | Pending => None
  end.

Definition settle_items (i : Z) (batch : list File)
    (its : gmap Z FileStatus) (bi : nat) : gmap Z FileStatus :=
  match batch !! bi with
  | Some file => convertSingleFile_end its file (i + Z.of_nat bi)
  | None => its
  end.

(** The [for] loop of [startConversion]; [w] counts the windows. *)
Fixpoint conversion_loop (fuel : nat) (batchSize : Z) (files : list File)
    (w : nat) (i completedCount : Z) (its : gmap Z FileStatus)
    (log : list AppEvent)
    : option (Promise unit * gmap Z FileStatus * list AppEvent) :=
  match fuel with
  | O => None
  | S fuel' =>
      let total := Z.of_nat (length files) in
      if i <? total then
        let batch := array_slice files i (Z.min (i + batchSize) total) in
        let outs :=
          imap (fun bi file => convertSingleFile its file (i + Z.of_nat bi))
               batch in
        let its1 :=
          foldl convertSingleFile_begin its
                ((fun bi => i + Z.of_nat bi) <$> seq 0 (length batch)) in
        let its2 := foldl (settle_items i batch) its1 (settle_order w) in
        let log' :=
          log ++ started_events its i batch
              ++ omap (settled_event its i batch) (settle_order w) in
        match promise_all outs (settle_order w) with
        | Resolved _ =>
            let completedCount' :=
              completedCount + Z.of_nat (length batch) in
            conversion_loop fuel' batchSize files (S w) (i + batchSize)
              completedCount' its2
              (log' ++ [OverallProgress completedCount' total
                          (percentage_of completedCount' total)])
        | Rejected e => Some (Rejected e, its2, log')
        | Pending => Some (Pending, its2, log')
        end
      else Some (Resolved tt, its, log)
  end.

(** The body of [startConversion] with its constant [batchSize] as an
    argument, for the inductions over the windows; the program is
    [startConversion] below, which fixes it to 10. *)
Definition startConversion_with (batchSize : Z) (fuel : nat)
    (st : AppState) : option (AppState * list AppEvent) :=
  match selectedFiles st with
  | [] => Some (st, [Notified ChooseFilesFirst])
  | _ =>
      if isConverting st then Some (st, [Notified ConversionInProgress])
      else
        '(p, its, log) ←
          conversion_loop fuel batchSize (selectedFiles st) 0 0 0
                          (items st) [];
        Some
          match p with
          | Resolved _ =>
              ({| selectedFiles := selectedFiles st;
                  isConverting := false; items := its |},
               log ++ [CompletionDialog])
          | Rejected _ =>
              ({| selectedFiles := selectedFiles st;
                  isConverting := false; items := its |},
               log ++ [Notified ConversionFailed])
          | Pending =>
              ({| selectedFiles := selectedFiles st;
                  isConverting := true; items := its |}, log)
          end
  end.

Definition batchSize : Z := 10.

(** [startConversion()]: one turn of the loop per window, so one more
    than the number of files is fuel enough. *)
Definition startConversion (st : AppState)
    : option (AppState * list AppEvent) :=
  startConversion_with batchSize (S (length (selectedFiles st))) st.

End Conversion.

(** *** Removing files *)

(** The calls of [showNotification] of [removeFile] and [clearAll]. *)
Inductive ListNotification : Type :=
| CannotRemoveWhileConverting
| FileRemoved
| AllCleared.

(** [removeFile(index)] *)
Definition removeFile (st : AppState) (index : Z)
    : AppState * list ListNotification :=
  if isConverting st then (st, [CannotRemoveWhileConverting])
  else
    let selected := array_splice1 (selectedFiles st) index in
    ({| selectedFiles := selected;
        isConverting := isConverting st;
        items := renderFileList selected (items st) |},
     [FileRemoved]).

(** [clearAll()]; [confirmed] is the answer to its [confirm] dialog.  The
    rendered items are not touched. *)
Definition clearAll (st : AppState) (confirmed : bool)
    : AppState * list ListNotification :=
  if isConverting st then (st, [CannotRemoveWhileConverting])
  else
    match selectedFiles st with
    | [] => (st, [])
    | _ =>
        if confirmed then
          ({| selectedFiles := [];
              isConverting := isConverting st;
              items := items st |},
           [AllCleared])
        else (st, [])
    end.

(** *** The theme *)

(** The text of the theme button. *)
Inductive ThemeIcon : Type :=
| Sun
| Moon.

(** The [dark-mode] class of the body, the theme button, and the ['theme']
    entry of [localStorage]. *)
Record Theme : Type := mkTheme {
  dark_mode : bool;
  icon : ThemeIcon;
  aria_label : string;
  stored_theme : option string
}.

Definition toggleTheme (t : Theme) : Theme :=
  let isDark := negb (dark_mode t) in
  {| dark_mode := isDark;
     icon := if isDark then Sun else Moon;
     aria_label :=
       if isDark then "Switch to light mode" else "Switch to dark mode";
     stored_theme := Some (if isDark then "dark" else "light") |}.

Definition loadTheme (t : Theme) : Theme :=
  match stored_theme t with
  | Some saved =>
      if String.eqb saved "dark" then
        {| dark_mode := true;
           icon := Sun;
           aria_label := "Switch to light mode";
           stored_theme := stored_theme t |}
      else t
  | None => t
  end.

End App.

(** ** Vocabulary of the statements *)

Module Spec.
Import AudioConverter.

(** *** Strings *)

(** Does the character occur in the string. *)
Fixpoint contains (c : ascii) (s : string) : bool :=
  match s with
  | EmptyString => false
  | String a s' => Ascii.eqb a c || contains c s'
  end.

(** [s] ends with [suffix]. *)
Fixpoint ends_with (suffix s : string) : bool :=
  String.eqb s suffix
  || match s with
     | EmptyString => false
     | String _ s' => ends_with suffix s'
     end.

Fixpoint after_last_dot_from (s : string) (candidate : option string)
    : option string :=
  match s with
  | EmptyString => candidate
  | String a s' =>
      after_last_dot_from s' (if Ascii.eqb a "." then Some s' else candidate)
  end.

(** "The substring after the last dot", empty for a name without a dot. *)
Definition substring_after_last_dot (s : string) : string :=
  default "" (after_last_dot_from s None).

(** *** Sizes *)

(** "ceil(inputSize * 0.55)" *)
Definition ceil_estimate (inputSize : Z) : Z :=
  Qceiling (inject_Z inputSize * (55 # 100))%Q.

(** *** Admission *)

(** The admission rules in the order of the specification, "first
    matching rule wins": the reason a candidate is rejected for, if any,
    given the files already accepted. *)
Definition verdict (alreadyAccepted : list File) (candidate : File)
    : option string :=
  if negb (isValidAudioFile candidate) then Some App.unsupported_reason
  else if maxSize <? size candidate then
    Some (too_large_prefix +:+ formatFileSize (inject_Z maxSize))
  else if existsb (fun f => String.eqb (name f) (name candidate)
                            && (size f =? size candidate)) alreadyAccepted
  then Some App.duplicate_reason
  else None.

Definition accepted (alreadyAccepted : list File) (candidate : File)
    : bool :=
  match verdict alreadyAccepted candidate with
  | None => true
  | Some _ => false
  end.

Definition rejection (alreadyAccepted : list File) (candidate : File)
    : option App.Rejection :=
  App.mkRejection (name candidate) <$> verdict alreadyAccepted candidate.

(** *** Conversions *)

(** Values reported in increasing order, by position. *)
Definition increasing (l : list Q) : Prop :=
  forall (i j : nat) (a b : Q),
    (i < j)%nat -> l !! i = Some a -> l !! j = Some b -> (a < b)%Q.

(** What holds of a conversion of [file] after [n] chances for the
    interval timer to run. *)
Record conv_inv (file : File) (c : Conversion) (n : Z) : Prop := mkConvInv {
  inv_range : (0 <= progress c /\ progress c <= 100)%Q;
  inv_increasing : increasing (reported c);
  inv_reports :
    Forall (fun v => 5 <= v /\ v < 100 /\ v <= progress c)%Q (reported c);
  inv_interval : interval_on c = negb (is_settled (promise c));
  inv_running :
    interval_on c = true ->
    (progress c < 100 /\ 5 * inject_Z n <= progress c)%Q;
  inv_first : (progress c == 0)%Q \/ reported c <> [];
  inv_resolved :
    forall d, promise c = Resolved d ->
      reported c <> [] /\ exists now, d = convertedFile file now
}.

(** *** Promises and windows *)

(** Every index below [n] occurs in the order of settlement. *)
Definition covers (order : list nat) (n : nat) : Prop :=
  forall j, (j < n)%nat -> In j order.

(** What holds of [Promise.all] over [outs] once the promises with the
    indices [done] have been told to settle. *)
Record all_inv {V : Type} (outs : list (Promise V)) (done : list nat)
    (st : @AllState V) : Prop := mkAllInv {
  all_len : length (values st) = length outs;
  all_filled :
    forall j v, values st !! j = Some (Some v) ->
      outs !! j = Some (Resolved v) /\ In j done;
  all_count :
    (remaining st + length (omap id (values st)) = length outs)%nat;
  all_resolved :
    forall vs, all_promise st = Resolved vs ->
      vs = omap id (values st) /\ remaining st = 0%nat;
  all_pending : all_promise st = Pending -> (0 < remaining st)%nat;
  all_rejected :
    forall e, all_promise st = Rejected e ->
      exists j, In j done /\ outs !! j = Some (Rejected e);
  all_seen :
    forall j v, In j done -> outs !! j = Some (Resolved v) ->
      values st !! j = Some (Some v)
}.

(** "ceil(N/K)" for a positive [K]. *)
Definition ceil_div (n k : Z) : Z := (n + k - 1) / k.

(** The [w]-th of the consecutive windows of [k] elements of a list, and
    the list of all of them. *)
Definition window {A} (k : nat) (l : list A) (w : nat) : list A :=
  take k (drop (w * k) l).

Definition windows {A} (k : Z) (l : list A) : list (list A) :=
  window (Z.to_nat k) l
    <$> seq 0 (Z.to_nat (ceil_div (Z.of_nat (length l)) k)).

(** *** The conversion loop *)




(** *** The file list *)

(** A file that passes the type and the size check of [handleFiles]. *)
Definition admissible (f : File) : Prop :=
  isValidAudioFile f = true /\ size f <= maxSize.

(** Every selected file has its rendered item. *)
Definition rendered (st : App.AppState) : Prop :=
  forall i, (i < length (App.selectedFiles st))%nat ->
    is_Some (App.items st !! Z.of_nat i).

(** The invariant of the page: every selected file passes the type and
    the size check, and while files are selected the rendered items are
    the indices of the selection. *)
Definition page_invariant (st : App.AppState) : Prop :=
  List.Forall admissible (App.selectedFiles st)
  /\ (App.selectedFiles st <> [] ->
      forall x, is_Some (App.items st !! x)
                <-> 0 <= x < Z.of_nat (length (App.selectedFiles st))).

(** What the user can do with the page: drop or pick files, press the
    remove button of an item, press "clear all" and answer its dialog,
    start the conversion (against some behaviour of the timers). *)
Inductive UserAction : Type :=
| AddFiles (files : list File)
| RemoveFile (index : Z)
| ClearAll (confirmed : bool)
| StartConversion (sched : nat -> list TimerEvent)
                  (settle_order : nat -> list nat).

Definition perform (st : App.AppState) (a : UserAction) : App.AppState :=
  match a with
  | AddFiles files => App.state_after (App.handleFiles st files)
  | RemoveFile index => fst (App.removeFile st index)
  | ClearAll confirmed => fst (App.clearAll st confirmed)
  | StartConversion sched settle_order =>
      match App.startConversion sched settle_order st with
      | Some (st', _) => st'
      | None => st
      end
  end.

(** The page as it is loaded: nothing selected, nothing rendered. *)
Definition initial_state : App.AppState :=
  {| App.selectedFiles := []; App.isConverting := false; App.items := ∅ |}.

(** A timeout callback that does not reject: its draw is at least 0.001. *)
Definition timeout_harmless (ev : TimerEvent) : Prop :=
  match ev with
  | IntervalTick _ _ => True
  | TimeoutFire u => (1 # 1000 <= u)%Q
  end.

(** The draw of an interval callback with the upper end included: the
    increment [r * 15 + 5] lies between 5 and 20.  In double arithmetic
    the increment of a draw just below 1 is rounded to 20, which [r = 1]
    stands for. *)
Definition draw_closed (ev : TimerEvent) : Prop :=
  match ev with
  | IntervalTick r _ => (0 <= r /\ r <= 1)%Q
  | TimeoutFire _ => True
  end.

(** How the number of reports of a conversion is tied to its progress. *)
Record report_inv (c : Conversion) : Prop := mkReportInv {
  rep_running :
    interval_on c = true ->
    (5 * inject_Z (Z.of_nat (length (reported c))) <= progress c
     /\ progress c <= 20 * inject_Z (Z.of_nat (length (reported c))))%Q;
  rep_at_most : (length (reported c) <= 19)%nat;
  rep_values : List.Forall (fun v => 5 <= v /\ v < 100)%Q (reported c);
  rep_resolved :
    forall d, promise c = Resolved d -> (4 <= length (reported c))%nat;
  rep_done :
    forall d, promise c = Resolved d ->
      (progress c == 100)%Q /\ interval_on c = false;
  rep_rejected :
    forall e, promise c = Rejected e -> e = simulated_error
}.

End Spec.

(** Every draw of a concrete list of timer events lies in [[0,1)]. *)
Ltac draws :=
  repeat (constructor;
          [unfold AudioConverter.draws_ok, AudioConverter.random_draw, Qle, Qlt;
           simpl; lia|]);
  constructor.

(** * Properties *)

Import AudioConverter App Spec.

(** ** Strings *)

Lemma string_length_app (s t : string) :
  String.length (s +:+ t) = (String.length s + String.length t)%nat.
Proof. induction s as [|a s IH]; simpl; [reflexivity | now rewrite IH]. Qed.

Lemma string_app_assoc (s t u : string) :
  (s +:+ t) +:+ u = s +:+ (t +:+ u).
Proof.
  induction s as [|a s IH]; [reflexivity|].
  change (String a ((s +:+ t) +:+ u) = String a (s +:+ (t +:+ u))).
  now f_equal.
Qed.

Lemma string_drop_app (s t : string) :
  string_drop (String.length s) (s +:+ t) = t.
Proof. induction s as [|a s IH]; simpl; [now destruct t | exact IH]. Qed.

Lemma string_drop_all (n : nat) (s : string) :
  (String.length s <= n)%nat -> string_drop n s = "".
Proof.
  revert n; induction s as [|a s IH]; intros [|n] H; simpl in *;
    try reflexivity; try lia.
  apply IH; lia.
Qed.

Lemma lastIndexOf_from_absent (c : ascii) (s : string) (i found : Z) :
  contains c s = false -> lastIndexOf_from c s i found = found.
Proof.
  revert i found; induction s as [|a s IH]; intros i found H; simpl in *.
  - reflexivity.
  - apply orb_false_iff in H as [Ha Hs]. rewrite Ha. now apply IH.
Qed.

Lemma lastIndexOf_from_last (c : ascii) (pre ext : string) (i found : Z) :
  contains c ext = false ->
  lastIndexOf_from c (pre +:+ String c ext) i found
  = i + Z.of_nat (String.length pre).
Proof.
  intros Hext; revert i found; induction pre as [|a pre IH]; intros i found.
  - simpl. rewrite Ascii.eqb_refl, lastIndexOf_from_absent by assumption. lia.
  - simpl String.length. change (String a pre +:+ String c ext)
      with (String a (pre +:+ String c ext)).
    simpl lastIndexOf_from. rewrite IH. lia.
Qed.

Lemma after_last_dot_from_absent (s : string) (candidate : option string) :
  contains "." s = false -> after_last_dot_from s candidate = candidate.
Proof.
  revert candidate; induction s as [|a s IH]; intros cand H; simpl in *.
  - reflexivity.
  - apply orb_false_iff in H as [Ha Hs]. rewrite Ha. now apply IH.
Qed.

Lemma substring_after_last_dot_app (pre ext : string) :
  contains "." ext = false ->
  substring_after_last_dot (pre +:+ String "." ext) = ext.
Proof.
  intros Hext. unfold substring_after_last_dot.
  generalize (@None string).
  induction pre as [|a pre IH]; intros cand.
  - simpl. now rewrite after_last_dot_from_absent.
  - change (String a pre +:+ String "." ext)
      with (String a (pre +:+ String "." ext)).
    simpl after_last_dot_from. apply IH.
Qed.

(** The helper of [getFileExtension] in closed form: the start index of the
    slice is past the end of the name unless the last dot has a character
    in front of it. *)
Lemma getFileExtension_unfold (filename : string) :
  Z.of_nat (String.length filename) <= 2 ^ 32 ->
  getFileExtension filename
  = if lastIndexOf "." filename <=? 0 then ""
    else string_drop (Z.to_nat (lastIndexOf "." filename + 1)) filename.
Proof.
  intros Hlen. unfold getFileExtension, string_slice_from, ushr0, clamp_index.
  set (d := lastIndexOf "." filename).
  set (len := Z.of_nat (String.length filename)) in *.
  assert (Hd : -1 <= d < Z.max len 1 /\ (d < len \/ d = -1)).
  { subst d len. unfold lastIndexOf.
    assert (G : forall s i found, 0 <= i -> -1 <= found < Z.max i 1 ->
              (found < i \/ found = -1) ->
              -1 <= lastIndexOf_from "." s i found
                 < Z.max (i + Z.of_nat (String.length s)) 1
              /\ (lastIndexOf_from "." s i found
                    < i + Z.of_nat (String.length s)
                  \/ lastIndexOf_from "." s i found = -1)).
    { induction s as [|a s IH]; intros i found Hi Hf Hf'; simpl.
      - lia.
      - specialize (IH (i + 1) (if Ascii.eqb a "." then i else found)).
        destruct (Ascii.eqb a "."); lia. }
    specialize (G filename 0 (-1)). simpl in G. apply G; lia. }
  destruct (Z.leb_spec d 0) as [Hle|Hgt].
  - assert (Hmod : (d - 1) mod 2 ^ 32 = d - 1 + 2 ^ 32).
    { symmetry. apply Z.mod_unique with (q := -1); lia. }
    rewrite Hmod.
    destruct (Z.ltb_spec (d - 1 + 2 ^ 32 + 2) 0); [lia|].
    apply string_drop_all. lia.
  - rewrite Z.mod_small by lia.
    destruct (Z.ltb_spec (d - 1 + 2) 0); [lia|].
    f_equal. lia.
Qed.

(** ** The extension helper *)

(** C9, as stated, fails: for a name whose only dot is its first character
    the helper returns the empty string, not the substring after the dot. *)
Lemma getFileExtension_leading_dot_counterexample :
  getFileExtension ".bashrc" = ""
  /\ substring_after_last_dot ".bashrc" = "bashrc"
  /\ getFileExtension ".bashrc" <> substring_after_last_dot ".bashrc".
Proof. repeat split; vm_compute; congruence. Qed.

Lemma getFileExtension_after_last_dot (pre ext : string) :
  Z.of_nat (String.length (pre +:+ "." +:+ ext)) <= 2 ^ 32 ->
  pre <> "" -> contains "." ext = false ->
  getFileExtension (pre +:+ "." +:+ ext) = ext.
Proof.
  intros Hlen Hpre Hext. rewrite (getFileExtension_unfold _ Hlen).
  change (pre +:+ "." +:+ ext) with (pre +:+ String "." ext).
  unfold lastIndexOf. rewrite lastIndexOf_from_last by assumption.
  destruct (Z.leb_spec (0 + Z.of_nat (String.length pre)) 0) as [Hle|_].
  - destruct pre; [congruence | simpl String.length in Hle; lia].
  - replace (Z.to_nat (0 + Z.of_nat (String.length pre) + 1))
      with (String.length (pre +:+ ".")) by
      (rewrite string_length_app; simpl; lia).
    change (String "." ext) with ("." +:+ ext).
    rewrite <- string_app_assoc. apply string_drop_app.
Qed.

(** C9, amended: for a name of at most 2^32 code units, the helper returns
    the substring after the last dot when that dot is not the first
    character of the name, and the empty string when the name has no dot or
    its last dot is its first character. *)
Theorem getFileExtension_spec (filename : string) :
  Z.of_nat (String.length filename) <= 2 ^ 32 ->
  (contains "." filename = false -> getFileExtension filename = "")
  /\ (forall ext, filename = "." +:+ ext -> contains "." ext = false ->
        getFileExtension filename = "")
  /\ (forall pre ext, filename = pre +:+ "." +:+ ext -> pre <> "" ->
        contains "." ext = false ->
        getFileExtension filename = ext
        /\ getFileExtension filename = substring_after_last_dot filename).
Proof.
  intros Hlen. repeat split.
  - intros Hno. rewrite (getFileExtension_unfold _ Hlen). unfold lastIndexOf.
    now rewrite lastIndexOf_from_absent by assumption.
  - intros ext -> Hext. rewrite (getFileExtension_unfold _ Hlen).
    unfold lastIndexOf. change ("." +:+ ext) with ("" +:+ String "." ext).
    now rewrite lastIndexOf_from_last by assumption.
  - subst filename. now apply getFileExtension_after_last_dot.
  - subst filename. rewrite getFileExtension_after_last_dot by assumption.
    change (pre +:+ "." +:+ ext) with (pre +:+ String "." ext).
    now rewrite substring_after_last_dot_app.
Qed.

Lemma getFileExtension_spec_witness :
  getFileExtension "song.final.mp3" = "mp3"
  /\ getFileExtension "song.final.mp3"
     = substring_after_last_dot "song.final.mp3".
Proof.
  assert (Hlen : Z.of_nat (String.length "song.final.mp3") <= 2 ^ 32)
    by (vm_compute; discriminate).
  destruct (getFileExtension_spec "song.final.mp3" Hlen) as (_ & _ & H).
  apply (H "song.final" "mp3"); [reflexivity | discriminate | reflexivity].
Defined.

(** ** The converted name *)

Lemma all_not_slash_dot_with_dot (pre ext : string) :
  all_not_slash_dot (pre +:+ String "." ext) = false.
Proof.
  induction pre as [|a pre IH]; simpl.
  - reflexivity.
  - rewrite IH. apply andb_false_r.
Qed.

Lemma replace_extension_eq (s : string) :
  replace_extension s
  = if ext_regex_matches_here s then ".flac"
    else match s with
         | EmptyString => EmptyString
         | String c s' => String c (replace_extension s')
         end.
Proof. destruct s; reflexivity. Qed.

Lemma replace_extension_no_dot (s : string) :
  contains "." s = false -> replace_extension s = s.
Proof.
  induction s as [|a s IH]; intros H.
  - reflexivity.
  - simpl in H. apply orb_false_iff in H as [Ha Hs].
    rewrite replace_extension_eq.
    assert (Hno : ext_regex_matches_here (String a s) = false).
    { unfold ext_regex_matches_here.
      destruct a as [[] [] [] [] [] [] [] []];
        try reflexivity; discriminate Ha. }
    rewrite Hno. now rewrite IH.
Qed.

Lemma replace_extension_last (pre ext : string) :
  ext <> "" -> all_not_slash_dot ext = true ->
  replace_extension (pre +:+ "." +:+ ext) = pre +:+ ".flac".
Proof.
  intros Hne Hext. induction pre as [|a pre IH].
  - rewrite replace_extension_eq.
    change ("" +:+ "." +:+ ext) with (String "." ext).
    unfold ext_regex_matches_here. rewrite Hext.
    destruct ext; [congruence | reflexivity].
  - change (String a pre +:+ "." +:+ ext)
      with (String a (pre +:+ String "." ext)).
    rewrite replace_extension_eq.
    assert (Hno : ext_regex_matches_here (String a (pre +:+ String "." ext))
                  = false).
    { unfold ext_regex_matches_here.
      destruct a as [[] [] [] [] [] [] [] []]; try reflexivity.
      rewrite all_not_slash_dot_with_dot. now destruct pre. }
    rewrite Hno.
    change (pre +:+ "." +:+ ext) with (pre +:+ String "." ext) in IH.
    now rewrite IH.
Qed.

(** ** The simulated conversion *)

Lemma increasing_nil : increasing [].
Proof. intros i j a b _ H. now rewrite lookup_nil in H. Qed.

Lemma increasing_snoc (l : list Q) (x : Q) :
  increasing l -> Forall (fun v => (v < x)%Q) l -> increasing (l ++ [x]).
Proof.
  intros Hl Hx i j a b Hij Ha Hb.
  assert (Hj : (j < length (l ++ [x]))%nat) by (eapply lookup_lt_Some; eauto).
  rewrite length_app in Hj; simpl in Hj.
  rewrite lookup_app_l in Ha by lia.
  destruct (decide (j < length l)%nat) as [Hlt|Hge].
  - rewrite lookup_app_l in Hb by lia. eauto.
  - rewrite lookup_app_r in Hb by lia.
    replace (j - length l)%nat with 0%nat in Hb by lia.
    simpl in Hb. injection Hb as <-.
    rewrite Forall_forall in Hx. apply Hx.
    apply list_elem_of_lookup. eauto.
Qed.

Section ConversionInvariant.
Variable file : File.

Lemma conv_inv_start : conv_inv file conversion_start 0.
Proof.
  split; simpl.
  - split; [apply Qle_refl | discriminate].
  - apply increasing_nil.
  - constructor.
  - reflexivity.
  - intros _. split; [reflexivity | discriminate].
  - left. reflexivity.
  - discriminate.
Qed.

Lemma conv_inv_idle (c : Conversion) (n m : Z) :
  conv_inv file c n -> interval_on c = false -> conv_inv file c m.
Proof.
  intros [] Hoff. split; try assumption.
  intros Hon. congruence.
Qed.

Lemma interval_callback_inv (c : Conversion) (n : Z) (r : Q) (now : string) :
  conv_inv file c n -> interval_on c = true -> random_draw r ->
  conv_inv file (interval_callback file r now c) (n + 1).
Proof.
  intros [Hrange Hinc Hrep Hint Hrun Hfirst Hres] Hon [Hr0 Hr1].
  destruct (Hrun Hon) as [Hlt Hn].
  assert (Hpend : promise c = Pending).
  { rewrite Hon in Hint. destruct (promise c); simpl in Hint; congruence. }
  unfold interval_callback.
  destruct (Qle_bool 100 (progress c + (r * 15 + 5))) eqn:Hdone.
  - apply Qle_bool_iff in Hdone.
    assert (Hne : reported c <> []).
    { destruct Hfirst as [Hz|]; [|assumption]. exfalso. lra. }
    split; simpl.
    + split; lra.
    + assumption.
    + eapply Forall_impl; [exact Hrep|]. simpl. intros v (? & ? & ?).
      repeat split; lra.
    + rewrite Hpend. reflexivity.
    + discriminate.
    + now right.
    + rewrite Hpend. simpl. intros d [= <-]. split; [assumption | eauto].
  - assert (Hnot : (progress c + (r * 15 + 5) < 100)%Q).
    { apply Qnot_le_lt. intros H. apply Qle_bool_iff in H. congruence. }
    destruct (Q.min_spec (progress c + (r * 15 + 5)) 100) as [[_ Hmin]|[? _]];
      [|lra].
    split; simpl.
    + split; lra.
    + apply increasing_snoc; [assumption|].
      eapply Forall_impl; [exact Hrep|]. simpl. intros v (? & ? & ?).
      rewrite Hmin. lra.
    + apply Forall_app. split.
      * eapply Forall_impl; [exact Hrep|]. simpl. intros v (? & ? & ?).
        repeat split; lra.
      * constructor; [|constructor]. rewrite Hmin. repeat split; lra.
    + assumption.
    + intros _. rewrite inject_Z_plus. change (inject_Z 1) with 1%Q.
      split; lra.
    + right. now destruct (reported c).
    + rewrite Hpend. discriminate.
Qed.

Lemma timeout_callback_inv (c : Conversion) (n : Z) (u : Q) :
  conv_inv file c n -> conv_inv file (timeout_callback u c) n.
Proof.
  intros [Hrange Hinc Hrep Hint Hrun Hfirst Hres].
  unfold timeout_callback. destruct (negb (Qle_bool (1 # 1000) u)).
  - split; simpl; try assumption.
    + now destruct (promise c).
    + discriminate.
    + intros d Hd. apply Hres. destruct (promise c); simpl in Hd; congruence.
  - split; simpl; assumption.
Qed.

Lemma deliver_inv (c : Conversion) (n : Z) (ev : TimerEvent) :
  conv_inv file c n -> draws_ok ev ->
  conv_inv file (deliver file c ev) (n + (if is_tick ev then 1 else 0)).
Proof.
  intros Hinv Hok. destruct ev as [r now|u]; simpl.
  - destruct (interval_on c) eqn:Hon.
    + now apply interval_callback_inv.
    + now apply conv_inv_idle with (n := n).
  - rewrite Z.add_0_r. destruct (timeout_armed c).
    + now apply timeout_callback_inv.
    + assumption.
Qed.

Lemma run_inv (events : list TimerEvent) (c : Conversion) (n : Z) :
  conv_inv file c n -> Forall draws_ok events ->
  conv_inv file (fold_left (deliver file) events c)
           (n + Z.of_nat (ticks events)).
Proof.
  revert c n. induction events as [|ev events IH]; intros c n Hinv Hok.
  - simpl. unfold ticks. simpl. now rewrite Z.add_0_r.
  - inversion Hok as [|? ? Hev Hrest]; subst. simpl fold_left.
    specialize (IH _ _ (deliver_inv _ _ _ Hinv Hev) Hrest).
    replace (n + Z.of_nat (ticks (ev :: events)))
      with (n + (if is_tick ev then 1 else 0) + Z.of_nat (ticks events)).
    + exact IH.
    + unfold ticks. simpl. destruct (is_tick ev); simpl length; lia.
Qed.

Lemma convertToFLAC_inv (events : list TimerEvent) :
  Forall draws_ok events ->
  conv_inv file (convertToFLAC file events) (Z.of_nat (ticks events)).
Proof.
  intros Hok. unfold convertToFLAC.
  apply (run_inv events _ 0 conv_inv_start Hok).
Qed.

(** A settled conversion ignores every later timer event. *)
Lemma settled_is_final (more : list TimerEvent) (c : Conversion) :
  interval_on c = false -> is_settled (promise c) = true ->
  promise (fold_left (deliver file) more c) = promise c
  /\ reported (fold_left (deliver file) more c) = reported c.
Proof.
  revert c. induction more as [|ev more IH]; intros c Hoff Hset.
  - now split.
  - simpl fold_left.
    assert (Hstep : interval_on (deliver file c ev) = false
                    /\ promise (deliver file c ev) = promise c
                    /\ reported (deliver file c ev) = reported c).
    { destruct ev as [r now|u]; simpl.
      - rewrite Hoff. auto.
      - destruct (timeout_armed c); [|auto].
        unfold timeout_callback.
        destruct (negb (Qle_bool (1 # 1000) u)); simpl;
          destruct (promise c); simpl in *; auto; discriminate. }
    destruct Hstep as (Hoff' & Hp & Hr).
    destruct (IH (deliver file c ev)) as [IHp IHr];
      [assumption | now rewrite Hp |].
    split; congruence.
Qed.


End ConversionInvariant.



Lemma ends_with_flac_has_dot (s : string) :
  ends_with ".flac" s = true -> contains "." s = true.
Proof.
  induction s as [|a s IH]; intros H.
  - discriminate.
  - change (ends_with ".flac" (String a s))
      with (String.eqb (String a s) ".flac" || ends_with ".flac" s) in H.
    apply orb_true_iff in H as [H|H].
    + apply String.eqb_eq in H. now rewrite H.
    + simpl. rewrite (IH H). apply orb_true_r.
Qed.

(** Without a final extension to replace, the name is returned as it is. *)
Lemma replace_extension_unchanged (s : string) :
  (forall pre ext, s = pre +:+ "." +:+ ext ->
     ext = "" \/ all_not_slash_dot ext = false) ->
  replace_extension s = s.
Proof.
  induction s as [|a s IH]; intros Hnone; [reflexivity|].
  rewrite replace_extension_eq.
  destruct (ext_regex_matches_here (String a s)) eqn:Hm.
  - exfalso. unfold ext_regex_matches_here in Hm.
    destruct a as [[] [] [] [] [] [] [] []]; try discriminate Hm.
    destruct (Hnone "" s eq_refl) as [->|Hs]; [discriminate|].
    destruct s; [discriminate | congruence].
  - f_equal. apply IH. intros pre ext ->.
    apply (Hnone (String a pre) ext). reflexivity.
Qed.

(** C10: the converted name of the descriptor a conversion resolves with
    is the input name with its final extension (the characters after its
    last dot, when there is one, none of them a slash) replaced by ".flac";
    for a name without such an extension, and so for a name without a dot,
    it is the name unchanged, and a name without a dot does not end in
    ".flac". *)
Theorem convertedName_replaces_final_extension
    (file : File) (events : list TimerEvent) (d : ConvertedFile) :
  Forall draws_ok events ->
  promise (convertToFLAC file events) = Resolved d ->
  (forall pre ext, name file = pre +:+ "." +:+ ext -> ext <> "" ->
     all_not_slash_dot ext = true -> convertedName d = pre +:+ ".flac")
  /\ ((forall pre ext, name file = pre +:+ "." +:+ ext ->
         ext = "" \/ all_not_slash_dot ext = false) ->
      convertedName d = name file)
  /\ (contains "." (name file) = false ->
      convertedName d = name file
      /\ ends_with ".flac" (convertedName d) = false).
Proof.
  intros Hok Hd.
  destruct (inv_resolved _ _ _ (convertToFLAC_inv file events Hok) d Hd)
    as [_ [now ->]].
  simpl. split; [|split].
  - intros pre ext -> Hne Hext. now apply replace_extension_last.
  - apply replace_extension_unchanged.
  - intros Hno. rewrite replace_extension_no_dot by assumption.
    split; [reflexivity|].
    destruct (ends_with ".flac" (name file)) eqn:E; [|reflexivity].
    apply ends_with_flac_has_dot in E. congruence.
Qed.

Lemma convertedName_replaces_final_extension_witness :
  let plain := mkFile "README" 2048 "audio/wav" in
  let song := mkFile "song.final.mp3" 2048 "audio/mpeg" in
  (convertedName (convertedFile plain "t") = "README"
   /\ ends_with ".flac" (convertedName (convertedFile plain "t")) = false)
  /\ convertedName (convertedFile song "t") = "song.final" +:+ ".flac".
Proof.
  intros plain song.
  assert (Hok : Forall draws_ok (repeat (IntervalTick (9 # 10) "t") 6))
    by (simpl; draws).
  split.
  - apply (convertedName_replaces_final_extension
             plain (repeat (IntervalTick (9 # 10) "t") 6)
             (convertedFile plain "t") Hok); reflexivity.
  - apply (convertedName_replaces_final_extension
             song (repeat (IntervalTick (9 # 10) "t") 6)
             (convertedFile song "t") Hok) with (ext := "mp3");
      [reflexivity | reflexivity | discriminate | reflexivity].
Defined.

(** ** Size formatting, estimate and validation *)

Lemma round_bounds (x : Q) :
  (2 * inject_Z (round x) - 1 <= 2 * x /\ 2 * x < 2 * inject_Z (round x) + 1)%Q.
Proof.
  unfold round.
  pose proof (Qfloor_le (x + (1 # 2))) as Hle.
  pose proof (Qlt_floor (x + (1 # 2))) as Hlt.
  rewrite inject_Z_plus in Hlt. change (inject_Z 1) with 1%Q in Hlt.
  split; lra.
Qed.

(** The unit index of a number that is at least 1 brackets it between two
    consecutive powers of 1024. *)
Lemma unit_index_bounds (x : Q) :
  (1 <= x)%Q ->
  0 <= unit_index x
  /\ (Qpower 1024 (unit_index x) <= x)%Q
  /\ (x < Qpower 1024 (unit_index x + 1))%Q.
Proof.
  intros Hx. unfold unit_index.
  assert (Hb : Qle_bool 1 x = true) by now apply Qle_bool_iff.
  rewrite Hb.
  set (n := Qfloor x).
  assert (Hn : 1 <= n).
  { subst n. change 1 with (Qfloor 1). now apply Qfloor_resp_le. }
  pose proof (Z.log2_nonneg n) as Hl0.
  destruct (Z.log2_spec n ltac:(lia)) as [Hlo Hhi].
  set (l := Z.log2 n) in *.
  pose proof (Z.div_mod l 10 ltac:(lia)) as Hdm.
  pose proof (Z.mod_pos_bound l 10 ltac:(lia)) as Hmod.
  set (i := l / 10) in *.
  assert (Hi : 0 <= i) by (subst i; apply Z.div_pos; lia).
  assert (Hpow : forall k, 0 <= k -> (Qpower 1024 k == inject_Z (2 ^ (10 * k)))%Q).
  { intros k Hk. rewrite Z.pow_mul_r by lia. change (2 ^ 10) with 1024.
    rewrite Zpower_Qpower by lia. reflexivity. }
  split; [assumption|]. split.
  - rewrite Hpow by lia.
    apply Qle_trans with (inject_Z n); [|apply Qfloor_le].
    rewrite <- Zle_Qle.
    apply Z.le_trans with (2 ^ l); [|assumption].
    apply Z.pow_le_mono_r; lia.
  - rewrite Hpow by lia.
    apply Qlt_le_trans with (inject_Z (n + 1)); [apply Qlt_floor|].
    rewrite <- Zle_Qle.
    apply Z.le_trans with (2 ^ Z.succ l); [lia|].
    apply Z.pow_le_mono_r; lia.
Qed.

(** [formatFileSize] of a number that is at least 1: the amount scaled to
    its unit and rounded to hundredths, then the unit. *)
Lemma formatFileSize_scaled (x : Q) :
  (1 <= x)%Q ->
  formatFileSize x
  = show_hundredths (scaled_hundredths x) +:+ " " +:+ sizes_at (unit_index x).
Proof.
  intros Hx. unfold formatFileSize.
  destruct (Qeq_bool x 0) eqn:E0.
  - apply Qeq_bool_iff in E0. exfalso. lra.
  - destruct (Qle_bool x 0) eqn:E1; [|reflexivity].
    apply Qle_bool_iff in E1. exfalso. lra.
Qed.

Lemma formatFileSize_maxSize : formatFileSize (inject_Z maxSize) = "1 GB".
Proof. vm_compute. reflexivity. Qed.

Lemma Qfloor_unique (x : Q) (z : Z) :
  (inject_Z z <= x)%Q -> (x < inject_Z (z + 1))%Q -> Qfloor x = z.
Proof.
  intros Hle Hlt.
  pose proof (Qfloor_le x) as Hfl. pose proof (Qlt_floor x) as Hfu.
  assert (H1 : (inject_Z z < inject_Z (Qfloor x + 1))%Q) by lra.
  assert (H2 : (inject_Z (Qfloor x) < inject_Z (z + 1))%Q) by lra.
  rewrite <- Zlt_Qlt in H1, H2. lia.
Qed.

Lemma round_inject_Z (x : Q) (z : Z) :
  (x == inject_Z z)%Q -> round x = z.
Proof.
  intros Hx. unfold round. apply Qfloor_unique.
  - lra.
  - rewrite inject_Z_plus. change (inject_Z 1) with 1%Q. lra.
Qed.

Lemma show_hundredths_whole (n : Z) : show_hundredths (100 * n) = show_Z n.
Proof.
  unfold show_hundredths.
  rewrite (Z.mul_comm 100 n), Z_mod_mult, Z.div_mul by lia.
  reflexivity.
Qed.

Lemma unit_index_named (x : Q) (k : Z) :
  (1 <= x)%Q -> 0 <= k ->
  (unit_index x < k <-> (x < inject_Z (2 ^ (10 * k)))%Q).
Proof.
  intros Hx Hk. unfold unit_index.
  assert (Hb : Qle_bool 1 x = true) by now apply Qle_bool_iff.
  rewrite Hb.
  assert (Hfloor : 1 <= Qfloor x).
  { change 1 with (Qfloor 1). now apply Qfloor_resp_le. }
  assert (Hiff : (x < inject_Z (2 ^ (10 * k)))%Q <-> Qfloor x < 2 ^ (10 * k)).
  { pose proof (Qfloor_le x) as Hfl. pose proof (Qlt_floor x) as Hfu. split.
    - intros H. rewrite Zlt_Qlt. lra.
    - intros H. assert (H' : Qfloor x + 1 <= 2 ^ (10 * k)) by lia.
      rewrite Zle_Qle in H'. lra. }
  rewrite Hiff, (Z.log2_lt_pow2 (Qfloor x) (10 * k)) by lia.
  pose proof (Z.log2_nonneg (Qfloor x)).
  split; intros H'; Z.div_mod_to_equations; lia.
Qed.

Lemma sizes_at_named (i : Z) : 0 <= i < 5 -> In (sizes_at i) sizes.
Proof.
  intros Hi.
  assert (Hcases : i = 0 \/ i = 1 \/ i = 2 \/ i = 3 \/ i = 4) by lia.
  destruct Hcases as [->|[->|[->|[->| ->]]]]; vm_compute; auto 6.
Qed.

Lemma sizes_at_undefined (i : Z) :
  i < 0 \/ 5 <= i -> sizes_at i = "undefined".
Proof.
  intros Hi. unfold sizes_at. destruct (Z.ltb_spec i 0); [reflexivity|].
  rewrite (proj2 (lookup_ge_None sizes (Z.to_nat i))); [reflexivity|].
  change (length sizes) with 5%nat. lia.
Qed.

Lemma unit_index_small (x : Q) :
  (0 < x)%Q -> (x < 1)%Q -> unit_index x < 0.
Proof.
  intros Hpos Hlt. unfold unit_index.
  destruct (Qle_bool 1 x) eqn:Hb.
  - apply Qle_bool_iff in Hb. lra.
  - pose proof (Qle_ceiling (/ x)) as Hceil.
    assert (Hinv : (1 < / x)%Q).
    { exact (proj1 (Qinv_lt_contravar x 1 Hpos ltac:(reflexivity)) Hlt). }
    assert (Hc : (inject_Z 1 < inject_Z (Qceiling (/ x)))%Q).
    { change (inject_Z 1) with 1%Q. lra. }
    rewrite <- Zlt_Qlt in Hc.
    pose proof (Z.log2_up_pos (Qceiling (/ x)) Hc).
    Z.div_mod_to_equations. lia.
Qed.

Lemma scaled_hundredths_bounds (x : Q) :
  (1 <= x)%Q -> 100 <= scaled_hundredths x <= 102400.
Proof.
  intros Hx. destruct (unit_index_bounds x Hx) as (Hi & Hlow & Hup).
  unfold scaled_hundredths.
  set (p := Qpower 1024 (unit_index x)) in *.
  assert (Hp : (0 < p)%Q) by (apply Qpower_0_lt; reflexivity).
  assert (Hnext : (Qpower 1024 (unit_index x + 1) == 1024 * p)%Q).
  { rewrite Qpower_plus by discriminate. subst p.
    change (Qpower 1024 1) with 1024%Q. ring. }
  rewrite Hnext in Hup.
  assert (Hy1 : (1 <= x / p)%Q) by (apply Qle_shift_div_l; lra).
  assert (Hy2 : (x / p < 1024)%Q) by (apply Qlt_shift_div_r; lra).
  set (y := (x / p)%Q) in *.
  pose proof (round_bounds (y * 100)) as [Hr1 Hr2].
  set (h := round (y * 100)) in *. clearbody y h.
  assert (H1 : (inject_Z 200 < inject_Z (2 * h + 1))%Q).
  { rewrite inject_Z_plus, inject_Z_mult.
    change (inject_Z 200) with 200%Q. change (inject_Z 2) with 2%Q.
    change (inject_Z 1) with 1%Q. lra. }
  assert (H2 : (inject_Z (2 * h) < inject_Z 204801)%Q).
  { rewrite inject_Z_mult.
    change (inject_Z 204801) with 204801%Q. change (inject_Z 2) with 2%Q.
    lra. }
  rewrite <- Zlt_Qlt in H1, H2. lia.
Qed.


(** C5, as stated, fails: the descriptor of a 3-byte file records the
    text "1.65 Bytes", which is not the integer [ceil(3 * 0.55) = 2]. *)
Lemma estimatedSize_not_ceiling_counterexample :
  let file := mkFile "a.wav" 3 "audio/wav" in
  let events := repeat (IntervalTick (9 # 10) "t") 6 in
  promise (convertToFLAC file events) = Resolved (convertedFile file "t")
  /\ estimatedSize (convertedFile file "t") = "1.65 Bytes"
  /\ ceil_estimate (size file) = 2
  /\ estimatedSize (convertedFile file "t") <> show_Z (ceil_estimate (size file)).
Proof. repeat split; vm_compute; congruence. Qed.

(** C5, amended: for a file of fewer than [1024^4] bytes, the estimated
    output size recorded in the descriptor is the human-readable rendering
    of [inputSize * 0.55], the shrink factor being the constant 0.55:
    "0 Bytes" for an empty file, "563.2 undefined" for a file of one byte
    (whose estimate lies below one byte, outside the units), and for a file
    of at least two bytes the amount [inputSize * 0.55 / 1024^i] rounded to
    the nearest hundredth, between 1 and 1024, followed by the [i]-th unit
    name of Bytes, KB, MB, GB, where
    [1024^i <= inputSize * 0.55 < 1024^(i+1)]; no ceiling is taken. *)
Theorem estimatedSize_is_formatted_estimate
    (file : File) (events : list TimerEvent) (d : ConvertedFile) :
  Forall draws_ok events ->
  promise (convertToFLAC file events) = Resolved d ->
  0 <= size file < 1024 ^ 4 ->
  let x := (inject_Z (size file) * (55 # 100))%Q in
  estimatedSize d = formatFileSize x
  /\ (size file = 0 -> estimatedSize d = "0 Bytes")
  /\ (size file = 1 -> estimatedSize d = "563.2 undefined")
  /\ (2 <= size file ->
      exists (i h : Z) (unit : string),
        estimatedSize d = show_hundredths h +:+ " " +:+ unit
        /\ 0 <= i <= 3
        /\ ["Bytes"; "KB"; "MB"; "GB"] !! Z.to_nat i = Some unit
        /\ (Qpower 1024 i <= x /\ x < Qpower 1024 (i + 1))%Q
        /\ (inject_Z h - (1 # 2) <= x / Qpower 1024 i * 100
            /\ x / Qpower 1024 i * 100 < inject_Z h + (1 # 2))%Q
        /\ 100 <= h <= 102400).
Proof.
  intros Hok Hd Hsize x.
  destruct (inv_resolved _ _ _ (convertToFLAC_inv file events Hok) d Hd)
    as [_ [now ->]].
  simpl estimatedSize. unfold estimateOutputSize, shrink_factor. fold x.
  split; [reflexivity|]. split; [|split].
  - intros H0. subst x. rewrite H0. reflexivity.
  - intros H1. subst x. rewrite H1. vm_compute. reflexivity.
  - intros H2.
    assert (Hx : (1 <= x)%Q).
    { subst x. assert (H : (inject_Z 2 <= inject_Z (size file))%Q)
        by (rewrite <- Zle_Qle; lia).
      change (inject_Z 2) with 2%Q in H. lra. }
    assert (Hx4 : (x < inject_Z (2 ^ (10 * 4)))%Q).
    { subst x.
      assert (H : (inject_Z (size file) < inject_Z (1024 ^ 4))%Q)
        by (rewrite <- Zlt_Qlt; lia).
      change (2 ^ (10 * 4)) with (1024 ^ 4). lra. }
    destruct (unit_index_bounds x Hx) as (Hi & Hlo & Hhi).
    pose proof (proj2 (unit_index_named x 4 Hx ltac:(lia)) Hx4) as Hi4.
    pose proof (scaled_hundredths_bounds x Hx) as Hh.
    assert (Hunit : ["Bytes"; "KB"; "MB"; "GB"] !! Z.to_nat (unit_index x)
                    = Some (sizes_at (unit_index x))).
    { assert (Hcases : unit_index x = 0 \/ unit_index x = 1
                       \/ unit_index x = 2 \/ unit_index x = 3) by lia.
      destruct Hcases as [->|[->|[->| ->]]]; reflexivity. }
    exists (unit_index x), (scaled_hundredths x), (sizes_at (unit_index x)).
    split; [now apply formatFileSize_scaled|].
    split; [lia|]. split; [exact Hunit|]. split; [now split|].
    split; [|exact Hh].
    unfold scaled_hundredths.
    pose proof (round_bounds (x / Qpower 1024 (unit_index x) * 100)) as [? ?].
    split; lra.
Qed.

Lemma estimatedSize_is_formatted_estimate_witness :
  let file := mkFile "mix.wav" 10485760 "audio/wav" in
  let d := convertedFile file "t" in
  let x := (inject_Z (size file) * (55 # 100))%Q in
  estimatedSize d = formatFileSize x
  /\ exists (i h : Z) (unit : string),
       estimatedSize d = show_hundredths h +:+ " " +:+ unit
       /\ 0 <= i <= 3
       /\ ["Bytes"; "KB"; "MB"; "GB"] !! Z.to_nat i = Some unit
       /\ (Qpower 1024 i <= x /\ x < Qpower 1024 (i + 1))%Q
       /\ (inject_Z h - (1 # 2) <= x / Qpower 1024 i * 100
           /\ x / Qpower 1024 i * 100 < inject_Z h + (1 # 2))%Q
       /\ 100 <= h <= 102400.
Proof.
  intros file d x.
  destruct (estimatedSize_is_formatted_estimate
              file (repeat (IntervalTick (9 # 10) "t") 6) d)
    as (Hformat & _ & _ & Hscaled);
    [simpl; draws | reflexivity | simpl; lia |].
  split; [exact Hformat|]. apply Hscaled. simpl. lia.
Defined.

(** ** Admission *)

Lemma check_file_step (selected valids : list File)
    (invalids : list Rejection) (file : File) :
  check_file selected (valids, invalids) file
  = (valids ++ (if accepted selected file then [file] else []),
     invalids ++ option_list (rejection selected file)).
Proof.
  unfold check_file, accepted, rejection, verdict.
  unfold validateFileSize, isDuplicate. simpl valid. simpl message.
  rewrite <- Z.ltb_antisym.
  destruct (isValidAudioFile file); simpl negb; cbv iota.
  - destruct (maxSize <? size file); cbv iota.
    + simpl. now rewrite app_nil_r.
    + destruct (existsb _ selected); simpl; now rewrite app_nil_r.
  - simpl. now rewrite app_nil_r.
Qed.

Lemma fold_check_file (selected files : list File)
    (valids : list File) (invalids : list Rejection) :
  fold_left (check_file selected) files (valids, invalids)
  = (valids ++ List.filter (accepted selected) files,
     invalids ++ omap (rejection selected) files).
Proof.
  revert valids invalids.
  induction files as [|file files IH]; intros valids invalids.
  - simpl. now rewrite !app_nil_r.
  - cbn [fold_left]. rewrite check_file_step, IH.
    cbn [List.filter omap list_omap].
    destruct (accepted selected file), (rejection selected file);
      simpl; now rewrite <- !app_assoc.
Qed.

Lemma handleFiles_unfold (st : AppState) (files : list File) :
  isConverting st = false ->
  validFiles (handleFiles st files)
  = List.filter (accepted (selectedFiles st)) files
  /\ invalidFiles (handleFiles st files)
     = omap (rejection (selectedFiles st)) files
  /\ selectedFiles (state_after (handleFiles st files))
     = selectedFiles st ++ validFiles (handleFiles st files).
Proof.
  intros Hidle. unfold handleFiles. rewrite Hidle, fold_check_file.
  simpl app.
  destruct (List.filter (accepted (selectedFiles st)) files) eqn:E; simpl.
  - now rewrite app_nil_r.
  - auto.
Qed.

Lemma isDuplicate_iff (selected : list File) (file : File) :
  isDuplicate selected file = true
  <-> exists f, In f selected /\ name f = name file /\ size f = size file.
Proof.
  unfold isDuplicate. rewrite existsb_exists. split.
  - intros (f & Hin & Hf). apply andb_true_iff in Hf as [Hn Hs].
    apply String.eqb_eq in Hn. apply Z.eqb_eq in Hs. eauto.
  - intros (f & Hin & Hn & Hs). exists f. split; [assumption|].
    apply andb_true_iff. split; [now apply String.eqb_eq | now apply Z.eqb_eq].
Qed.

Lemma verdict_duplicate_present (selected : list File) (c : File) :
  verdict selected c = Some duplicate_reason ->
  isValidAudioFile c = true /\ size c <= maxSize
  /\ isDuplicate selected c = true.
Proof.
  unfold verdict. fold (isDuplicate selected c).
  destruct (isValidAudioFile c); simpl negb; cbv iota.
  - destruct (Z.ltb_spec maxSize (size c)) as [Hbig|Hok].
    + rewrite formatFileSize_maxSize. intros H. vm_compute in H. discriminate.
    + destruct (isDuplicate selected c); [auto | discriminate].
  - intros H. vm_compute in H. discriminate.
Qed.

(** C6: a file whose size is exactly the ceiling of 1 GiB passes the size
    validation and one of a byte more fails it, with a message made of the
    too-large text and the formatted ceiling, "1 GB"; [handleFiles] admits
    the former (when its type is supported and it is no duplicate) and
    rejects the latter with that message as the reason. *)
Theorem validateFileSize_ceiling (file : File) :
  maxSize = 2 ^ 30
  /\ (size file = maxSize ->
      valid (validateFileSize file) = true
      /\ message (validateFileSize file) = "")
  /\ (size file = maxSize + 1 ->
      valid (validateFileSize file) = false
      /\ message (validateFileSize file)
         = too_large_prefix +:+ formatFileSize (inject_Z maxSize)
      /\ formatFileSize (inject_Z maxSize) = "1 GB")
  /\ (forall st, isConverting st = false -> isValidAudioFile file = true ->
      (size file = maxSize -> isDuplicate (selectedFiles st) file = false ->
       validFiles (handleFiles st [file]) = [file]
       /\ invalidFiles (handleFiles st [file]) = [])
      /\ (size file = maxSize + 1 ->
          validFiles (handleFiles st [file]) = []
          /\ invalidFiles (handleFiles st [file])
             = [mkRejection (name file) "File terlalu besar. Maksimum 1 GB"])).
Proof.
  split; [reflexivity|]. split; [|split].
  - intros Hs. unfold validateFileSize. simpl. rewrite Hs.
    rewrite Z.leb_refl, Z.ltb_irrefl. auto.
  - intros Hs. unfold validateFileSize. simpl. rewrite Hs.
    split; [reflexivity|]. split; [reflexivity | apply formatFileSize_maxSize].
  - intros st Hidle Htype.
    destruct (handleFiles_unfold st [file] Hidle) as (Hvalid & Hinvalid & _).
    rewrite Hvalid, Hinvalid. cbn [List.filter omap list_omap].
    unfold accepted, rejection. split.
    + intros Hs Hdup.
      assert (Hv : verdict (selectedFiles st) file = None).
      { unfold verdict. fold (isDuplicate (selectedFiles st) file).
        now rewrite Htype, Hs, Hdup, Z.ltb_irrefl. }
      rewrite Hv. split; reflexivity.
    + intros Hs.
      assert (Hv : verdict (selectedFiles st) file
                   = Some "File terlalu besar. Maksimum 1 GB").
      { unfold verdict. rewrite Htype, Hs, formatFileSize_maxSize.
        reflexivity. }
      rewrite Hv. split; reflexivity.
Qed.

Lemma validateFileSize_ceiling_witness :
  let st := mkAppState [] false ∅ in
  let at_ceiling := mkFile "long.wav" (1024 * 1024 * 1024) "audio/wav" in
  let above := mkFile "huge.wav" (1024 * 1024 * 1024 + 1) "audio/wav" in
  (valid (validateFileSize at_ceiling) = true
   /\ message (validateFileSize at_ceiling) = "")
  /\ (valid (validateFileSize above) = false
      /\ message (validateFileSize above)
         = too_large_prefix +:+ formatFileSize (inject_Z maxSize)
      /\ formatFileSize (inject_Z maxSize) = "1 GB")
  /\ (validFiles (handleFiles st [at_ceiling]) = [at_ceiling]
      /\ invalidFiles (handleFiles st [at_ceiling]) = [])
  /\ (validFiles (handleFiles st [above]) = []
      /\ invalidFiles (handleFiles st [above])
         = [mkRejection "huge.wav" "File terlalu besar. Maksimum 1 GB"]).
Proof.
  intros st at_ceiling above.
  destruct (validateFileSize_ceiling at_ceiling) as (_ & Hfits & _ & Hadmit).
  destruct (validateFileSize_ceiling above) as (_ & _ & Hbig & Hreject).
  split; [apply Hfits; reflexivity|].
  split; [apply Hbig; reflexivity|].
  split.
  - apply (Hadmit st); reflexivity.
  - apply (Hreject st); reflexivity.
Defined.

(** C7: with no conversion running, [handleFiles] accepts exactly the
    candidates that no rule rejects and rejects the others in order, each
    judged against the files selected before the call only.  A candidate
    that passes the type and size rules is rejected as a duplicate exactly
    when a selected file has its name and its byte length (and a candidate
    rejected as a duplicate always has such a file); two occurrences of a
    candidate that is acceptable on its own are both accepted. *)
Theorem handleFiles_duplicate_rule (st : AppState) (candidates : list File) :
  isConverting st = false ->
  let adm := handleFiles st candidates in
  validFiles adm = List.filter (accepted (selectedFiles st)) candidates
  /\ invalidFiles adm = omap (rejection (selectedFiles st)) candidates
  /\ selectedFiles (state_after adm) = selectedFiles st ++ validFiles adm
  /\ (forall c, isValidAudioFile c = true -> size c <= maxSize ->
        (rejection (selectedFiles st) c
           = Some (mkRejection (name c) duplicate_reason)
         <-> exists f, In f (selectedFiles st)
                       /\ name f = name c /\ size f = size c))
  /\ (forall c, rejection (selectedFiles st) c
                = Some (mkRejection (name c) duplicate_reason) ->
        exists f, In f (selectedFiles st) /\ name f = name c /\ size f = size c)
  /\ (forall c before between after,
        candidates = before ++ c :: between ++ c :: after ->
        accepted (selectedFiles st) c = true ->
        exists before' between' after',
          validFiles adm = before' ++ c :: between' ++ c :: after').
Proof.
  intros Hidle adm.
  destruct (handleFiles_unfold st candidates Hidle) as (Hvalid & Hinvalid & Hsel).
  fold adm in Hvalid, Hinvalid, Hsel.
  assert (Hrej : forall c,
             rejection (selectedFiles st) c
             = Some (mkRejection (name c) duplicate_reason) ->
             verdict (selectedFiles st) c = Some duplicate_reason).
  { intros c. unfold rejection.
    destruct (verdict (selectedFiles st) c); simpl; congruence. }
  split; [assumption|]. split; [assumption|]. split; [assumption|].
  split; [|split].
  - intros c Htype Hsize. rewrite <- isDuplicate_iff. split.
    + intros H. now apply verdict_duplicate_present, Hrej.
    + intros Hdup. unfold rejection, verdict.
      fold (isDuplicate (selectedFiles st) c). rewrite Htype, Hdup.
      destruct (Z.ltb_spec maxSize (size c)); [lia | reflexivity].
  - intros c H. apply isDuplicate_iff.
    now apply verdict_duplicate_present, Hrej.
  - intros c before between after -> Hacc. rewrite Hvalid.
    rewrite List.filter_app. cbn [List.filter]. rewrite Hacc.
    rewrite List.filter_app. cbn [List.filter]. rewrite Hacc.
    eauto.
Qed.

Lemma handleFiles_duplicate_rule_witness :
  let listed := mkFile "a.wav" 10485760 "audio/wav" in
  let fresh := mkFile "b.wav" 2048 "audio/wav" in
  let st := mkAppState [listed] false ∅ in
  let adm := handleFiles st [listed; fresh; fresh] in
  validFiles adm = [fresh; fresh]
  /\ invalidFiles adm = [mkRejection "a.wav" duplicate_reason]
  /\ selectedFiles (state_after adm) = [listed; fresh; fresh]
  /\ (exists f, In f (selectedFiles st)
                /\ name f = name listed /\ size f = size listed)
  /\ (exists before' between' after',
        validFiles adm = before' ++ fresh :: between' ++ fresh :: after').
Proof.
  intros listed fresh st adm.
  destruct (handleFiles_duplicate_rule st [listed; fresh; fresh])
    as (Hvalid & Hinvalid & Hsel & _ & Hdup & Hboth); [reflexivity|].
  fold adm in Hvalid, Hinvalid, Hsel, Hboth.
  split; [exact Hvalid|]. split; [exact Hinvalid|].
  split; [rewrite Hsel, Hvalid; reflexivity|].
  split; [apply Hdup; reflexivity|].
  apply (Hboth fresh [listed] [] []); reflexivity.
Defined.

(** ** [Promise.all] *)

Section PromiseAllFacts.
Context {V : Type}.
Implicit Types (outs : list (Promise V)) (slots : list (option V)).

Lemma filled_replicate (n : nat) :
  omap id (replicate n (@None V)) = [].
Proof. induction n; simpl; [reflexivity | assumption]. Qed.

Lemma filled_insert slots (j : nat) (v : V) :
  slots !! j = Some None ->
  length (omap id (<[j := Some v]> slots)) = S (length (omap id slots)).
Proof.
  revert j. induction slots as [|s slots IH]; intros [|j] H;
    try discriminate.
  - simpl in H. injection H as ->. reflexivity.
  - simpl in H. cbn [omap list_omap insert list_insert].
    fold (omap id (<[j:=Some v]> slots)). fold (omap id slots).
    destruct s as [w|]; cbn [id length]; [f_equal|]; exact (IH j H).
Qed.

Lemma filled_all slots :
  length (omap id slots) = length slots -> slots = Some <$> omap id slots.
Proof.
  induction slots as [|s slots IH]; intros H; [reflexivity|].
  cbn [omap list_omap] in *. fold (omap id slots) in *.
  assert (Hle : (length (omap id slots) <= length slots)%nat).
  { clear. induction slots as [|s slots IH]; simpl; [lia|].
    fold (omap id slots). destruct s; simpl; lia. }
  destruct s as [w|]; simpl in *.
  - f_equal. apply IH. lia.
  - lia.
Qed.

Lemma all_inv_start outs : all_inv outs [] (all_start (length outs)).
Proof.
  split; simpl.
  - apply length_replicate.
  - intros j v H. apply lookup_replicate in H as [? _]. discriminate.
  - rewrite filled_replicate. simpl. lia.
  - intros vs. rewrite filled_replicate.
    destruct (decide (length outs = 0%nat)); intros [= <-]. auto.
  - destruct (decide (length outs = 0%nat)); [discriminate | lia].
  - destruct (decide (length outs = 0%nat)); discriminate.
  - intros j v [].
Qed.

Lemma all_on_settle_inv outs (done : list nat) (st : AllState) (j : nat) :
  all_inv outs done st ->
  all_inv outs (done ++ [j]) (all_on_settle outs st j).
Proof.
  intros [Hlen Hfilled Hcount Hres Hpend Hrej Hseen].
  unfold all_on_settle.
  destruct (outs !! j) as [[|v|e]|] eqn:Hj.
  - (* the promise never settles *)
    split; try assumption.
    + intros k w Hk. destruct (Hfilled k w Hk). split; [assumption|].
      apply in_or_app. now left.
    + intros e He. destruct (Hrej e He) as (k & ? & ?). exists k.
      split; [apply in_or_app; now left | assumption].
    + intros k w Hin Hk. apply in_app_or in Hin as [Hin|[<-|[]]];
        [now apply Hseen | congruence].
  - (* fulfilled *)
    destruct (values st !! j) as [[w|]|] eqn:Hslot.
    + (* already called *)
      split; try assumption.
      * intros k u Hk. destruct (Hfilled k u Hk). split; [assumption|].
        apply in_or_app. now left.
      * intros e He. destruct (Hrej e He) as (k & ? & ?). exists k.
        split; [apply in_or_app; now left | assumption].
      * intros k u Hin Hk. apply in_app_or in Hin as [Hin|[<-|[]]];
          [now apply Hseen|].
        destruct (Hfilled _ _ Hslot) as [Hw _]. congruence.
    + (* the slot is filled *)
      assert (Hjlt : (j < length (values st))%nat)
        by (eapply lookup_lt_Some; eauto).
      pose proof (filled_insert _ _ v Hslot) as Hgrow.
      split; simpl.
      * now rewrite length_insert.
      * intros k u Hk. destruct (decide (j = k)) as [<-|Hne].
        -- rewrite list_lookup_insert_eq in Hk by assumption.
           injection Hk as <-. split; [assumption|].
           apply in_or_app. right. now left.
        -- rewrite list_lookup_insert_ne in Hk by assumption.
           destruct (Hfilled k u Hk). split; [assumption|].
           apply in_or_app. now left.
      * rewrite Hgrow.
        assert (0 < remaining st)%nat.
        { pose proof (filled_insert _ _ v Hslot).
          assert (length (omap id (<[j:=Some v]> (values st)))
                  <= length (<[j:=Some v]> (values st)))%nat.
          { generalize (<[j:=Some v]> (values st)). clear.
            intros l. induction l as [|s l IH]; simpl; [lia|].
            fold (omap id l). destruct s; simpl; lia. }
          rewrite length_insert in *. lia. }
        lia.
      * intros vs. destruct (decide (pred (remaining st) = 0%nat)) as [Hz|Hnz].
        -- destruct (all_promise st) as [|us|e] eqn:Hp; simpl.
           ++ intros [= <-]. auto.
           ++ destruct (Hres us eq_refl) as [_ Hzero].
              exfalso. rewrite Hzero in Hcount.
              pose proof (filled_all (values st) ltac:(lia)) as Hall.
              rewrite Hall in Hslot. rewrite list_lookup_fmap in Hslot.
              destruct (omap id (values st) !! j); discriminate.
           ++ discriminate.
        -- intros Hp. destruct (Hres vs Hp) as [_ Hzero]. lia.
      * destruct (decide (pred (remaining st) = 0%nat)) as [Hz|Hnz].
        -- destruct (all_promise st); simpl; discriminate.
        -- intros _. lia.
      * intros e He.
        assert (Hold : all_promise st = Rejected e).
        { destruct (decide (pred (remaining st) = 0%nat)); [|assumption].
          destruct (all_promise st); simpl in He; congruence. }
        destruct (Hrej e Hold) as (k & ? & ?). exists k.
        split; [apply in_or_app; now left | assumption].
      * intros k u Hin Hk. destruct (decide (j = k)) as [<-|Hne].
        -- rewrite list_lookup_insert_eq by assumption. congruence.
        -- rewrite list_lookup_insert_ne by assumption.
           apply in_app_or in Hin as [Hin|[<-|[]]];
             [now apply Hseen | congruence].
    + (* no such slot *)
      apply lookup_lt_Some in Hj. apply lookup_ge_None in Hslot. lia.
  - (* rejected *)
    split; simpl; try assumption.
    + intros k w Hk. destruct (Hfilled k w Hk). split; [assumption|].
      apply in_or_app. now left.
    + intros vs Hp. apply Hres.
      destruct (all_promise st); simpl in Hp; congruence.
    + intros Hp. destruct (all_promise st); simpl in Hp; try discriminate.
    + intros e' He.
      destruct (all_promise st) as [|us|e''] eqn:Hp; simpl in He.
      * injection He as <-. exists j.
        split; [apply in_or_app; right; now left | assumption].
      * discriminate.
      * destruct (Hrej e'' eq_refl) as (k & ? & ?). injection He as <-.
        exists k. split; [apply in_or_app; now left | assumption].
    + intros k w Hin Hk. apply in_app_or in Hin as [Hin|[<-|[]]];
        [now apply Hseen | congruence].
  - (* not a promise of the list *)
    split; try assumption.
    + intros k w Hk. destruct (Hfilled k w Hk). split; [assumption|].
      apply in_or_app. now left.
    + intros e He. destruct (Hrej e He) as (k & ? & ?). exists k.
      split; [apply in_or_app; now left | assumption].
    + intros k w Hin Hk. apply in_app_or in Hin as [Hin|[<-|[]]];
        [now apply Hseen | congruence].
Qed.

End PromiseAllFacts.

Section PromiseAllRuns.
Context {V : Type}.
Implicit Types (outs : list (Promise V)) (order : list nat).

Lemma fold_all_inv outs order (done : list nat) (st : AllState) :
  all_inv outs done st ->
  all_inv outs (done ++ order) (fold_left (all_on_settle outs) order st).
Proof.
  revert done st. induction order as [|j order IH]; intros done st Hinv.
  - simpl. now rewrite app_nil_r.
  - cbn [fold_left].
    replace (done ++ j :: order) with ((done ++ [j]) ++ order)
      by now rewrite <- app_assoc.
    apply IH. now apply all_on_settle_inv.
Qed.

Lemma promise_all_run_inv outs order :
  all_inv outs order (promise_all_run outs order).
Proof. apply (fold_all_inv outs order [] _ (all_inv_start outs)). Qed.

(** A fulfilled [Promise.all] carries the values of its promises by
    index, and every one of them has settled. *)
Lemma promise_all_resolved_inv outs order (vs : list V) :
  promise_all outs order = Resolved vs ->
  outs = Resolved <$> vs
  /\ forall j, (j < length outs)%nat -> In j order.
Proof.
  intros Hp. unfold promise_all in Hp.
  destruct (promise_all_run_inv outs order)
    as [Hlen Hfilled Hcount Hres _ _ _].
  destruct (Hres vs Hp) as [-> Hzero]. rewrite Hzero in Hcount.
  pose proof (filled_all (values (promise_all_run outs order))
                ltac:(lia)) as Hall.
  set (slots := values (promise_all_run outs order)) in *.
  assert (Hslot : forall j, (j < length outs)%nat ->
            exists v, slots !! j = Some (Some v)
                      /\ omap id slots !! j = Some v).
  { intros j Hj.
    destruct (lookup_lt_is_Some_2 (omap id slots) j ltac:(lia)) as [v Hv].
    exists v. split; [|assumption].
    rewrite Hall, list_lookup_fmap, Hv. reflexivity. }
  split.
  - apply list_eq. intros j. rewrite list_lookup_fmap.
    destruct (decide (j < length outs)%nat) as [Hj|Hj].
    + destruct (Hslot j Hj) as (v & Hs & ->).
      now destruct (Hfilled j v Hs).
    + rewrite !(proj2 (lookup_ge_None _ _)) by lia. reflexivity.
  - intros j Hj. destruct (Hslot j Hj) as (v & Hs & _).
    now destruct (Hfilled j v Hs).
Qed.

(** [Promise.all] is fulfilled, with the values in the order of the
    promises, once each of them has been fulfilled, in whatever order. *)
Lemma promise_all_resolves (vs : list V) order :
  (forall j, (j < length vs)%nat -> In j order) ->
  promise_all (Resolved <$> vs) order = Resolved vs.
Proof.
  intros Hcover. unfold promise_all.
  destruct (promise_all_run_inv (Resolved <$> vs) order)
    as [Hlen Hfilled Hcount Hres Hpend Hrej Hseen].
  set (st := promise_all_run (Resolved <$> vs) order) in *.
  rewrite length_fmap in *.
  assert (Hslots : values st = Some <$> vs).
  { apply list_eq. intros j. rewrite list_lookup_fmap.
    destruct (vs !! j) as [v|] eqn:Hv; simpl.
    - apply Hseen; [apply Hcover; eapply lookup_lt_Some; eauto|].
      now rewrite list_lookup_fmap, Hv.
    - apply lookup_ge_None. apply lookup_ge_None in Hv. lia. }
  assert (Hvs : omap id (values st) = vs).
  { rewrite Hslots. clear. induction vs as [|v vs IH]; [reflexivity|].
    cbn. now f_equal. }
  rewrite Hvs in Hcount.
  destruct (all_promise st) as [|us|e] eqn:Hp.
  - specialize (Hpend eq_refl). lia.
  - destruct (Hres us eq_refl) as [-> _]. now rewrite Hvs.
  - destruct (Hrej e eq_refl) as (j & _ & Hj).
    rewrite list_lookup_fmap in Hj. destruct (vs !! j); discriminate.
Qed.

Lemma promise_all_rejected_inv outs order (e : string) :
  promise_all outs order = Rejected e ->
  exists j, In j order /\ outs !! j = Some (Rejected e).
Proof.
  intros Hp. now apply (all_rejected _ _ _ (promise_all_run_inv outs order)).
Qed.

Lemma all_on_settle_settled outs (st : AllState) (j : nat) :
  is_settled (all_promise st) = true ->
  is_settled (all_promise (all_on_settle outs st j)) = true.
Proof.
  intros Hs. unfold all_on_settle.
  destruct (outs !! j) as [[|v|e]|]; try assumption.
  - destruct (values st !! j) as [[w|]|]; try assumption. simpl.
    destruct (decide _); [|assumption].
    destruct (all_promise st); simpl in *; congruence.
  - simpl. destruct (all_promise st); simpl in *; congruence.
Qed.

Lemma fold_all_settled outs order (st : AllState) :
  is_settled (all_promise st) = true ->
  is_settled (all_promise (fold_left (all_on_settle outs) order st)) = true.
Proof.
  revert st. induction order as [|j order IH]; intros st Hs; [assumption|].
  cbn [fold_left]. apply IH. now apply all_on_settle_settled.
Qed.

(** One rejection among the promises that settle rejects the whole. *)
Lemma promise_all_rejects outs order (j : nat) (e : string) :
  In j order -> outs !! j = Some (Rejected e) ->
  exists e', promise_all outs order = Rejected e'.
Proof.
  intros Hin Hj.
  destruct (promise_all outs order) as [|vs|e'] eqn:Hp.
  - exfalso. apply in_split in Hin as (l1 & l2 & ->).
    unfold promise_all, promise_all_run in Hp.
    rewrite fold_left_app in Hp. cbn [fold_left] in Hp.
    pose proof (fold_all_settled outs l2
      (all_on_settle outs
         (fold_left (all_on_settle outs) l1 (all_start (length outs))) j))
      as Hkeep.
    rewrite Hp in Hkeep. simpl in Hkeep.
    assert (Hnow : false = true); [|discriminate].
    apply Hkeep. unfold all_on_settle at 1. rewrite Hj.
    cbn [all_promise].
    generalize (all_promise
      (fold_left (all_on_settle outs) l1 (all_start (length outs)))).
    intros []; reflexivity.
  - exfalso. apply promise_all_resolved_inv in Hp as [-> _].
    rewrite list_lookup_fmap in Hj. destruct (vs !! j); discriminate.
  - eauto.
Qed.

End PromiseAllRuns.

(** ** Windows *)

Lemma ceil_div_lt_iff (n k w : Z) :
  0 < k -> (w * k < n <-> w < ceil_div n k).
Proof.
  intros Hk. unfold ceil_div. split; intros H.
  - assert (w + 1 <= (n + k - 1) / k); [|lia].
    apply Z.div_le_lower_bound; lia.
  - assert (Hle : w + 1 <= (n + k - 1) / k) by lia.
    pose proof (Z.mul_div_le (n + k - 1) k Hk) as Hdiv.
    nia.
Qed.

Lemma ceil_div_nonneg (n k : Z) : 0 <= n -> 0 < k -> 0 <= ceil_div n k.
Proof. intros Hn Hk. unfold ceil_div. apply Z.div_pos; lia. Qed.

Section Windows.
Context {A : Type}.
Implicit Types (l : list A).

Lemma take_window l (k a : nat) :
  take (Nat.min k (length l - a)) (drop a l) = take k (drop a l).
Proof.
  destruct (Nat.le_ge_cases k (length l - a)) as [Hle|Hge].
  - now rewrite Nat.min_l.
  - rewrite Nat.min_r by assumption.
    rewrite !take_ge; [reflexivity|..]; rewrite length_drop; lia.
Qed.

(** [l.slice(a, a + k)] is the window of [k] elements from [a]. *)
Lemma array_slice_take_drop l (a k : Z) :
  0 <= a -> 0 < k ->
  array_slice l a (a + k) = take (Z.to_nat k) (drop (Z.to_nat a) l).
Proof.
  intros Ha Hk. unfold array_slice, clamp_index.
  destruct (Z.ltb_spec a 0); [lia|].
  destruct (Z.ltb_spec (a + k) 0); [lia|].
  destruct (Z_lt_le_dec a (Z.of_nat (length l))) as [Hin|Hout].
  - rewrite (Z.min_l a) by lia. rewrite <- (take_window l (Z.to_nat k)).
    f_equal. lia.
  - rewrite !Z.min_r by lia. rewrite Z.sub_diag. simpl take.
    rewrite !drop_ge by lia. now rewrite !take_nil.
Qed.


Lemma length_window l (k w : nat) :
  length (window k l w) = Nat.min k (length l - w * k).
Proof. unfold window. now rewrite length_take, length_drop. Qed.

Lemma concat_windows_take l (k m : nat) :
  concat (window k l <$> seq 0 m) = take (m * k) l.
Proof.
  induction m as [|m IH].
  - reflexivity.
  - rewrite seq_S, fmap_app, concat_app, IH. simpl.
    rewrite app_nil_r. unfold window.
    rewrite take_take_drop. f_equal. lia.
Qed.

(** The windows are consecutive, cover the list in order, and there are
    [ceil(N/K)] of them. *)
Lemma windows_partition l (k : Z) :
  0 < k ->
  concat (windows k l) = l
  /\ Z.of_nat (length (windows k l)) = ceil_div (Z.of_nat (length l)) k
  /\ forall w chunk, windows k l !! w = Some chunk ->
       chunk = take (Z.to_nat k) (drop (w * Z.to_nat k) l)
       /\ (0 < length chunk <= Z.to_nat k)%nat.
Proof.
  intros Hk. unfold windows.
  set (n := Z.of_nat (length l)).
  pose proof (ceil_div_nonneg n k ltac:(lia) Hk) as Hm.
  split; [|split].
  - rewrite concat_windows_take. apply take_ge.
    destruct (Z_lt_le_dec (ceil_div n k * k) n) as [Hlt|Hge]; [|nia].
    apply ceil_div_lt_iff in Hlt; lia.
  - rewrite length_fmap, length_seq. lia.
  - intros w chunk Hw. rewrite list_lookup_fmap in Hw.
    destruct (seq 0 (Z.to_nat (ceil_div n k)) !! w) as [w'|] eqn:Hseq;
      [|discriminate].
    apply lookup_seq in Hseq as [-> Hlt]. simpl in Hw. injection Hw as <-.
    split; [reflexivity|]. rewrite length_window.
    assert (Hin : Z.of_nat w * k < n) by (apply ceil_div_lt_iff; lia).
    subst n. nia.
Qed.

End Windows.

Lemma split_chunks_from (files : list File) (K : Z) (fuel w0 : nat)
    (acc : list (list File)) :
  0 < K ->
  Z.max 0 (ceil_div (Z.of_nat (length files)) K - Z.of_nat w0)
    < Z.of_nat fuel ->
  split_chunks fuel files K (Z.of_nat w0 * K) acc
  = Some (acc ++ (window (Z.to_nat K) files
                    <$> seq w0 (Z.to_nat (ceil_div (Z.of_nat (length files)) K)
                                - w0))).
Proof.
  intros HK. revert w0 acc.
  induction fuel as [|fuel IH]; intros w0 acc Hfuel.
  - lia.
  - cbn [split_chunks].
    destruct (Z.ltb_spec (Z.of_nat w0 * K) (Z.of_nat (length files)))
      as [Hin|Hout].
    + pose proof (proj1 (ceil_div_lt_iff _ _ _ HK) Hin) as Hw.
      replace (Z.of_nat w0 * K + K) with (Z.of_nat (S w0) * K) by lia.
      rewrite IH by lia.
      replace (Z.of_nat (S w0) * K) with (Z.of_nat w0 * K + K) by lia.
      rewrite array_slice_take_drop by lia.
      replace (Z.to_nat (ceil_div (Z.of_nat (length files)) K) - w0)%nat
        with (S (Z.to_nat (ceil_div (Z.of_nat (length files)) K) - S w0))
        by lia.
      cbn [seq fmap list_fmap]. rewrite <- app_assoc. simpl app.
      do 3 f_equal. unfold window. do 2 f_equal. nia.
    + assert (Hw : ~ Z.of_nat w0 < ceil_div (Z.of_nat (length files)) K).
      { intros Hw. apply ceil_div_lt_iff in Hw; lia. }
      replace (Z.to_nat (ceil_div (Z.of_nat (length files)) K) - w0)%nat
        with 0%nat by lia.
      simpl. now rewrite app_nil_r.
Qed.

(** With a positive limit and fuel beyond the number of files the
    splitting loop ends, with the windows of the file list. *)
Lemma split_chunks_windows (files : list File) (K : Z) (fuel : nat) :
  0 < K -> (length files < fuel)%nat ->
  split_chunks fuel files K 0 [] = Some (windows K files).
Proof.
  intros HK Hfuel.
  pose proof (split_chunks_from files K fuel 0 [] HK) as H.
  change (Z.of_nat 0 * K) with 0 in H. rewrite H.
  - unfold windows. now rewrite Nat.sub_0_r.
  - assert (ceil_div (Z.of_nat (length files)) K <= Z.of_nat (length files));
      [|lia].
    unfold ceil_div. apply Z.lt_succ_r. apply Z.div_lt_upper_bound; nia.
Qed.

(** ** The batch driver *)

Lemma imap_all_resolved {A V : Type} (g : nat -> A -> Promise V) (l : list A) :
  (forall i x, l !! i = Some x -> exists v, g i x = Resolved v) ->
  exists vs, imap g l = Resolved <$> vs.
Proof.
  revert g. induction l as [|x l IH]; intros g Hall.
  - now exists [].
  - destruct (Hall 0%nat x eq_refl) as [v Hv].
    destruct (IH (g ∘ S)) as [vs Hvs].
    { intros i y Hy. apply (Hall (S i) y Hy). }
    exists (v :: vs). cbn [imap]. rewrite Hv, Hvs. reflexivity.
Qed.

Section BatchFacts.
Variable sched : nat -> list TimerEvent.
Variable settle_order : nat -> list nat.

Let process := process_chunks sched settle_order.

Lemma start_chunk_app (offset : nat) (l1 l2 : list File) :
  start_chunk sched offset (l1 ++ l2)
  = start_chunk sched offset l1 ++ start_chunk sched (offset + length l1) l2.
Proof.
  unfold start_chunk. rewrite imap_app. f_equal.
  apply imap_ext. intros j file _. simpl. now rewrite Nat.add_assoc.
Qed.

Lemma length_start_chunk (offset : nat) (l : list File) :
  length (start_chunk sched offset l) = length l.
Proof. unfold start_chunk. apply length_imap. Qed.

(** The results of a call that returns are the descriptors of the files
    in the order of the files, whatever the order of settlement. *)
Lemma process_chunks_results (chunks : list (list File)) (w offset : nat)
    (results rs : list ConvertedFile) (log L : list BatchEvent) :
  process chunks w offset results log = (Resolved rs, L) ->
  exists rs', rs = results ++ rs'
              /\ start_chunk sched offset (concat chunks) = Resolved <$> rs'.
Proof.
  subst process. revert w offset results log.
  induction chunks as [|chunk rest IH]; intros w offset results log H.
  - cbn in H. injection H as <- _. exists []. now rewrite app_nil_r.
  - cbn [process_chunks] in H.
    destruct (promise_all (start_chunk sched offset chunk) (settle_order w))
      as [|chunkResults|e] eqn:Hall; try discriminate.
    apply promise_all_resolved_inv in Hall as [Houts _].
    destruct (IH _ _ _ _ H) as (rs'' & -> & Hrest).
    exists (chunkResults ++ rs''). split; [now rewrite app_assoc|].
    cbn [concat]. rewrite start_chunk_app, Houts, Hrest, fmap_app.
    reflexivity.
Qed.

(** The call returns when every conversion is fulfilled and every
    conversion of a chunk settles. *)
Lemma process_chunks_returns (chunks : list (list File)) (w offset : nat)
    (results : list ConvertedFile) (log : list BatchEvent) :
  (forall i file, concat chunks !! i = Some file ->
     exists d, promise (convertToFLAC file (sched (offset + i))) = Resolved d) ->
  (forall c chunk, chunks !! c = Some chunk ->
     covers (settle_order (w + c)) (length chunk)) ->
  exists rs L, process chunks w offset results log = (Resolved rs, L).
Proof.
  subst process. revert w offset results log.
  induction chunks as [|chunk rest IH]; intros w offset results log Hok Hcov.
  - cbn. eauto.
  - cbn [process_chunks].
    destruct (imap_all_resolved
                (fun j file => promise (convertToFLAC file (sched (offset + j))))
                chunk) as [vs Hvs].
    { intros i file Hi. apply Hok. cbn [concat].
      now apply lookup_app_l_Some. }
    fold (start_chunk sched offset chunk) in Hvs.
    assert (Hlen : length vs = length chunk).
    { rewrite <- (length_start_chunk offset chunk), Hvs.
      now rewrite length_fmap. }
    rewrite Hvs, promise_all_resolves.
    + apply IH.
      * intros i file Hi. rewrite <- Nat.add_assoc. apply Hok.
        cbn [concat]. rewrite lookup_app_r by lia.
        now replace (length chunk + i - length chunk)%nat with i by lia.
      * intros c chunk' Hc.
        replace (S w + c)%nat with (w + S c)%nat by lia. now apply Hcov.
    + rewrite Hlen. specialize (Hcov 0%nat chunk eq_refl).
      now rewrite Nat.add_0_r in Hcov.
Qed.

Lemma chunk_log_windows {V : Type} (w offset : nat)
    (outs : list (Promise V)) (order : list nat) (ev : BatchEvent) :
  In ev (chunk_log w offset outs order) ->
  (exists j, ev = Started w (offset + j) /\ (j < length outs)%nat)
  \/ (exists j ok, ev = Settled w (offset + j) ok).
Proof.
  unfold chunk_log. intros Hin. apply in_app_or in Hin as [Hin|Hin].
  - left. apply list_elem_of_In, list_elem_of_fmap in Hin as (i & -> & Hi).
    apply elem_of_seq in Hi. exists (i - offset)%nat.
    split; [f_equal; lia | lia].
  - right. apply list_elem_of_In, list_elem_of_omap in Hin as (j & _ & Hj).
    unfold settle_event in Hj.
    destruct (outs !! j) as [[| |]|]; try discriminate;
      injection Hj as <-; eauto.
Qed.

(** In the log of a chunk whose [Promise.all] is fulfilled every
    conversion started has settled. *)
Lemma chunk_log_settled {V : Type} (w offset : nat)
    (outs : list (Promise V)) (order : list nat) (vs : list V) (i : nat) :
  promise_all outs order = Resolved vs ->
  In (Started w i) (chunk_log w offset outs order) ->
  exists before after,
    chunk_log w offset outs order = before ++ Settled w i true :: after.
Proof.
  intros Hall Hin.
  apply promise_all_resolved_inv in Hall as [Houts Hcov].
  apply chunk_log_windows in Hin as [(j & [= ->] & Hj)|(j & ok & [=])].
  assert (Hev : In (Settled w (offset + j) true)
                   (omap (settle_event w offset outs) order)).
  { apply list_elem_of_In, list_elem_of_omap. exists j.
    split; [apply list_elem_of_In; now apply Hcov|].
    unfold settle_event. rewrite Houts, list_lookup_fmap.
    rewrite Houts, length_fmap in Hj.
    destruct (lookup_lt_is_Some_2 vs j Hj) as [v ->]. reflexivity. }
  apply in_split in Hev as (l1 & l2 & Hsplit).
  unfold chunk_log. rewrite Hsplit.
  exists ((Started w <$> seq offset (length outs)) ++ l1), l2.
  now rewrite <- app_assoc.
Qed.

(** The log grows; its new events belong to the chunks processed, and a
    conversion of a later chunk starts only after every conversion of an
    earlier chunk has settled. *)
Lemma process_chunks_barrier (chunks : list (list File)) (w offset : nat)
    (results : list ConvertedFile) (log : list BatchEvent)
    (p : Promise (list ConvertedFile)) (L : list BatchEvent) :
  process chunks w offset results log = (p, L) ->
  exists ext,
    L = log ++ ext
    /\ (forall w' i, In (Started w' i) ext -> (w <= w')%nat)
    /\ (forall w1 w2 i j, (w1 < w2)%nat ->
          In (Started w1 i) ext -> In (Started w2 j) ext ->
          exists ok before between after,
            ext = before ++ Settled w1 i ok :: between
                         ++ Started w2 j :: after).
Proof.
  subst process. revert w offset results log.
  induction chunks as [|chunk rest IH]; intros w offset results log H.
  - cbn in H. injection H as _ <-. exists []. rewrite app_nil_r.
    split; [reflexivity|]. split; intros; contradiction.
  - cbn [process_chunks] in H.
    set (outs := start_chunk sched offset chunk) in *.
    set (here := chunk_log w offset outs (settle_order w)) in *.
    assert (Hhere : forall w' i, In (Started w' i) here -> w' = w).
    { intros w' i Hin. subst here.
      apply chunk_log_windows in Hin as [(j & [= -> _] & _)|(j & ok & [=])].
      reflexivity. }
    destruct (promise_all outs (settle_order w)) as [|vs|e] eqn:Hall.
    + injection H as _ <-. exists here. split; [reflexivity|].
      split.
      * intros w' i Hin. apply Hhere in Hin. lia.
      * intros w1 w2 i j Hlt H1 H2.
        apply Hhere in H1, H2. lia.
    + destruct (IH _ _ _ _ H) as (ext & -> & Hge & Hbar).
      exists (here ++ ext). split; [now rewrite app_assoc|]. split.
      * intros w' i Hin. apply in_app_or in Hin as [Hin|Hin].
        -- apply Hhere in Hin. lia.
        -- apply Hge in Hin. lia.
      * intros w1 w2 i j Hlt H1 H2.
        apply in_app_or in H2 as [H2|H2].
        { apply Hhere in H2. subst w2.
          apply in_app_or in H1 as [H1|H1].
          - apply Hhere in H1. lia.
          - apply Hge in H1. lia. }
        apply in_app_or in H1 as [H1|H1].
        -- pose proof (Hhere _ _ H1) as ->.
           destruct (chunk_log_settled w offset outs (settle_order w) vs i
                       Hall H1) as (b & a & Hb).
           apply in_split in H2 as (l1 & l2 & ->).
           exists true, b, (a ++ l1), l2. fold here in Hb. rewrite Hb.
           now rewrite <- !app_assoc.
        -- destruct (Hbar w1 w2 i j Hlt H1 H2) as (ok & b & m & a & ->).
           exists ok, (here ++ b), m, a. now rewrite <- app_assoc.
    + injection H as _ <-. exists here. split; [reflexivity|].
      split.
      * intros w' i Hin. apply Hhere in Hin. lia.
      * intros w1 w2 i j Hlt H1 H2.
        apply Hhere in H1, H2. lia.
Qed.

End BatchFacts.

Section BatchWindows.
Variable sched : nat -> list TimerEvent.
Variable settle_order : nat -> list nat.
Variable files : list File.
Variable k : nat.
Hypothesis k_pos : (0 < k)%nat.

(** The conversions started for the [w]-th window are those of the files
    at the indices [w * k] to [w * k + k - 1]. *)
Lemma process_windows_tags (n w0 : nat) (results : list ConvertedFile)
    (log : list BatchEvent) (p : Promise (list ConvertedFile))
    (L : list BatchEvent) :
  process_chunks sched settle_order (window k files <$> seq w0 n) w0
    (Nat.min (w0 * k) (length files)) results log = (p, L) ->
  exists ext,
    L = log ++ ext
    /\ forall w i, In (Started w i) ext ->
         (w * k <= i < w * k + k)%nat /\ (i < length files)%nat.
Proof.
  revert w0 results log.
  induction n as [|n IH]; intros w0 results log H.
  - cbn in H. injection H as _ <-. exists []. rewrite app_nil_r.
    split; [reflexivity | intros; contradiction].
  - cbn [seq fmap list_fmap process_chunks] in H.
    set (offset := Nat.min (w0 * k) (length files)) in *.
    set (outs := start_chunk sched offset (window k files w0)) in *.
    set (here := chunk_log w0 offset outs (settle_order w0)) in *.
    assert (Hlen : length outs = Nat.min k (length files - w0 * k)).
    { subst outs. now rewrite length_start_chunk, length_window. }
    assert (Hhere : forall w i, In (Started w i) here ->
              (w * k <= i < w * k + k)%nat /\ (i < length files)%nat).
    { intros w i Hin. subst here.
      apply chunk_log_windows in Hin as [(j & [= -> ->] & Hj)|(j & ok & [=])].
      subst offset. lia. }
    assert (Hnext : (offset + length (window k files w0))%nat
                    = Nat.min (S w0 * k) (length files)).
    { rewrite length_window. subst offset. lia. }
    destruct (promise_all outs (settle_order w0)) as [|vs|e].
    + injection H as _ <-. now exists here.
    + rewrite Hnext in H. destruct (IH _ _ _ H) as (ext & -> & Hext).
      exists (here ++ ext). split; [now rewrite app_assoc|].
      intros w i Hin. apply in_app_or in Hin as [Hin|Hin]; auto.
    + injection H as _ <-. now exists here.
Qed.

(** A conversion that is not fulfilled stops the call at its window: no
    conversion of a later window is started. *)
Lemma process_windows_stop (n w0 : nat) (results : list ConvertedFile)
    (log : list BatchEvent) (p : Promise (list ConvertedFile))
    (L : list BatchEvent) (i : nat) (file : File) :
  process_chunks sched settle_order (window k files <$> seq w0 n) w0
    (Nat.min (w0 * k) (length files)) results log = (p, L) ->
  files !! i = Some file ->
  (forall d, promise (convertToFLAC file (sched i)) <> Resolved d) ->
  (w0 * k <= i)%nat ->
  exists ext,
    L = log ++ ext
    /\ forall w j, In (Started w j) ext -> (w * k <= i)%nat.
Proof.
  intros H Hfile Hbad. revert w0 results log H.
  induction n as [|n IH]; intros w0 results log H Hi.
  - cbn in H. injection H as _ <-. exists []. rewrite app_nil_r.
    split; [reflexivity | intros; contradiction].
  - cbn [seq fmap list_fmap process_chunks] in H.
    apply lookup_lt_Some in Hfile as Hlt.
    set (offset := Nat.min (w0 * k) (length files)) in *.
    assert (Hoff : offset = (w0 * k)%nat) by (subst offset; lia).
    set (outs := start_chunk sched offset (window k files w0)) in *.
    set (here := chunk_log w0 offset outs (settle_order w0)) in *.
    assert (Hhere : forall w j, In (Started w j) here -> (w * k <= i)%nat).
    { intros w j Hin. subst here.
      apply chunk_log_windows in Hin as [(b & [= -> ->] & _)|(b & ok & [=])].
      assumption. }
    assert (Hnext : (offset + length (window k files w0))%nat
                    = Nat.min (S w0 * k) (length files)).
    { rewrite length_window. subst offset. lia. }
    destruct (promise_all outs (settle_order w0)) as [|vs|e] eqn:Hall.
    + injection H as _ <-. now exists here.
    + rewrite Hnext in H.
      destruct (decide (i < S w0 * k)%nat) as [Hin|Hout].
      * exfalso. apply promise_all_resolved_inv in Hall as [Houts _].
        assert (Hlook : outs !! (i - w0 * k)%nat
                        = Some (promise (convertToFLAC file (sched i)))).
        { subst outs. unfold start_chunk. rewrite list_lookup_imap.
          unfold window. rewrite lookup_take_lt by lia. rewrite lookup_drop.
          replace (w0 * k + (i - w0 * k))%nat with i by lia.
          rewrite Hfile. cbn.
          now replace (offset + (i - w0 * k))%nat with i by lia. }
        rewrite Houts, list_lookup_fmap in Hlook.
        destruct (vs !! (i - w0 * k)%nat) as [d|]; [|discriminate].
        injection Hlook as Hd. now apply (Hbad d).
      * destruct (IH _ _ _ H) as (ext & -> & Hext); [lia|].
        exists (here ++ ext). split; [now rewrite app_assoc|].
        intros w j Hin. apply in_app_or in Hin as [Hin|Hin]; eauto.
    + injection H as _ <-. now exists here.
Qed.

End BatchWindows.

(** C4: with a positive limit and fuel beyond the number of files,
    [batchConvert] ends.  When it returns, its results are the descriptors
    of the files in the order of submission, one per file, whatever the
    order in which the conversions of a window settle; the conversions of
    window [w] are those of the files [w*K .. w*K+K-1]; and a conversion of
    a later window is started only after every conversion started in an
    earlier window has settled.  It does return when every conversion is
    fulfilled and every conversion of each window settles. *)
Theorem batchConvert_order_and_barrier
    (sched : nat -> list TimerEvent) (settle_order : nat -> list nat)
    (files : list File) (K : Z) (fuel : nat) :
  0 < K -> (length files < fuel)%nat ->
  exists p log,
    batchConvert sched settle_order fuel files K = Some (p, log)
    /\ (forall rs, p = Resolved rs ->
          length rs = length files
          /\ forall i file, files !! i = Some file ->
               exists d, rs !! i = Some d
                 /\ promise (convertToFLAC file (sched i)) = Resolved d)
    /\ (forall w i, In (Started w i) log ->
          Z.of_nat w * K <= Z.of_nat i < Z.of_nat w * K + K)
    /\ (forall w1 w2 i j, (w1 < w2)%nat ->
          In (Started w1 i) log -> In (Started w2 j) log ->
          exists ok before between after,
            log = before ++ Settled w1 i ok :: between
                         ++ Started w2 j :: after)
    /\ ((forall i file, files !! i = Some file ->
           exists d, promise (convertToFLAC file (sched i)) = Resolved d) ->
        (forall w, covers (settle_order w)
                     (length (window (Z.to_nat K) files w))) ->
        exists rs, p = Resolved rs).
Proof.
  intros HK Hfuel. unfold batchConvert.
  rewrite split_chunks_windows by assumption. cbn [mbind option_bind].
  destruct (process_chunks sched settle_order (windows K files) 0 0 [] [])
    as [p log] eqn:Hrun.
  exists p, log. split; [reflexivity|].
  destruct (windows_partition files K HK) as (Hconcat & Hcount & Hwin).
  split; [|split; [|split]].
  - intros rs ->.
    destruct (process_chunks_results _ _ _ _ _ _ _ _ _ Hrun)
      as (rs' & -> & Hrs).
    rewrite Hconcat in Hrs. simpl app.
    assert (Hlen : length rs' = length files).
    { rewrite <- (length_start_chunk sched 0 files), Hrs.
      now rewrite length_fmap. }
    split; [assumption|].
    intros i file Hi.
    destruct (lookup_lt_is_Some_2 rs' i) as [d Hd];
      [rewrite Hlen; eapply lookup_lt_Some; eauto|].
    exists d. split; [assumption|].
    assert (Hlook : start_chunk sched 0 files !! i = Some (Resolved d))
      by (rewrite Hrs, list_lookup_fmap, Hd; reflexivity).
    unfold start_chunk in Hlook. rewrite list_lookup_imap, Hi in Hlook.
    simpl in Hlook. congruence.
  - intros w i Hin.
    pose proof (process_windows_tags sched settle_order files (Z.to_nat K)
                  ltac:(lia)
                  (Z.to_nat (ceil_div (Z.of_nat (length files)) K))
                  0 [] [] p log) as Htags.
    unfold windows in Hrun. simpl Nat.min in Htags.
    destruct (Htags Hrun) as (ext & Hext & Hin'). simpl in Hext. subst ext.
    destruct (Hin' w i Hin) as [Hrange _]. nia.
  - intros w1 w2 i j Hlt H1 H2.
    destruct (process_chunks_barrier _ _ _ _ _ _ _ _ _ Hrun)
      as (ext & Hext & _ & Hbar).
    simpl in Hext. subst ext. eauto.
  - intros Hok Hcov.
    destruct (process_chunks_returns sched settle_order (windows K files)
                0 0 [] []) as (rs & L & Hret).
    + intros i file Hi. rewrite Hconcat in Hi. now apply Hok.
    + intros c chunk Hc. simpl. destruct (Hwin c chunk Hc) as [-> _].
      apply Hcov.
    + rewrite Hrun in Hret. injection Hret as -> _. eauto.
Qed.

Lemma batchConvert_order_and_barrier_witness :
  let sched := fun _ : nat => repeat (IntervalTick (9 # 10) "t") 6 in
  let settle_order := fun w : nat => [1; 0]%nat in
  let files := [mkFile "a.wav" 2048 "audio/wav";
                mkFile "b.mp3" 4096 "audio/mpeg";
                mkFile "c.ogg" 1024 "audio/ogg"] in
  exists rs log,
    batchConvert sched settle_order 4 files 2 = Some (Resolved rs, log)
    /\ length rs = length files
    /\ (forall i file, files !! i = Some file ->
          exists d, rs !! i = Some d
            /\ promise (convertToFLAC file (sched i)) = Resolved d)
    /\ (forall w i, In (Started w i) log ->
          Z.of_nat w * 2 <= Z.of_nat i < Z.of_nat w * 2 + 2)
    /\ (forall w1 w2 i j, (w1 < w2)%nat ->
          In (Started w1 i) log -> In (Started w2 j) log ->
          exists ok before between after,
            log = before ++ Settled w1 i ok :: between
                         ++ Started w2 j :: after).
Proof.
  intros sched settle_order files.
  destruct (batchConvert_order_and_barrier sched settle_order files 2 4)
    as (p & log & Hrun & Hres & Htags & Hbar & Hret); [lia | simpl; lia |].
  destruct Hret as [rs ->].
  - intros [|[|[|i]]] file Hi; simpl in Hi; try discriminate Hi;
      injection Hi as <-; eexists; vm_compute; reflexivity.
  - intros w j Hj. unfold window in Hj.
    destruct w as [|[|w]].
    + simpl in Hj. simpl. destruct j as [|[|j]]; [auto | auto | lia].
    + simpl in Hj. simpl. destruct j as [|j]; [auto | lia].
    + rewrite drop_ge in Hj by (simpl; lia). simpl in Hj. lia.
  - exists rs, log. destruct (Hres rs eq_refl) as [Hlen Hord]. auto.
Defined.

(** C1, as stated, fails: on an empty list of files the call returns the
    empty list of results, whatever the limit. *)
Lemma batchConvert_empty_counterexample :
  batchConvert (fun _ => []) (fun _ => []) 1 [] 10 = Some (Resolved [], [])
  /\ batchConvert (fun _ => []) (fun _ => []) 1 [] 0 = Some (Resolved [], [])
  /\ batchConvert (fun _ => []) (fun _ => []) 1 [] (-1)
     = Some (Resolved [], []).
Proof. repeat split. Qed.

Lemma split_chunks_bounded_positive (files : list File) (K : Z)
    (fuel : nat) (i : Z) (chunks : list (list File)) :
  0 < K ->
  (i < Z.of_nat (length files) ->
   Z.of_nat (length chunks) + (Z.of_nat (length files) - i)
   <= max_array_length) ->
  split_chunks_bounded fuel files K i chunks
  = inr <$> split_chunks fuel files K i chunks.
Proof.
  intros HK. revert i chunks.
  induction fuel as [|fuel IH]; intros i chunks Hroom; [reflexivity|].
  cbn [split_chunks_bounded split_chunks].
  destruct (Z.ltb_spec i (Z.of_nat (length files))) as [Hin|Hout];
    [|reflexivity].
  specialize (Hroom Hin). unfold array_push.
  destruct (Z.ltb_spec (Z.of_nat (length chunks)) max_array_length); [|lia].
  apply IH. intros Hnext. rewrite length_app. simpl length. lia.
Qed.

Lemma split_chunks_bounded_overflows (files : list File) (K : Z)
    (fuel : nat) (i : Z) (chunks : list (list File)) :
  files <> [] -> K <= 0 -> i <= 0 ->
  Z.of_nat (length chunks) <= max_array_length ->
  split_chunks_bounded fuel files K i chunks
  = if Z.of_nat fuel <=? max_array_length - Z.of_nat (length chunks)
    then None else Some (inl range_error).
Proof.
  intros Hne HK. revert i chunks.
  assert (Hlen : 0 < Z.of_nat (length files)).
  { destruct files; [congruence | simpl length; lia]. }
  induction fuel as [|fuel IH]; intros i chunks Hi Hroom.
  - cbn [split_chunks_bounded].
    destruct (Z.leb_spec (Z.of_nat 0)
                (max_array_length - Z.of_nat (length chunks)));
      [reflexivity | lia].
  - cbn [split_chunks_bounded].
    destruct (Z.ltb_spec i (Z.of_nat (length files))); [|lia].
    unfold array_push.
    destruct (Z.ltb_spec (Z.of_nat (length chunks)) max_array_length)
      as [Hfree|Hfull].
    + rewrite IH by (rewrite ?length_app; simpl length; lia).
      rewrite length_app. simpl length.
      destruct (Z.leb_spec (Z.of_nat fuel)
                  (max_array_length - Z.of_nat (length chunks + 1))),
               (Z.leb_spec (Z.of_nat (S fuel))
                  (max_array_length - Z.of_nat (length chunks)));
        try reflexivity; lia.
    + destruct (Z.leb_spec (Z.of_nat (S fuel))
                  (max_array_length - Z.of_nat (length chunks)));
        [lia | reflexivity].
Qed.

(** C1, amended: [batchConvert] checks no precondition.  On an empty
    list of files it returns the empty list of results for every limit.
    On a non-empty list with a positive limit it returns one result per
    file when every conversion is fulfilled and every conversion of each
    window settles; there the array of chunks never fills up.  On a
    non-empty list with a non-positive limit the loop that splits the list
    never ends by its condition: it pushes one chunk per turn until, on
    the turn that would make the array [2^32] long, [chunks.push] throws a
    [RangeError], which rejects the call before any conversion is
    started. *)
Theorem batchConvert_preconditions
    (sched : nat -> list TimerEvent) (settle_order : nat -> list nat) :
  (forall K fuel, (0 < fuel)%nat ->
     batchConvert_bounded sched settle_order fuel [] K
     = Some (Resolved [], []))
  /\ (forall files K fuel,
        0 < K -> Z.of_nat (length files) <= max_array_length ->
        batchConvert_bounded sched settle_order fuel files K
        = batchConvert sched settle_order fuel files K)
  /\ (forall files K fuel,
        files <> [] -> 0 < K -> (length files < fuel)%nat ->
        Z.of_nat (length files) <= max_array_length ->
        (forall i file, files !! i = Some file ->
           exists d, promise (convertToFLAC file (sched i)) = Resolved d) ->
        (forall w, covers (settle_order w)
                     (length (window (Z.to_nat K) files w))) ->
        exists rs log,
          batchConvert_bounded sched settle_order fuel files K
          = Some (Resolved rs, log)
          /\ length rs = length files)
  /\ (forall files K fuel,
        files <> [] -> K <= 0 ->
        batchConvert_bounded sched settle_order fuel files K
        = if Z.of_nat fuel <? 2 ^ 32 then None
          else Some (Rejected range_error, [])).
Proof.
  assert (Hsame : forall files K fuel,
            0 < K -> Z.of_nat (length files) <= max_array_length ->
            batchConvert_bounded sched settle_order fuel files K
            = batchConvert sched settle_order fuel files K).
  { intros files K fuel HK Hlen. unfold batchConvert_bounded, batchConvert.
    rewrite split_chunks_bounded_positive by (simpl length; lia).
    now destruct (split_chunks fuel files K 0 []). }
  split; [|split; [|split]].
  - intros K [|fuel] Hfuel; [lia | reflexivity].
  - exact Hsame.
  - intros files K fuel _ HK Hfuel Hlen Hok Hcov.
    rewrite Hsame by assumption. unfold batchConvert.
    rewrite split_chunks_windows by assumption. cbn [mbind option_bind].
    destruct (windows_partition files K HK) as (Hconcat & _ & Hwin).
    destruct (process_chunks_returns sched settle_order (windows K files)
                0 0 [] []) as (rs & log & Hrun).
    + intros i file Hi. rewrite Hconcat in Hi. now apply Hok.
    + intros c chunk Hc. simpl. destruct (Hwin c chunk Hc) as [-> _].
      apply Hcov.
    + exists rs, log. rewrite Hrun. split; [reflexivity|].
      destruct (process_chunks_results _ _ _ _ _ _ _ _ _ Hrun)
        as (rs' & -> & Hrs).
      rewrite Hconcat in Hrs. simpl app.
      rewrite <- (length_start_chunk sched 0 files), Hrs.
      now rewrite length_fmap.
  - intros files K fuel Hne HK. unfold batchConvert_bounded.
    rewrite (split_chunks_bounded_overflows files K fuel 0 [] Hne HK)
      by (simpl length; unfold max_array_length; lia).
    simpl length. unfold max_array_length.
    destruct (Z.leb_spec (Z.of_nat fuel) (2 ^ 32 - 1 - Z.of_nat 0)),
             (Z.ltb_spec (Z.of_nat fuel) (2 ^ 32));
      try reflexivity; lia.
Qed.

Lemma batchConvert_preconditions_witness :
  let sched := fun _ : nat => repeat (IntervalTick (9 # 10) "t") 6 in
  let settle_order := fun w : nat => [0; 1]%nat in
  let files := [mkFile "a.wav" 2048 "audio/wav";
                mkFile "b.mp3" 4096 "audio/mpeg";
                mkFile "c.ogg" 1024 "audio/ogg"] in
  batchConvert_bounded sched settle_order 1 [] 2 = Some (Resolved [], [])
  /\ (exists rs log,
        batchConvert_bounded sched settle_order 4 files 2
        = Some (Resolved rs, log)
        /\ length rs = length files)
  /\ batchConvert_bounded sched settle_order 4 files 0 = None
  /\ batchConvert_bounded sched settle_order (Z.to_nat (2 ^ 32)) files 0
     = Some (Rejected range_error, []).
Proof.
  intros sched settle_order files.
  destruct (batchConvert_preconditions sched settle_order)
    as (Hempty & _ & Hruns & Hloops).
  split; [apply Hempty; lia|]. split; [|split].
  - apply Hruns.
    + discriminate.
    + lia.
    + simpl; lia.
    + simpl length. unfold max_array_length. lia.
    + intros [|[|[|i]]] file Hi; simpl in Hi; try discriminate;
        injection Hi as <-; eexists; vm_compute; reflexivity.
    + intros w j Hj. unfold window in Hj.
      destruct w as [|[|w]].
      * simpl in Hj. simpl. destruct j as [|[|j]]; [auto | auto | lia].
      * simpl in Hj. simpl. destruct j as [|j]; [auto | lia].
      * rewrite drop_ge in Hj by (simpl; lia). simpl in Hj. lia.
  - exact (Hloops files 0 4%nat ltac:(discriminate) ltac:(lia)).
  - rewrite (Hloops files 0 (Z.to_nat (2 ^ 32)) ltac:(discriminate)
               ltac:(lia)).
    destruct (Z.ltb_spec (Z.of_nat (Z.to_nat (2 ^ 32))) (2 ^ 32));
      [lia | reflexivity].
Defined.

(** X14: one conversion that is rejected makes [batchConvert] return no
    results, for no file at all, and no conversion of a window after that
    of the rejected one is started: the call has no [catch] around its
    conversions. *)
Lemma batchConvert_rejection_aborts
    (sched : nat -> list TimerEvent) (settle_order : nat -> list nat)
    (files : list File) (K : Z) (fuel : nat)
    (i : nat) (file : File) (e : string) :
  0 < K -> (length files < fuel)%nat ->
  files !! i = Some file ->
  promise (convertToFLAC file (sched i)) = Rejected e ->
  exists p log,
    batchConvert sched settle_order fuel files K = Some (p, log)
    /\ (forall rs, p <> Resolved rs)
    /\ (forall w j, In (Started w j) log -> Z.of_nat w * K <= Z.of_nat i).
Proof.
  intros HK Hfuel Hfile Hrej. unfold batchConvert.
  rewrite split_chunks_windows by assumption. cbn [mbind option_bind].
  destruct (process_chunks sched settle_order (windows K files) 0 0 [] [])
    as [p log] eqn:Hrun.
  exists p, log. split; [reflexivity|]. split.
  - intros rs ->.
    destruct (process_chunks_results _ _ _ _ _ _ _ _ _ Hrun)
      as (rs' & _ & Hrs).
    destruct (windows_partition files K HK) as (Hconcat & _ & _).
    rewrite Hconcat in Hrs.
    assert (Hlook : start_chunk sched 0 files !! i = Some (Rejected e)).
    { unfold start_chunk. rewrite list_lookup_imap, Hfile. cbn.
      now rewrite Hrej. }
    rewrite Hrs, list_lookup_fmap in Hlook.
    destruct (rs' !! i); discriminate.
  - intros w j Hin.
    destruct (process_windows_stop sched settle_order files (Z.to_nat K)
                ltac:(lia)
                (Z.to_nat (ceil_div (Z.of_nat (length files)) K))
                0 [] [] p log i file) as (ext & Hext & Hstop).
    + exact Hrun.
    + assumption.
    + intros d. rewrite Hrej. discriminate.
    + lia.
    + simpl in Hext. subst ext. specialize (Hstop w j Hin). nia.
Qed.

(** C2, on [batchConvert]: the first of three files fails in a batch of
    windows of two (its timers run late: the interval once, then the
    timeout, which draws less than 0.001).  The call is rejected with the
    error of that file: its window-mate settles, but the third file, of
    the next window, is never started and no result is returned for any
    file. *)
Theorem batchConvert_aborts_on_failure :
  let sched := fun i : nat =>
    if decide (i = 0%nat)
    then [IntervalTick (1 # 2) "t"; TimeoutFire (1 # 2000)]
    else repeat (IntervalTick (9 # 10) "t") 6 in
  let files := [mkFile "a.wav" 2048 "audio/wav";
                mkFile "b.mp3" 4096 "audio/mpeg";
                mkFile "c.ogg" 1024 "audio/ogg"] in
  batchConvert sched (fun _ => [0; 1]%nat) 4 files 2
  = Some (Rejected simulated_error,
          [Started 0 0; Started 0 1; Settled 0 0 false; Settled 0 1 true]).
Proof. vm_compute. reflexivity. Qed.

(** ** The conversion loop of the application *)

Section ItemUpdates.
Variable sched : nat -> list TimerEvent.

(** The items after the calls of [convertSingleFile] of a window have
    reached their [await]: the items of the window show "Converting...". *)
Lemma begin_fold (indices : list Z) (its : gmap Z FileStatus) (x : Z) :
  foldl convertSingleFile_begin its indices !! x
  = match its !! x with
    | None => None
    | Some s => if decide (x ∈ indices) then Some Converting else Some s
    end.
Proof.
  revert its. induction indices as [|a indices IH]; intros its.
  - simpl. destruct (its !! x); [|reflexivity].
    destruct (decide (x ∈ [])) as [H|_]; [|reflexivity].
    now apply elem_of_nil in H.
  - cbn [foldl]. rewrite IH. unfold convertSingleFile_begin.
    destruct (decide (a = x)) as [->|Hne].
    + destruct (its !! x) as [s|] eqn:Hx.
      * rewrite lookup_insert_eq.
        destruct (decide (x ∈ indices)), (decide (x ∈ x :: indices)) as [|Hn];
          try reflexivity.
        -- exfalso. apply Hn. now left.
        -- exfalso. apply Hn. now left.
      * now rewrite Hx.
    + assert (Hsame : (match its !! a with
                       | Some _ => <[a:=Converting]> its
                       | None => its
                       end) !! x = its !! x).
      { destruct (its !! a); [now rewrite lookup_insert_ne | reflexivity]. }
      rewrite Hsame. destruct (its !! x); [|reflexivity].
      destruct (decide (x ∈ indices)) as [Hin|Hout],
               (decide (x ∈ a :: indices)) as [Hin'|Hout'];
        try reflexivity.
      * exfalso. apply Hout'. now right.
      * exfalso. apply elem_of_cons in Hin' as [->|]; [congruence | auto].
Qed.

(** The items once the conversions of a window have settled in a given
    order: each item of the window whose conversion is in the order shows
    the outcome of its conversion; no other item changes. *)
Lemma settle_fold (i : Z) (batch : list File) (order : list nat)
    (its : gmap Z FileStatus) (x : Z) :
  foldl (settle_items sched i batch) its order !! x
  = match its !! x with
    | None => None
    | Some s =>
        match batch !! Z.to_nat (x - i) with
        | Some file =>
            if decide (i <= x /\ Z.to_nat (x - i) ∈ order)
            then Some (match conversion_of sched file x with
                       | Resolved _ => Completed
                       | Rejected _ => Failed
                       | Pending => s
                       end)
            else Some s
        | None => Some s
        end
    end.
Proof.
  induction order as [|bi order IH] using rev_ind.
  - simpl. destruct (its !! x); [|reflexivity].
    destruct (batch !! _); [|reflexivity].
    destruct (decide _) as [[_ H]|_]; [|reflexivity].
    now apply elem_of_nil in H.
  - rewrite foldl_snoc. unfold settle_items at 1.
    set (before := foldl (settle_items sched i batch) its order) in *.
    destruct (batch !! bi) as [file|] eqn:Hbi.
    + unfold convertSingleFile_end.
      destruct (decide (x = i + Z.of_nat bi)) as [->|Hne].
      * replace (Z.to_nat (i + Z.of_nat bi - i)) with bi in * by lia.
        rewrite Hbi in *.
        assert (Hyes : i <= i + Z.of_nat bi /\ bi ∈ order ++ [bi]).
        { split; [lia|]. apply elem_of_app. right. now left. }
        destruct (decide (i <= i + Z.of_nat bi /\ bi ∈ order ++ [bi]))
          as [_|Hno]; [|contradiction].
        pose proof IH as IH'. rewrite IH.
        destruct (its !! (i + Z.of_nat bi)) as [s|] eqn:Hx; [|assumption].
        destruct (decide (i <= i + Z.of_nat bi /\ bi ∈ order)) as [Hold|Hold];
          destruct (conversion_of sched file (i + Z.of_nat bi)) eqn:Hc;
          rewrite ?lookup_insert_eq, ?IH'; reflexivity.
      * assert (Hsame : (match before !! (i + Z.of_nat bi) with
                         | Some _ =>
                             match conversion_of sched file (i + Z.of_nat bi) with
                             | Pending => before
                             | Resolved _ =>
                                 <[i + Z.of_nat bi:=Completed]> before
                             | Rejected _ => <[i + Z.of_nat bi:=Failed]> before
                             end
                         | None => before
                         end) !! x = before !! x).
        { destruct (before !! (i + Z.of_nat bi)); [|reflexivity].
          destruct (conversion_of sched file (i + Z.of_nat bi));
            rewrite ?lookup_insert_ne by congruence; reflexivity. }
        rewrite Hsame, IH.
        destruct (its !! x); [|reflexivity].
        destruct (batch !! Z.to_nat (x - i)); [|reflexivity].
        destruct (decide (i <= x /\ Z.to_nat (x - i) ∈ order)) as [[? Hin]|Hno],
                 (decide (i <= x /\ Z.to_nat (x - i) ∈ order ++ [bi]))
                   as [[? Hin']|Hno']; try reflexivity.
        -- exfalso. apply Hno'. split; [assumption|].
           apply elem_of_app. now left.
        -- exfalso. apply elem_of_app in Hin' as [Hin'|Hin'].
           ++ apply Hno. now split.
           ++ apply list_elem_of_singleton in Hin'. lia.
    + rewrite IH. destruct (its !! x); [|reflexivity].
      destruct (batch !! Z.to_nat (x - i)) as [file|] eqn:Hx; [|reflexivity].
      destruct (decide (i <= x /\ Z.to_nat (x - i) ∈ order)) as [[? Hin]|Hno],
               (decide (i <= x /\ Z.to_nat (x - i) ∈ order ++ [bi]))
                 as [[? Hin']|Hno']; try reflexivity.
      * exfalso. apply Hno'. split; [assumption|].
        apply elem_of_app. now left.
      * exfalso. apply elem_of_app in Hin' as [Hin'|Hin'].
        -- apply Hno. now split.
        -- apply list_elem_of_singleton in Hin'. congruence.
Qed.

End ItemUpdates.



Section ConversionLoop.
Variable sched : nat -> list TimerEvent.
Variable settle_order : nat -> list nat.
Variable files : list File.
Variable K : Z.
Hypothesis K_pos : 0 < K.
Hypothesis all_settle :
  forall i file, files !! i = Some file ->
    promise (convertToFLAC file (sched i)) <> Pending.
Hypothesis all_covered :
  forall w, covers (settle_order w) (length (window (Z.to_nat K) files w)).

Local Abbreviation N := (Z.of_nat (length files)).
Local Abbreviation windows_count := (Z.to_nat (ceil_div N K)).







End ConversionLoop.







(** The same three files, the first failing, through the loop of the
    application with windows of two: the failure is shown on its item, the
    other two items show completion, both windows run and the loop ends
    with the completion dialog. *)
Lemma startConversion_isolates_failure :
  let sched := fun i : nat =>
    if decide (i = 0%nat)
    then [IntervalTick (1 # 2) "t"; TimeoutFire (1 # 2000)]
    else repeat (IntervalTick (9 # 10) "t") 6 in
  let files := [mkFile "a.wav" 2048 "audio/wav";
                mkFile "b.mp3" 4096 "audio/mpeg";
                mkFile "c.ogg" 1024 "audio/ogg"] in
  (fun '(st, log) =>
     (isConverting st, items st !! 0, items st !! 1, items st !! 2, log))
    <$> startConversion_with sched (fun _ => [0; 1]%nat) 2 4
          (mkAppState files false (renderFileList files ∅))
  = Some (false, Some Failed, Some Completed, Some Completed,
          [ConversionStarted 0; ConversionStarted 1;
           ConversionSettled 0 false; ConversionSettled 1 true;
           OverallProgress 2 3 67;
           ConversionStarted 2; ConversionSettled 2 true;
           OverallProgress 3 3 100; CompletionDialog]).
Proof. vm_compute. reflexivity. Qed.

(** * Further properties of the code *)

(** ** Admission of files *)

Lemma accepted_iff_no_rejection (selected : list File) (c : File) :
  accepted selected c = true <-> rejection selected c = None.
Proof.
  unfold accepted, rejection.
  destruct (verdict selected c); simpl; split; congruence.
Qed.

Lemma verdict_none (selected : list File) (c : File) :
  verdict selected c = None ->
  admissible c /\ isDuplicate selected c = false.
Proof.
  unfold verdict, admissible. fold (isDuplicate selected c).
  destruct (isValidAudioFile c); simpl negb; cbv iota; [|discriminate].
  destruct (Z.ltb_spec maxSize (size c)); [discriminate|].
  destruct (isDuplicate selected c); [discriminate|]. auto.
Qed.

Lemma verdict_reasons (selected : list File) (c : File) (why : string) :
  verdict selected c = Some why ->
  why = unsupported_reason
  \/ why = "File terlalu besar. Maksimum 1 GB"
  \/ why = duplicate_reason.
Proof.
  unfold verdict. rewrite formatFileSize_maxSize.
  destruct (isValidAudioFile c); simpl negb; cbv iota.
  - destruct (maxSize <? size c).
    + intros [= <-]. right. left. reflexivity.
    + destruct (existsb _ selected); [|discriminate].
      intros [= <-]. auto.
  - intros [= <-]. auto.
Qed.

Lemma filter_omap_length (selected files : list File) :
  (length (List.filter (accepted selected) files)
   + length (omap (rejection selected) files))%nat = length files.
Proof.
  induction files as [|c files IH]; [reflexivity|].
  cbn [List.filter omap list_omap]. fold (omap (rejection selected) files).
  pose proof (accepted_iff_no_rejection selected c) as Hc.
  destruct (accepted selected c), (rejection selected c); simpl length.
  - destruct Hc as [Hc _]. now specialize (Hc eq_refl).
  - lia.
  - lia.
  - destruct Hc as [_ Hc]. now specialize (Hc eq_refl).
Qed.

Lemma handleFiles_notifications (st : AppState) (files : list File) :
  isConverting st = false ->
  notifications (handleFiles st files)
  = match validFiles (handleFiles st files) with
    | [] => []
    | _ => [FilesAdded (length (validFiles (handleFiles st files)))]
    end
    ++ match invalidFiles (handleFiles st files) with
       | [] => []
       | _ => [FilesRejected (invalidFiles (handleFiles st files))]
       end
    ++ match validFiles (handleFiles st files),
             invalidFiles (handleFiles st files) with
       | [], [] => [NoFilesSelected]
       | _, _ => []
       end
  /\ isConverting (state_after (handleFiles st files)) = false
  /\ (validFiles (handleFiles st files) = [] ->
      state_after (handleFiles st files) = st)
  /\ (validFiles (handleFiles st files) <> [] ->
      items (state_after (handleFiles st files))
      = renderFileList (selectedFiles (state_after (handleFiles st files)))
                       (items st)).
Proof.
  intros Hidle. unfold handleFiles. rewrite Hidle.
  destruct (fold_left (check_file (selectedFiles st)) files ([], []))
    as [valids invalids].
  cbn [notifications validFiles invalidFiles state_after].
  split; [reflexivity|]. split; [|split].
  - destruct valids; [assumption | reflexivity].
  - now intros ->.
  - destruct valids; [congruence | reflexivity].
Qed.

(** X1: with no conversion running, [handleFiles] puts every candidate
    either among the accepted or among the rejected files, so that the two
    lists together are as long as the candidate list; an accepted file
    passes the type and the size check and is no duplicate of a selected
    file; a rejection names a candidate and gives one of the three
    reasons; and the call always notifies, with "no files selected"
    exactly when there was no candidate. *)
Theorem handleFiles_partitions (st : AppState) (candidates : list File) :
  isConverting st = false ->
  let adm := handleFiles st candidates in
  (length (validFiles adm) + length (invalidFiles adm))%nat
  = length candidates
  /\ (forall c, In c (validFiles adm) ->
        In c candidates /\ admissible c
        /\ isDuplicate (selectedFiles st) c = false)
  /\ (forall r, In r (invalidFiles adm) ->
        exists c, In c candidates /\ rejected_name r = name c
          /\ (reason r = unsupported_reason
              \/ reason r = "File terlalu besar. Maksimum 1 GB"
              \/ reason r = duplicate_reason))
  /\ notifications adm <> []
  /\ (In NoFilesSelected (notifications adm) <-> candidates = []).
Proof.
  intros Hidle adm.
  destruct (handleFiles_unfold st candidates Hidle) as (Hvalid & Hinvalid & _).
  destruct (handleFiles_notifications st candidates Hidle) as (Hnotes & _).
  fold adm in Hvalid, Hinvalid, Hnotes.
  pose proof (filter_omap_length (selectedFiles st) candidates) as Hlen.
  rewrite <- Hvalid, <- Hinvalid in Hlen.
  split; [assumption|]. split; [|split; [|split]].
  - intros c Hc. rewrite Hvalid in Hc. apply filter_In in Hc as [Hin Hacc].
    split; [assumption|]. apply verdict_none.
    unfold accepted in Hacc. now destruct (verdict (selectedFiles st) c).
  - intros r Hr. rewrite Hinvalid in Hr.
    apply list_elem_of_In, list_elem_of_omap in Hr as (c & Hc & Hrej).
    exists c. split; [now apply list_elem_of_In|].
    unfold rejection in Hrej.
    destruct (verdict (selectedFiles st) c) as [why|] eqn:Hv; [|discriminate].
    injection Hrej as <-. split; [reflexivity|].
    now apply verdict_reasons in Hv.
  - rewrite Hnotes.
    destruct (validFiles adm), (invalidFiles adm); discriminate.
  - rewrite Hnotes. split.
    + destruct (validFiles adm), (invalidFiles adm); simpl in *;
        try (intros [H|H]; try discriminate H; try contradiction;
             destruct H as [H|H]; try discriminate H; contradiction).
      intros _. destruct candidates; [reflexivity | simpl in Hlen; lia].
    + intros ->. subst adm. cbn in *.
      destruct (validFiles _), (invalidFiles _); simpl in Hlen; try lia.
      now left.
Qed.

Lemma handleFiles_partitions_witness :
  let st := mkAppState [mkFile "a.wav" 10485760 "audio/wav"] false ∅ in
  let adm := handleFiles st [mkFile "a.wav" 10485760 "audio/wav";
                             mkFile "notes.txt" 12 "text/plain";
                             mkFile "b.ogg" 2048 "audio/ogg"] in
  (length (validFiles adm) + length (invalidFiles adm))%nat = 3%nat
  /\ notifications adm <> [].
Proof.
  intros st adm.
  destruct (handleFiles_partitions st
              [mkFile "a.wav" 10485760 "audio/wav";
               mkFile "notes.txt" 12 "text/plain";
               mkFile "b.ogg" 2048 "audio/ogg"])
    as (Hlen & _ & _ & Hnotes & _); [reflexivity|].
  split; [exact Hlen | exact Hnotes].
Defined.

Lemma accepted_after_admission (selected candidates : list File) (c : File) :
  In c candidates ->
  accepted (selected ++ List.filter (accepted selected) candidates) c = false.
Proof.
  intros Hin.
  destruct (accepted (selected ++ _) c) eqn:Hafter; [|reflexivity].
  exfalso. apply accepted_iff_no_rejection in Hafter.
  unfold rejection in Hafter.
  destruct (verdict (selected ++ _) c) eqn:Hv in Hafter; [discriminate|].
  apply verdict_none in Hv as [[Htype Hsize] Hdup].
  unfold isDuplicate in Hdup. rewrite existsb_app in Hdup.
  apply orb_false_iff in Hdup as [Hold Hnew].
  assert (Hacc : accepted selected c = true).
  { unfold accepted, verdict. fold (isDuplicate selected c).
    rewrite Htype. simpl negb. cbv iota.
    destruct (Z.ltb_spec maxSize (size c)); [lia|].
    unfold isDuplicate. now rewrite Hold. }
  assert (Hc : In c (List.filter (accepted selected) candidates))
    by (apply filter_In; auto).
  assert (Hself : existsb (fun f => String.eqb (name f) (name c)
                                    && (size f =? size c))
                    (List.filter (accepted selected) candidates) = true).
  { apply existsb_exists. exists c. split; [assumption|].
    now rewrite String.eqb_refl, Z.eqb_refl. }
  rewrite Hself in Hnew. discriminate Hnew.
Qed.

(** X2: files that were just submitted are not admitted a second time.
    With no conversion running, a second call of [handleFiles] with the
    same candidates accepts none of them, rejects each one, those the first
    call accepted as duplicates, and leaves the selection and the rendered
    items as the first call left them. *)
Theorem handleFiles_resubmission (st : AppState) (candidates : list File) :
  isConverting st = false ->
  let first := handleFiles st candidates in
  let again := handleFiles (state_after first) candidates in
  validFiles again = []
  /\ length (invalidFiles again) = length candidates
  /\ (forall c, In c (validFiles first) ->
        In (mkRejection (name c) duplicate_reason) (invalidFiles again))
  /\ state_after again = state_after first.
Proof.
  intros Hidle first again. subst again. set (st1 := state_after first).
  set (again := handleFiles st1 candidates).
  destruct (handleFiles_unfold st candidates Hidle) as (Hvalid & _ & Hsel).
  destruct (handleFiles_notifications st candidates Hidle)
    as (_ & Hidle1 & _).
  fold first in Hvalid, Hsel, Hidle1. fold st1 in Hsel, Hidle1.
  destruct (handleFiles_unfold st1 candidates Hidle1) as (Hvalid' & Hinv' & _).
  destruct (handleFiles_notifications st1 candidates Hidle1)
    as (_ & _ & Hsame' & _).
  fold again in Hvalid', Hinv', Hsame'.
  rewrite Hvalid in Hsel.
  assert (Hnone : validFiles again = []).
  { rewrite Hvalid'.
    destruct (List.filter (accepted (selectedFiles st1)) candidates)
      as [|c rest] eqn:Hfilter; [reflexivity|].
    assert (Hc : In c (List.filter (accepted (selectedFiles st1)) candidates))
      by (rewrite Hfilter; now left).
    exfalso. apply filter_In in Hc as [Hin Hacc].
    rewrite Hsel, accepted_after_admission in Hacc by assumption.
    discriminate Hacc. }
  split; [assumption|]. split; [|split; [|auto]].
  - pose proof (filter_omap_length (selectedFiles st1) candidates) as Hlen.
    rewrite <- Hinv' in Hlen. rewrite Hvalid' in Hnone.
    rewrite Hnone in Hlen. exact Hlen.
  - intros c Hc. rewrite Hvalid in Hc.
    pose proof Hc as Hc'. apply filter_In in Hc' as [Hin Hacc].
    apply accepted_iff_no_rejection in Hacc. unfold rejection in Hacc.
    destruct (verdict (selectedFiles st) c) eqn:Hv; [discriminate Hacc|].
    apply verdict_none in Hv as [[Htype Hsize] _].
    rewrite Hinv'. apply list_elem_of_In, list_elem_of_omap.
    exists c. split; [now apply list_elem_of_In|].
    assert (Hdup : isDuplicate (selectedFiles st1) c = true).
    { apply isDuplicate_iff. exists c. split; [|auto].
      rewrite Hsel. apply in_or_app. now right. }
    unfold rejection, verdict. fold (isDuplicate (selectedFiles st1) c).
    rewrite Htype, Hdup.
    destruct (Z.ltb_spec maxSize (size c)); [lia | reflexivity].
Qed.

Lemma handleFiles_resubmission_witness :
  let st := mkAppState [] false ∅ in
  let files := [mkFile "a.wav" 10485760 "audio/wav";
                mkFile "notes.txt" 12 "text/plain"] in
  let first := handleFiles st files in
  let again := handleFiles (state_after first) files in
  validFiles again = []
  /\ length (invalidFiles again) = 2%nat
  /\ (forall c, In c (validFiles first) ->
        In (mkRejection (name c) duplicate_reason) (invalidFiles again))
  /\ state_after again = state_after first.
Proof.
  intros st files.
  exact (handleFiles_resubmission st files eq_refl).
Defined.

(** X3: the list [supportedFormats] adds nothing to the type check: every
    type it holds starts with "audio/", so [isValidAudioFile] accepts a
    file exactly when its type starts with "audio/". *)
Theorem isValidAudioFile_is_prefix_test (file : File) :
  isValidAudioFile file = startsWith "audio/" (type file).
Proof.
  unfold isValidAudioFile.
  destruct (startsWith "audio/" (type file)) eqn:Hprefix;
    [apply orb_true_r|].
  rewrite orb_false_r.
  destruct (existsb _ supportedFormats) eqn:Hlisted; [|reflexivity].
  apply existsb_exists in Hlisted as (format & Hin & Heq).
  apply String.eqb_eq in Heq. subst format.
  assert (Hall : forallb (startsWith "audio/") supportedFormats = true)
    by (vm_compute; reflexivity).
  rewrite forallb_forall in Hall. rewrite (Hall _ Hin) in Hprefix.
  discriminate Hprefix.
Qed.

(** ** The selection and its rendered items *)

Lemma render_lookup_from (k : nat) (selected : list File) (x : Z) :
  (list_to_map (imap (fun i _ => (Z.of_nat (k + i), Ready)) selected)
     : gmap Z FileStatus) !! x
  = if decide (Z.of_nat k <= x < Z.of_nat k + Z.of_nat (length selected))
    then Some Ready else None.
Proof.
  revert k. induction selected as [|f selected IH]; intros k.
  - simpl. rewrite lookup_empty.
    destruct (decide _) as [H|_]; [lia | reflexivity].
  - rewrite imap_cons, list_to_map_cons. cbn [fst snd length].
    rewrite (imap_ext _ (fun i _ => (Z.of_nat (S k + i), Ready)))
      by (intros; simpl; do 2 f_equal; lia).
    destruct (decide (Z.of_nat (k + 0) = x)) as [<-|Hne].
    + rewrite lookup_insert_eq.
      destruct (decide _) as [_|H]; [reflexivity | lia].
    + rewrite lookup_insert_ne by assumption. rewrite IH.
      repeat case_decide; try reflexivity; lia.
Qed.

(** After [renderFileList] with a non-empty selection there is exactly
    one item per selected file, and each one shows "Ready". *)
Lemma renderFileList_lookup (selected : list File) (old : gmap Z FileStatus)
    (x : Z) :
  selected <> [] ->
  renderFileList selected old !! x
  = if decide (0 <= x < Z.of_nat (length selected))
    then Some Ready else None.
Proof.
  intros Hne. unfold renderFileList.
  destruct selected as [|f selected]; [congruence|].
  rewrite (render_lookup_from 0).
  repeat case_decide; try reflexivity; lia.
Qed.

Lemma begin_fold_domain (indices : list Z) (its : gmap Z FileStatus) (x : Z) :
  is_Some (foldl convertSingleFile_begin its indices !! x)
  <-> is_Some (its !! x).
Proof.
  rewrite begin_fold. destruct (its !! x); [|reflexivity].
  destruct (decide _); split; eauto.
Qed.

Lemma settle_fold_domain (sched : nat -> list TimerEvent) (i : Z)
    (batch : list File) (order : list nat) (its : gmap Z FileStatus) (x : Z) :
  is_Some (foldl (settle_items sched i batch) its order !! x)
  <-> is_Some (its !! x).
Proof.
  rewrite settle_fold. destruct (its !! x); [|reflexivity].
  destruct (batch !! _); [|reflexivity].
  destruct (decide _); split; eauto.
Qed.

(** The loop of [startConversion] returns for every positive window size,
    however the conversions end, and neither adds nor removes an item. *)
Lemma conversion_loop_domain (sched : nat -> list TimerEvent)
    (settle_order : nat -> list nat) (K : Z) (files : list File)
    (fuel w : nat) (i completedCount : Z) (its : gmap Z FileStatus)
    (log : list AppEvent) :
  0 < K ->
  Z.max 0 (Z.of_nat (length files) - i) < Z.of_nat fuel ->
  exists p its' log',
    conversion_loop sched settle_order fuel K files w i completedCount its log
    = Some (p, its', log')
    /\ forall x, is_Some (its' !! x) <-> is_Some (its !! x).
Proof.
  intros HK. revert w i completedCount its log.
  induction fuel as [|fuel IH]; intros w i cc its log Hfuel; [lia|].
  cbn [conversion_loop].
  destruct (Z.ltb_spec i (Z.of_nat (length files))) as [Hin|Hout].
  - match goal with
    | |- context [foldl (settle_items sched i ?batch) ?its1 ?order] =>
        assert (Hdom : forall x,
                  is_Some (foldl (settle_items sched i batch) its1 order !! x)
                  <-> is_Some (its !! x))
          by (intros x; now rewrite settle_fold_domain, begin_fold_domain)
    end.
    destruct (promise_all _ _).
    + eauto.
    + match goal with
      | |- context [conversion_loop _ _ _ _ _ ?w' ?i' ?cc' ?its2 ?log2] =>
          destruct (IH w' i' cc' its2 log2) as (p & its' & log' & Hrun & Hsame);
            [lia|]
      end.
      rewrite Hrun. exists p, its', log'. split; [reflexivity|].
      intros x. now rewrite Hsame, Hdom.
    + eauto.
  - eauto 6.
Qed.

(** [startConversion] returns for every selection and changes neither the
    selection nor the set of rendered items. *)
Lemma startConversion_selection (sched : nat -> list TimerEvent)
    (settle_order : nat -> list nat) (st : AppState) :
  exists st' log,
    startConversion sched settle_order st = Some (st', log)
    /\ selectedFiles st' = selectedFiles st
    /\ forall x, is_Some (items st' !! x) <-> is_Some (items st !! x).
Proof.
  unfold startConversion, startConversion_with.
  destruct (selectedFiles st) as [|f files] eqn:Hsel.
  - exists st, [Notified ChooseFilesFirst]. rewrite Hsel. auto.
  - destruct (isConverting st).
    + exists st, [Notified ConversionInProgress]. rewrite Hsel. auto.
    + destruct (conversion_loop_domain sched settle_order batchSize
                  (f :: files) (S (length (f :: files))) 0 0 0
                  (items st) []) as (p & its' & log' & Hrun & Hdom);
        [reflexivity | lia |].
      rewrite Hrun. cbn [mbind option_bind].
      destruct p; eexists _, _; (split; [reflexivity|]); auto.
Qed.

Lemma array_splice1_spec {A : Type} (a : list A) (index : Z) :
  (0 <= index < Z.of_nat (length a) ->
   array_splice1 a index
   = take (Z.to_nat index) a ++ drop (S (Z.to_nat index)) a)
  /\ (Z.of_nat (length a) <= index -> array_splice1 a index = a).
Proof.
  unfold array_splice1, clamp_index. split; intros H.
  - destruct (Z.ltb_spec index 0); [lia|].
    now rewrite Z.min_l by lia.
  - destruct (Z.ltb_spec index 0); [lia|].
    rewrite Z.min_r by lia. rewrite Nat2Z.id.
    rewrite take_ge, drop_ge by lia. apply app_nil_r.
Qed.

Lemma array_splice1_sublist {A : Type} (P : A -> Prop) (a : list A)
    (index : Z) :
  List.Forall P a -> List.Forall P (array_splice1 a index).
Proof.
  intros Hall. unfold array_splice1. apply List.Forall_app. split.
  - rewrite List.Forall_forall in *. intros x Hx. apply Hall.
    apply list_elem_of_In. apply list_elem_of_In in Hx.
    exact (subseteq_take _ _ _ Hx).
  - rewrite List.Forall_forall in *. intros x Hx. apply Hall.
    apply list_elem_of_In. apply list_elem_of_In in Hx.
    exact (subseteq_drop _ _ _ Hx).
Qed.

Lemma rendered_items (selected : list File) (old : gmap Z FileStatus) (x : Z) :
  selected <> [] ->
  is_Some (renderFileList selected old !! x)
  <-> 0 <= x < Z.of_nat (length selected).
Proof.
  intros Hne. rewrite renderFileList_lookup by assumption.
  case_decide; split; intros H'; eauto; try contradiction.
  now destruct H'.
Qed.

Lemma perform_invariant (st : AppState) (a : UserAction) :
  page_invariant st -> page_invariant (perform st a).
Proof.
  intros [Hadm Hdom]. destruct a as [files|index|confirmed|sched order];
    cbn [perform].
  - destruct (isConverting st) eqn:Hbusy.
    + unfold handleFiles. rewrite Hbusy. now split.
    + destruct (handleFiles_unfold st files Hbusy) as (Hvalid & _ & Hsel).
      destruct (handleFiles_notifications st files Hbusy)
        as (_ & _ & Hsame & Hitems).
      destruct (validFiles (handleFiles st files)) as [|c valids] eqn:Hv.
      * rewrite Hsame by reflexivity. now split.
      * specialize (Hitems ltac:(discriminate)). split.
        -- rewrite Hsel. apply List.Forall_app. split; [assumption|].
           apply List.Forall_forall. intros c' Hc'.
           rewrite Hvalid in Hc'. apply filter_In in Hc' as [_ Hacc].
           apply accepted_iff_no_rejection in Hacc. unfold rejection in Hacc.
           destruct (verdict (selectedFiles st) c') eqn:Hverdict;
             [discriminate|].
           now apply verdict_none in Hverdict.
        -- intros Hne x. rewrite Hitems. now apply rendered_items.
  - unfold removeFile. destruct (isConverting st); [now split|].
    cbn [fst selectedFiles items]. split.
    + now apply array_splice1_sublist.
    + intros Hne x. now apply rendered_items.
  - pose proof (conj Hadm Hdom : page_invariant st) as Hinv.
    unfold clearAll. destruct (isConverting st); [exact Hinv|].
    destruct (selectedFiles st) eqn:Hsel; [exact Hinv|].
    destruct confirmed; [|exact Hinv].
    split; [constructor | intros Hne; now contradiction Hne].
  - destruct (startConversion_selection sched order st)
      as (st' & log & Hrun & Hsel & Hsame).
    rewrite Hrun. split.
    + now rewrite Hsel.
    + rewrite Hsel. intros Hne x. rewrite Hsame. now apply Hdom.
Qed.

Lemma perform_busy (st : AppState) (a : UserAction) :
  isConverting st = true -> perform st a = st.
Proof.
  intros Hbusy. destruct a as [files|index|confirmed|sched order];
    cbn [perform].
  - unfold handleFiles. now rewrite Hbusy.
  - unfold removeFile. now rewrite Hbusy.
  - unfold clearAll. now rewrite Hbusy.
  - unfold startConversion, startConversion_with. rewrite Hbusy.
    now destruct (selectedFiles st).
Qed.

(** X4: whatever the user does with the page (adding files, removing
    one, clearing the list, starting conversions, in any order and however
    the conversions end), every selected file passes the type and the size
    check of [handleFiles], every selected file has its rendered item (so
    [convertSingleFile] never takes its early return for a missing item),
    and while files are selected no item is rendered beyond them. *)
Theorem page_invariant_reachable (actions : list UserAction) :
  let st := foldl perform initial_state actions in
  List.Forall admissible (selectedFiles st)
  /\ rendered st
  /\ (selectedFiles st <> [] ->
      forall x, is_Some (items st !! x) ->
                0 <= x < Z.of_nat (length (selectedFiles st))).
Proof.
  intros st.
  assert (Hinv : page_invariant st).
  { subst st. induction actions as [|a actions IH] using rev_ind.
    - split; [constructor | intros H; now contradiction H].
    - rewrite foldl_snoc. now apply perform_invariant. }
  destruct Hinv as [Hadm Hdom]. split; [assumption|]. split.
  - intros i Hi. apply Hdom; [|lia].
    intros Hnil. rewrite Hnil in Hi. simpl in Hi. lia.
  - intros Hne x Hx. now apply Hdom.
Qed.

(** X5: while a conversion is running ([isConverting] is set), nothing
    the user does changes the selection or the rendered items: adding,
    removing, clearing and starting again all return at their guard, for
    any sequence of such actions. *)
Theorem busy_page_is_frozen (st : AppState) (actions : list UserAction) :
  isConverting st = true ->
  foldl perform st actions = st.
Proof.
  intros Hbusy. induction actions as [|a actions IH] using rev_ind;
    [reflexivity|].
  rewrite foldl_snoc, IH. now apply perform_busy.
Qed.

Lemma busy_page_is_frozen_witness :
  let st := mkAppState [mkFile "a.wav" 2048 "audio/wav"] true
                       {[ 0 := Converting ]} in
  foldl perform st
    [AddFiles [mkFile "b.ogg" 4096 "audio/ogg"]; RemoveFile 0;
     ClearAll true; StartConversion (fun _ => []) (fun _ => [])]
  = st.
Proof.
  intros st.
  exact (busy_page_is_frozen st
           [AddFiles [mkFile "b.ogg" 4096 "audio/ogg"]; RemoveFile 0;
            ClearAll true; StartConversion (fun _ => []) (fun _ => [])]
           eq_refl).
Defined.

(** X6: with no conversion running, [removeFile] with the index of a
    selected file removes that file and keeps the others in their order,
    so a file behind it moves one index down; an index past the end
    removes nothing, and the call still notifies that a file was removed;
    and while files remain every remaining item is rendered afresh and
    shows "Ready", whatever status it showed before. *)
Theorem removeFile_effect (st : AppState) (index : Z) :
  isConverting st = false ->
  let files := selectedFiles st in
  let st' := fst (removeFile st index) in
  snd (removeFile st index) = [FileRemoved]
  /\ isConverting st' = false
  /\ (0 <= index < Z.of_nat (length files) ->
      Z.of_nat (length (selectedFiles st')) = Z.of_nat (length files) - 1
      /\ forall j : nat,
           selectedFiles st' !! j
           = if decide (Z.of_nat j < index) then files !! j
             else files !! S j)
  /\ (Z.of_nat (length files) <= index -> selectedFiles st' = files)
  /\ (selectedFiles st' <> [] ->
      forall x, items st' !! x
                = if decide (0 <= x < Z.of_nat (length (selectedFiles st')))
                  then Some Ready else None).
Proof.
  intros Hidle files st'. subst st'. unfold removeFile. rewrite Hidle.
  cbn [fst snd selectedFiles isConverting items].
  destruct (array_splice1_spec files index) as [Hin Hout].
  split; [reflexivity|]. split; [reflexivity|]. split; [|split].
  - intros Hrange. fold files. rewrite (Hin Hrange). split.
    + rewrite length_app, length_take, length_drop. lia.
    + intros j. case_decide as Hj.
      * rewrite lookup_app_l by (rewrite length_take; lia).
        apply lookup_take_lt. lia.
      * rewrite lookup_app_r by (rewrite length_take; lia).
        rewrite length_take, lookup_drop. f_equal. lia.
  - intros Hpast. fold files. exact (Hout Hpast).
  - intros Hne x. now apply renderFileList_lookup.
Qed.

Lemma removeFile_effect_witness :
  let st := mkAppState [mkFile "a.wav" 2048 "audio/wav";
                        mkFile "b.ogg" 4096 "audio/ogg";
                        mkFile "c.mp3" 512 "audio/mpeg"] false
                       {[ 0 := Completed; 1 := Failed; 2 := Completed ]} in
  selectedFiles (fst (removeFile st 1)) !! 1%nat
  = Some (mkFile "c.mp3" 512 "audio/mpeg")
  /\ items (fst (removeFile st 1)) !! 0 = Some Ready.
Proof.
  intros st.
  destruct (removeFile_effect st 1 eq_refl) as (_ & _ & Hin & _ & Hitems).
  destruct Hin as [_ Hlook]; [vm_compute; split; [discriminate | reflexivity]|].
  split.
  - exact (Hlook 1%nat).
  - exact (Hitems ltac:(discriminate) 0).
Defined.

(** ** Sizes and durations as text *)

(** X7: the size of a file of fewer than 1024 whole bytes is shown as
    that number of bytes, without fractional digits. *)
Theorem formatFileSize_whole_bytes (n : Z) :
  1 <= n < 1024 ->
  formatFileSize (inject_Z n) = show_Z n +:+ " Bytes".
Proof.
  intros Hn.
  assert (Hx : (1 <= inject_Z n)%Q).
  { change 1%Q with (inject_Z 1). rewrite <- Zle_Qle. lia. }
  assert (Hi : unit_index (inject_Z n) = 0).
  { pose proof (unit_index_bounds _ Hx) as (Hlow & _).
    pose proof (proj2 (unit_index_named (inject_Z n) 1 Hx ltac:(lia))) as Hup.
    assert (unit_index (inject_Z n) < 1); [|lia].
    apply Hup. rewrite <- Zlt_Qlt. change (2 ^ (10 * 1)) with 1024. lia. }
  rewrite formatFileSize_scaled by assumption.
  unfold scaled_hundredths. rewrite Hi.
  rewrite (round_inject_Z _ (100 * n)).
  - now rewrite show_hundredths_whole.
  - rewrite inject_Z_mult. change (Qpower 1024 0) with 1%Q.
    change (inject_Z 100) with 100%Q. field.
Qed.

Lemma formatFileSize_whole_bytes_witness :
  formatFileSize (inject_Z 512) = "512 Bytes".
Proof. exact (formatFileSize_whole_bytes 512 ltac:(lia)). Defined.

(** X8: for a whole number [n] of bytes with [1 <= n < 1024^4],
    [formatFileSize] shows an amount between 1 and 1024, both included,
    followed by the unit Bytes, KB, MB or GB that brackets [n] between two
    powers of 1024; the amount can read 1024: 1048575 bytes are shown as
    "1024 KB", not as "1 MB".  From [1024^5] bytes on the unit index
    leaves the list of units and the text ends in "undefined". *)
Theorem formatFileSize_units (n : Z) :
  1 <= n ->
  (n < 1024 ^ 4 ->
   exists (i h : Z) (unit : string),
     formatFileSize (inject_Z n) = show_hundredths h +:+ " " +:+ unit
     /\ 0 <= i <= 3
     /\ ["Bytes"; "KB"; "MB"; "GB"] !! Z.to_nat i = Some unit
     /\ 1024 ^ i <= n < 1024 ^ (i + 1)
     /\ 100 <= h <= 102400)
  /\ (1024 ^ 5 <= n ->
      exists amount : string,
        formatFileSize (inject_Z n) = amount +:+ " undefined")
  /\ formatFileSize (inject_Z 1048575) = "1024 KB".
Proof.
  intros Hn.
  assert (Hx : (1 <= inject_Z n)%Q).
  { change 1%Q with (inject_Z 1). rewrite <- Zle_Qle. lia. }
  pose proof (unit_index_bounds _ Hx) as (Hi & Hlow & Hhigh).
  split; [|split].
  - intros Hup.
    assert (Hi4 : unit_index (inject_Z n) < 4).
    { apply (unit_index_named (inject_Z n) 4 Hx); [lia|].
      rewrite <- Zlt_Qlt. change (2 ^ (10 * 4)) with (1024 ^ 4). lia. }
    exists (unit_index (inject_Z n)), (scaled_hundredths (inject_Z n)),
      (sizes_at (unit_index (inject_Z n))).
    split; [now apply formatFileSize_scaled|]. split; [lia|]. split; [|split].
    + assert (Hcases : unit_index (inject_Z n) = 0
                       \/ unit_index (inject_Z n) = 1
                       \/ unit_index (inject_Z n) = 2
                       \/ unit_index (inject_Z n) = 3) by lia.
      destruct Hcases as [->|[->|[->| ->]]]; reflexivity.
    + assert (Hp : forall k, 0 <= k ->
                       (Qpower 1024 k == inject_Z (1024 ^ k))%Q).
      { intros k Hk. change 1024%Q with (inject_Z 1024). symmetry.
        now apply Zpower_Qpower. }
      rewrite Hp in Hlow, Hhigh by lia.
      rewrite <- Zle_Qle in Hlow. rewrite <- Zlt_Qlt in Hhigh. lia.
    + now apply scaled_hundredths_bounds.
  - intros Hbig. rewrite formatFileSize_scaled by assumption.
    exists (show_hundredths (scaled_hundredths (inject_Z n))).
    rewrite sizes_at_undefined; [reflexivity|]. right.
    destruct (Z_lt_le_dec (unit_index (inject_Z n)) 5) as [Hlt|]; [|assumption].
    apply (unit_index_named (inject_Z n) 5 Hx) in Hlt; [|lia].
    rewrite <- Zlt_Qlt in Hlt. change (2 ^ (10 * 5)) with (1024 ^ 5) in Hlt.
    lia.
  - vm_compute. reflexivity.
Qed.

Lemma formatFileSize_units_witness :
  exists (i h : Z) (unit : string),
    formatFileSize (inject_Z 1536) = show_hundredths h +:+ " " +:+ unit
    /\ 0 <= i <= 3
    /\ ["Bytes"; "KB"; "MB"; "GB"] !! Z.to_nat i = Some unit
    /\ 1024 ^ i <= 1536 < 1024 ^ (i + 1)
    /\ 100 <= h <= 102400.
Proof.
  destruct (formatFileSize_units 1536) as (Hnamed & _); [lia|].
  apply Hnamed. reflexivity.
Defined.

Lemma padStart_two_digits (r : Z) :
  0 <= r < 60 ->
  padStart 2 "0" (show_Z r)
  = if r <? 10 then "0" +:+ show_Z r else show_Z r.
Proof.
  intros Hr.
  assert (Hall : forallb
            (fun n : nat =>
               String.eqb (padStart 2 "0" (show_Z (Z.of_nat n)))
                 (if Z.of_nat n <? 10 then "0" +:+ show_Z (Z.of_nat n)
                  else show_Z (Z.of_nat n)))
            (seq 0 60) = true) by (vm_compute; reflexivity).
  rewrite forallb_forall in Hall.
  specialize (Hall (Z.to_nat r)). rewrite Z2Nat.id in Hall by lia.
  apply String.eqb_eq, Hall, in_seq. lia.
Qed.

(** X9: for a duration of [s >= 0] seconds, [formatDuration] shows
    the whole minutes, a colon and the remaining whole seconds: the
    seconds are between 0 and 59, sixty times the minutes plus the
    seconds is [s] rounded down, and the seconds are written with two
    digits, a leading zero added below ten. *)
Theorem formatDuration_minutes_seconds (s : Q) :
  (0 <= s)%Q ->
  let m := duration_minutes s in
  let r := duration_seconds s in
  0 <= m /\ 0 <= r < 60 /\ 60 * m + r = Qfloor s
  /\ formatDuration s
     = show_Z m +:+ ":" +:+ (if r <? 10 then "0" +:+ show_Z r else show_Z r).
Proof.
  intros Hs m r.
  pose proof (Qfloor_le (s / 60)) as Hm1.
  pose proof (Qlt_floor (s / 60)) as Hm2.
  fold (duration_minutes s) in Hm1, Hm2. fold m in Hm1, Hm2.
  rewrite inject_Z_plus in Hm2. change (inject_Z 1) with 1%Q in Hm2.
  assert (Hdiv : (s == 60 * (s / 60))%Q) by (field; discriminate).
  set (q := (s / 60)%Q) in *.
  assert (Hm : 0 <= m).
  { assert (H : (inject_Z (-1) < inject_Z m)%Q).
    { change (inject_Z (-1)) with (-1 # 1)%Q. lra. }
    rewrite <- Zlt_Qlt in H. lia. }
  assert (Htrunc : trunc q = m).
  { unfold trunc.
    destruct (Qle_bool 0 q) eqn:Hq; [reflexivity|].
    exfalso. assert (Hno : ~ (0 <= q)%Q) by (rewrite <- Qle_bool_iff; congruence).
    apply Hno. lra. }
  assert (Hr : r = Qfloor s - 60 * m).
  { subst r. unfold duration_seconds, number_rem. fold q. rewrite Htrunc.
    pose proof (Qfloor_le s) as Hs1. pose proof (Qlt_floor s) as Hs2.
    rewrite inject_Z_plus in Hs2. change (inject_Z 1) with 1%Q in Hs2.
    apply Qfloor_unique.
    - unfold Z.sub. rewrite inject_Z_plus, inject_Z_opp, inject_Z_mult.
      change (inject_Z 60) with 60%Q. lra.
    - replace (Qfloor s - 60 * m + 1) with (Qfloor s + 1 - 60 * m) by lia.
      unfold Z.sub. rewrite !inject_Z_plus, inject_Z_opp, inject_Z_mult.
      change (inject_Z 60) with 60%Q. change (inject_Z 1) with 1%Q. lra. }
  assert (Hrange : 0 <= r < 60).
  { rewrite Hr.
    pose proof (Qfloor_le s) as Hs1. pose proof (Qlt_floor s) as Hs2.
    rewrite inject_Z_plus in Hs2. change (inject_Z 1) with 1%Q in Hs2.
    assert (H1 : (inject_Z (60 * m) < inject_Z (Qfloor s + 1))%Q).
    { rewrite inject_Z_plus, inject_Z_mult. change (inject_Z 60) with 60%Q.
      change (inject_Z 1) with 1%Q. lra. }
    assert (H2 : (inject_Z (Qfloor s) < inject_Z (60 * m + 60))%Q).
    { rewrite inject_Z_plus, inject_Z_mult. change (inject_Z 60) with 60%Q.
      lra. }
    rewrite <- Zlt_Qlt in H1, H2. lia. }
  split; [assumption|]. split; [assumption|]. split; [lia|].
  unfold formatDuration. fold m r. now rewrite padStart_two_digits.
Qed.

Lemma formatDuration_minutes_seconds_witness :
  formatDuration (251 # 2) = "2:05".
Proof.
  destruct (formatDuration_minutes_seconds (251 # 2)) as (_ & _ & _ & Htext);
    [discriminate|].
  exact Htext.
Defined.

(** ** The simulated conversion *)

Lemma report_inv_start : report_inv conversion_start.
Proof.
  split; simpl.
  - intros _. split; discriminate.
  - lia.
  - constructor.
  - discriminate.
  - discriminate.
  - discriminate.
Qed.

Lemma report_inv_step (file : File) (c : Conversion) (ev : TimerEvent) :
  report_inv c -> draw_closed ev -> report_inv (deliver file c ev).
Proof.
  intros Hinv Hdraw. pose proof Hinv as [Hrun Hmax Hval Hres Hfin Hrej].
  destruct ev as [r now|u]; simpl.
  - destruct (interval_on c) eqn:Hon; [|exact Hinv].
    destruct (Hrun eq_refl) as [Hlow Hhigh]. destruct Hdraw as [Hr0 Hr1].
    assert (Hlen0 : (0 <= inject_Z (Z.of_nat (length (reported c))))%Q).
    { change 0%Q with (inject_Z 0). rewrite <- Zle_Qle. lia. }
    unfold interval_callback.
    destruct (Qle_bool 100 (progress c + (r * 15 + 5))) eqn:Hdone.
    + apply Qle_bool_iff in Hdone.
      split; cbn [interval_on progress reported promise].
      * discriminate.
      * assumption.
      * assumption.
      * intros d Hd. destruct (promise c) eqn:Hp.
        -- assert (H : (inject_Z 4
                        <= inject_Z (Z.of_nat (length (reported c))))%Q).
           { change (inject_Z 4) with 4%Q. lra. }
           rewrite <- Zle_Qle in H. lia.
        -- now apply (Hres v).
        -- discriminate Hd.
      * intros d _. split; reflexivity.
      * intros e He. destruct (promise c) eqn:Hp;
          [discriminate He | discriminate He | now apply Hrej].
    + assert (Hnot : ~ (100 <= progress c + (r * 15 + 5))%Q)
        by (rewrite <- Qle_bool_iff; congruence).
      apply Qnot_le_lt in Hnot.
      assert (Hlen : Z.of_nat (length (reported c
                       ++ [Qmin (progress c + (r * 15 + 5)) 100]))
                     = Z.of_nat (length (reported c)) + 1)
        by (rewrite length_app; simpl; lia).
      split; cbn [interval_on progress reported promise].
      * intros _. rewrite Hlen, inject_Z_plus.
        change (inject_Z 1) with 1%Q. split; lra.
      * assert (H : (inject_Z (Z.of_nat (length (reported c)) + 1)
                     < inject_Z 20)%Q).
        { rewrite inject_Z_plus. change (inject_Z 1) with 1%Q.
          change (inject_Z 20) with 20%Q. lra. }
        rewrite <- Zlt_Qlt in H. rewrite length_app. simpl. lia.
      * apply List.Forall_app. split; [assumption|].
        constructor; [|constructor].
        rewrite Q.min_l by lra. split; lra.
      * intros d Hd. destruct (Hfin d Hd) as [_ Hoff]. congruence.
      * intros d Hd. destruct (Hfin d Hd) as [_ Hoff]. congruence.
      * assumption.
  - destruct (timeout_armed c); [|exact Hinv].
    unfold timeout_callback.
    destruct (negb (Qle_bool (1 # 1000) u));
      split; cbn [interval_on progress reported promise];
      try assumption; try discriminate.
    + intros d Hd. destruct (promise c) eqn:Hp;
        [discriminate Hd | now apply (Hres v) | discriminate Hd].
    + intros d Hd. destruct (promise c) eqn:Hp;
        [discriminate Hd | | discriminate Hd].
      destruct (Hfin v eq_refl) as [Hprog _]. now split.
    + intros e He. destruct (promise c) eqn:Hp;
        [now injection He as <- | discriminate He | now apply Hrej].
Qed.

Lemma report_inv_run (file : File) (events : list TimerEvent)
    (c : Conversion) :
  report_inv c -> List.Forall draw_closed events ->
  report_inv (fold_left (deliver file) events c).
Proof.
  revert c. induction events as [|ev events IH]; intros c Hinv Hok;
    [assumption|].
  inversion Hok; subst. simpl fold_left. apply IH; [|assumption].
  now apply report_inv_step.
Qed.

(** X10: against every sequence of timer events whose interval
    callbacks add increments between 5 and 20, both included, a conversion
    calls its progress callback at most 19 times; when it is fulfilled it
    has called it at least 4 times (five increments of 20, the value the
    increment of a draw just below 1 is rounded to, reach 100), every
    reported value is at least 5 and below 100 (the callback is never told
    100: the run of the interval timer that reaches 100 resolves instead of
    reporting) and its progress stands at 100; and when it is rejected, the
    error is the simulated one. *)
Theorem convertToFLAC_report_count (file : File) (events : list TimerEvent) :
  List.Forall draw_closed events ->
  let c := convertToFLAC file events in
  (length (reported c) <= 19)%nat
  /\ (forall v, In v (reported c) -> (5 <= v /\ v < 100)%Q)
  /\ (forall d, promise c = Resolved d ->
        (4 <= length (reported c))%nat /\ (progress c == 100)%Q)
  /\ (forall e, promise c = Rejected e -> e = simulated_error).
Proof.
  intros Hok c.
  pose proof (report_inv_run file events _ report_inv_start Hok)
    as [_ Hmax Hval Hres Hfin Hrej].
  fold (convertToFLAC file events) in Hmax, Hval, Hres, Hfin, Hrej.
  fold c in Hmax, Hval, Hres, Hfin, Hrej.
  split; [assumption|]. split; [|split; [|assumption]].
  - intros v Hv. rewrite List.Forall_forall in Hval. now apply Hval.
  - intros d Hd. split; [now apply (Hres d) | now apply (Hfin d)].
Qed.

Lemma convertToFLAC_report_count_witness :
  let events :=
    [IntervalTick 1 "t1"; IntervalTick 1 "t2"; IntervalTick 1 "t3";
     IntervalTick 1 "t4"; IntervalTick 1 "t5"] in
  let file := mkFile "take.wav" 2048 "audio/wav" in
  let c := convertToFLAC file events in
  promise c = Resolved (convertedFile file "t5")
  /\ length (reported c) = 4%nat
  /\ (forall v, In v (reported c) -> (5 <= v /\ v < 100)%Q)
  /\ (progress c == 100)%Q.
Proof.
  intros events file c.
  assert (Hok : List.Forall draw_closed events).
  { subst events. repeat constructor; discriminate. }
  destruct (convertToFLAC_report_count file events Hok)
    as (_ & Hval & Hres & _).
  assert (Hp : promise c = Resolved (convertedFile file "t5"))
    by (vm_compute; reflexivity).
  split; [exact Hp|]. split; [vm_compute; reflexivity|].
  split; [exact Hval|]. exact (proj2 (Hres _ Hp)).
Defined.

Lemma harmless_never_rejects (file : File) (events : list TimerEvent)
    (c : Conversion) :
  Forall timeout_harmless events ->
  (forall e, promise c <> Rejected e) ->
  forall e, promise (fold_left (deliver file) events c) <> Rejected e.
Proof.
  revert c. induction events as [|ev events IH]; intros c Hok Hc;
    [assumption|].
  inversion Hok as [|? ? Hev Hrest]; subst. simpl fold_left.
  apply IH; [assumption|]. intros e.
  destruct ev as [r now|u]; simpl.
  - destruct (interval_on c); [|apply Hc].
    unfold interval_callback.
    destruct (Qle_bool 100 _); cbn [promise]; [|apply Hc].
    pose proof (Hc e) as Hce.
    destruct (promise c); simpl; [discriminate | discriminate | exact Hce].
  - destruct (timeout_armed c); [|apply Hc].
    unfold timeout_callback. simpl in Hev.
    apply Qle_bool_iff in Hev. rewrite Hev. simpl negb. cbv iota.
    cbn [promise]. apply Hc.
Qed.

Lemma ticks_harmless (events : list TimerEvent) :
  forallb is_tick events = true -> Forall timeout_harmless events.
Proof.
  intros Hall. rewrite forallb_forall in Hall.
  apply Forall_forall. intros ev Hev. apply list_elem_of_In in Hev.
  specialize (Hall ev Hev). now destruct ev.
Qed.

Lemma ticks_all (events : list TimerEvent) :
  forallb is_tick events = true -> ticks events = length events.
Proof.
  intros Hall. unfold ticks. f_equal.
  induction events as [|ev events IH]; [reflexivity|].
  simpl in *. apply andb_true_iff in Hall as [Hev Hrest].
  rewrite Hev. f_equal. now apply IH.
Qed.

(** X11: the simulated failure needs a late interval timer.  A
    conversion is rejected only by its timeout callback, when that draws
    less than 0.001: if every timeout callback that runs draws at least
    0.001, the promise is never rejected; and if the interval timer has
    run twenty times (600 ms at its period of 30 ms) before the timeout
    callback (due after 1000 ms), the promise is fulfilled, whatever the
    timeout callback draws afterwards. *)
Theorem convertToFLAC_rejection_needs_late_timer
    (file : File) (early rest : list TimerEvent) :
  (Forall timeout_harmless early ->
   forall e, promise (convertToFLAC file early) <> Rejected e)
  /\ (forallb is_tick early = true -> Forall draws_ok early ->
      (20 <= length early)%nat ->
      exists now,
        promise (convertToFLAC file (early ++ rest))
        = Resolved (convertedFile file now)).
Proof.
  split.
  - intros Hok. apply harmless_never_rejects; [assumption|].
    intros e. discriminate.
  - intros Hticks Hok Hlen.
    pose proof (convertToFLAC_inv file early Hok) as Hinv.
    destruct Hinv as [_ _ _ Hint Hrun _ Hres].
    pose proof (harmless_never_rejects file early conversion_start
                  (ticks_harmless early Hticks)
                  ltac:(intros e; discriminate)) as Hnorej.
    fold (convertToFLAC file early) in Hnorej.
    rewrite (ticks_all early Hticks) in Hrun.
    destruct (promise (convertToFLAC file early)) as [|d|e] eqn:Hp.
    + exfalso. simpl in Hint. destruct (Hrun Hint) as [Hlt Hn].
      assert (H20 : (inject_Z 20 <= inject_Z (Z.of_nat (length early)))%Q)
        by (rewrite <- Zle_Qle; lia).
      change (inject_Z 20) with 20%Q in H20. lra.
    + destruct (Hres d eq_refl) as [_ [now ->]]. exists now.
      unfold convertToFLAC. rewrite fold_left_app.
      fold (convertToFLAC file early).
      destruct (settled_is_final file rest (convertToFLAC file early))
        as [Hsame _]; [assumption | now rewrite Hp |].
      now rewrite Hsame.
    + now contradiction (Hnorej e).
Qed.

Lemma convertToFLAC_rejection_needs_late_timer_witness :
  let file := mkFile "take.wav" 2048 "audio/wav" in
  let early := repeat (IntervalTick 0 "t") 20 in
  (forall e, promise (convertToFLAC file early) <> Rejected e)
  /\ exists now,
       promise (convertToFLAC file (early ++ [TimeoutFire 0]))
       = Resolved (convertedFile file now).
Proof.
  intros file early.
  destruct (convertToFLAC_rejection_needs_late_timer file early
              [TimeoutFire 0]) as [Hsafe Hlive].
  split.
  - apply Hsafe. subst early. simpl. repeat constructor.
  - apply Hlive; [reflexivity | subst early; simpl; draws | simpl; lia].
Defined.

(** ** The conversion loop of the page *)


Lemma batchConvert_rejection_aborts_witness :
  let sched := fun i : nat =>
    if decide (i = 0%nat)
    then [IntervalTick (1 # 2) "t"; TimeoutFire (1 # 2000)]
    else repeat (IntervalTick (9 # 10) "t") 6 in
  let settle_order := fun w : nat => [0; 1]%nat in
  let files := [mkFile "a.wav" 2048 "audio/wav";
                mkFile "b.mp3" 4096 "audio/mpeg";
                mkFile "c.ogg" 1024 "audio/ogg"] in
  exists p log,
    batchConvert sched settle_order 4 files 2 = Some (p, log)
    /\ (forall rs, p <> Resolved rs)
    /\ (forall w j, In (Started w j) log -> Z.of_nat w * 2 <= Z.of_nat 0).
Proof.
  intros sched settle_order files.
  apply (batchConvert_rejection_aborts sched settle_order files 2 4 0
           (mkFile "a.wav" 2048 "audio/wav") simulated_error).
  - lia.
  - simpl. lia.
  - reflexivity.
  - vm_compute. reflexivity.
Defined.

(** *** Rounding to a double *)

Lemma Qpower2_pos (z : Z) : (0 < 2 ^ z)%Q.
Proof. apply Qpower_0_lt. reflexivity. Qed.

Lemma Qpower2_Z (n : Z) : 0 <= n -> (2 ^ n == inject_Z (2 ^ n))%Q.
Proof.
  intros Hn. change 2%Q with (inject_Z 2). symmetry. now apply Zpower_Qpower.
Qed.

Lemma Qpower2_plus (a b : Z) : (2 ^ (a + b) == 2 ^ a * 2 ^ b)%Q.
Proof. apply Qpower_plus. discriminate. Qed.

Lemma Qpower2_succ (a : Z) : (2 ^ (a + 1) == 2 * 2 ^ a)%Q.
Proof. rewrite Qpower2_plus. change (2 ^ 1)%Q with 2%Q. ring. Qed.

(** The exponent brackets a positive number between two powers of 2. *)
Lemma binade_spec (x : Q) :
  (0 < x)%Q -> (2 ^ binade x <= x /\ x < 2 ^ (binade x + 1))%Q.
Proof.
  intros Hpos. unfold binade.
  destruct (Qle_bool 1 x) eqn:Hb.
  - apply Qle_bool_iff in Hb.
    assert (Hf : 1 <= Qfloor x).
    { change 1 with (Qfloor 1). now apply Qfloor_resp_le. }
    destruct (Z.log2_spec (Qfloor x)) as [Hlo Hhi]; [lia|].
    pose proof (Z.log2_nonneg (Qfloor x)) as He.
    pose proof (Qfloor_le x) as Hfl. pose proof (Qlt_floor x) as Hfu.
    rewrite !Qpower2_Z by lia. split.
    + rewrite Zle_Qle in Hlo. lra.
    + assert (H : Qfloor x + 1 <= 2 ^ (Z.log2 (Qfloor x) + 1))
        by (unfold Z.succ in Hhi; lia).
      rewrite Zle_Qle in H. lra.
  - assert (Hlt : (x < 1)%Q).
    { apply Qnot_le_lt. intros H. apply Qle_bool_iff in H. congruence. }
    set (a := Qceiling (/ x)).
    assert (Hinv : (1 < / x)%Q).
    { exact (proj1 (Qinv_lt_contravar x 1 Hpos ltac:(reflexivity)) Hlt). }
    pose proof (Qle_ceiling (/ x)) as Hceil. fold a in Hceil.
    pose proof (Qceiling_lt (/ x)) as Hceil'. fold a in Hceil'.
    assert (Ha : 1 < a).
    { assert (H : (inject_Z 1 < inject_Z a)%Q)
        by (change (inject_Z 1) with 1%Q; lra).
      now rewrite <- Zlt_Qlt in H. }
    destruct (Z.log2_up_spec a Ha) as [Hlo Hhi].
    set (k := Z.log2_up a) in *.
    assert (Hk : 0 < k) by (subst k; now apply Z.log2_up_pos).
    assert (Hx : (x * / x == 1)%Q) by (apply Qmult_inv_r; lra).
    set (ix := (/ x)%Q) in *. clearbody ix.
    split.
    + rewrite Qpower_opp. apply Qle_shift_inv_r; [apply Qpower2_pos|].
      rewrite Qpower2_Z by lia. rewrite Zle_Qle in Hhi.
      assert (H : (x * ix <= x * inject_Z (2 ^ k))%Q).
      { apply (proj2 (Qmult_le_l _ _ x Hpos)). lra. }
      rewrite Hx in H. exact H.
    + replace (- k + 1) with (- (k - 1)) by lia.
      rewrite Qpower_opp. apply Qlt_shift_inv_l; [apply Qpower2_pos|].
      rewrite Qpower2_Z by lia.
      assert (Hlo' : 2 ^ (k - 1) <= a - 1)
        by (replace (Z.pred k) with (k - 1) in Hlo by lia; lia).
      rewrite Zle_Qle in Hlo'.
      assert (H : (x * inject_Z (2 ^ (k - 1)) < x * ix)%Q).
      { apply (proj2 (Qmult_lt_l _ _ x Hpos)). lra. }
      rewrite Hx in H. exact H.
Qed.

Lemma round_half_even_cases (m : Q) :
  let f := Qfloor m in
  (round_half_even m = f /\ (m - inject_Z f <= 1 # 2)%Q)
  \/ (round_half_even m = f + 1 /\ (1 # 2 <= m - inject_Z f)%Q).
Proof.
  intros f. unfold round_half_even. fold f.
  destruct (Qcompare_spec (m - inject_Z f) (1 # 2)) as [He|Hl|Hg].
  - destruct (Z.even f); [left | right]; split; trivial; lra.
  - left. split; [reflexivity | lra].
  - right. split; [reflexivity | lra].
Qed.

Lemma round_half_even_near (m : Q) :
  (inject_Z (round_half_even m) - (1 # 2) <= m
   /\ m <= inject_Z (round_half_even m) + (1 # 2))%Q.
Proof.
  pose proof (Qfloor_le m) as Hfl. pose proof (Qlt_floor m) as Hfu.
  rewrite inject_Z_plus in Hfu. change (inject_Z 1) with 1%Q in Hfu.
  destruct (round_half_even_cases m) as [[-> H]|[-> H]].
  - split; lra.
  - rewrite inject_Z_plus. change (inject_Z 1) with 1%Q. split; lra.
Qed.

Lemma round_half_even_int (m : Q) (z : Z) :
  (m == inject_Z z)%Q -> round_half_even m = z.
Proof.
  intros Hm. unfold round_half_even.
  assert (Hf : Qfloor m = z) by (rewrite Hm; apply Qfloor_Z).
  rewrite Hf.
  destruct (Qcompare_spec (m - inject_Z z) (1 # 2)) as [He|Hl|Hg].
  - exfalso. lra.
  - reflexivity.
  - exfalso. lra.
Qed.

Lemma round_half_even_mono (m m' : Q) :
  (m <= m')%Q -> round_half_even m <= round_half_even m'.
Proof.
  intros Hle.
  pose proof (Qfloor_resp_le _ _ Hle) as Hf.
  pose proof (Qfloor_le m) as Hfl. pose proof (Qlt_floor m) as Hfu.
  pose proof (Qfloor_le m') as Hfl'. pose proof (Qlt_floor m') as Hfu'.
  rewrite inject_Z_plus in Hfu, Hfu'.
  change (inject_Z 1) with 1%Q in Hfu, Hfu'.
  destruct (Z.eq_dec (Qfloor m) (Qfloor m')) as [Heq|Hne].
  - unfold round_half_even. rewrite <- Heq.
    destruct (Qcompare_spec (m - inject_Z (Qfloor m)) (1 # 2)) as [He|Hl|Hg],
             (Qcompare_spec (m' - inject_Z (Qfloor m)) (1 # 2))
               as [He'|Hl'|Hg'];
      try lia; try (exfalso; lra);
      destruct (Z.even (Qfloor m)); lia.
  - destruct (round_half_even_cases m) as [[-> _]|[-> _]],
             (round_half_even_cases m') as [[-> _]|[-> _]]; lia.
Qed.

Lemma fl64_positive_range (x : Q) :
  (0 < x)%Q ->
  (2 ^ binade x <= fl64_positive x /\ fl64_positive x <= 2 ^ (binade x + 1))%Q.
Proof.
  intros Hpos. destruct (binade_spec x Hpos) as [Hlo Hhi].
  unfold fl64_positive. set (e := binade x) in *.
  set (m := (x * 2 ^ (52 - e))%Q).
  pose proof (Qpower2_pos (52 - e)) as Hs.
  pose proof (Qpower2_pos (e - 52)) as Hs'.
  assert (Hm1 : (inject_Z (2 ^ 52) <= m)%Q).
  { subst m. rewrite <- Qpower2_Z by lia.
    replace 52 with (e + (52 - e)) at 1 by lia. rewrite Qpower2_plus.
    apply Qmult_le_compat_r; lra. }
  assert (Hm2 : (m <= inject_Z (2 ^ 53))%Q).
  { subst m. rewrite <- Qpower2_Z by lia.
    replace 53 with ((e + 1) + (52 - e)) by lia. rewrite Qpower2_plus.
    apply Qmult_le_compat_r; lra. }
  apply round_half_even_mono in Hm1, Hm2.
  rewrite (round_half_even_int (inject_Z (2 ^ 52)) (2 ^ 52)) in Hm1
    by reflexivity.
  rewrite (round_half_even_int (inject_Z (2 ^ 53)) (2 ^ 53)) in Hm2
    by reflexivity.
  rewrite Zle_Qle in Hm1, Hm2. rewrite <- !Qpower2_Z in Hm1, Hm2 by lia.
  split.
  - replace e with (52 + (e - 52)) at 1 by lia. rewrite Qpower2_plus.
    apply Qmult_le_compat_r; lra.
  - replace (e + 1) with (53 + (e - 52)) by lia. rewrite Qpower2_plus.
    apply Qmult_le_compat_r; lra.
Qed.

Lemma fl64_of_positive (x : Q) : (0 < x)%Q -> fl64 x = fl64_positive x.
Proof.
  intros Hpos. unfold fl64.
  destruct (Qcompare_spec x 0) as [H|H|H]; [exfalso; lra | exfalso; lra|].
  reflexivity.
Qed.

Lemma fl64_of_zero (x : Q) : (x == 0)%Q -> fl64 x = 0%Q.
Proof.
  intros Hz. unfold fl64.
  destruct (Qcompare_spec x 0) as [H|H|H]; [reflexivity | exfalso; lra..].
Qed.

Lemma binade_mono (x y : Q) :
  (0 < x)%Q -> (x <= y)%Q -> binade x <= binade y.
Proof.
  intros Hx Hxy.
  destruct (binade_spec x Hx) as [Hlo _].
  destruct (binade_spec y ltac:(lra)) as [_ Hhi].
  assert (H : (2 ^ binade x < 2 ^ (binade y + 1))%Q) by lra.
  apply Qpower_lt_compat_l_inv in H; [lia | reflexivity].
Qed.

Lemma fl64_positive_mono (x y : Q) :
  (0 < x)%Q -> (x <= y)%Q -> (fl64_positive x <= fl64_positive y)%Q.
Proof.
  intros Hx Hxy.
  pose proof (binade_mono x y Hx Hxy) as He.
  destruct (Z.eq_dec (binade x) (binade y)) as [Heq|Hne].
  - unfold fl64_positive. rewrite <- Heq.
    pose proof (Qpower2_pos (52 - binade x)).
    pose proof (Qpower2_pos (binade x - 52)).
    apply Qmult_le_compat_r; [|lra].
    rewrite <- Zle_Qle. apply round_half_even_mono.
    apply Qmult_le_compat_r; lra.
  - destruct (fl64_positive_range x Hx) as [_ Hup].
    destruct (fl64_positive_range y ltac:(lra)) as [Hlow _].
    assert (Hp : (2 ^ (binade x + 1) <= 2 ^ binade y)%Q).
    { apply Qpower_le_compat_l; [lia | discriminate]. }
    lra.
Qed.

(** Rounding to a double keeps the order of non-negative numbers. *)
Lemma fl64_mono (x y : Q) :
  (0 <= x)%Q -> (x <= y)%Q -> (fl64 x <= fl64 y)%Q.
Proof.
  intros Hx Hxy.
  destruct (Qlt_le_dec 0 x) as [Hpos|Hzero].
  - rewrite !fl64_of_positive by lra. now apply fl64_positive_mono.
  - rewrite (fl64_of_zero x) by lra.
    destruct (Qlt_le_dec 0 y) as [Hy|Hy].
    + rewrite fl64_of_positive by assumption.
      destruct (fl64_positive_range y Hy) as [Hlow _].
      pose proof (Qpower2_pos (binade y)). lra.
    + rewrite (fl64_of_zero y) by lra. apply Qle_refl.
Qed.

(** A non-negative integer below [2^53] is a double. *)
Lemma fl64_int (z : Z) :
  0 <= z < 2 ^ 53 -> (fl64 (inject_Z z) == inject_Z z)%Q.
Proof.
  intros Hz. destruct (Z.eq_dec z 0) as [->|Hne]; [reflexivity|].
  assert (Hpos : (0 < inject_Z z)%Q).
  { change 0%Q with (inject_Z 0). rewrite <- Zlt_Qlt. lia. }
  rewrite fl64_of_positive by assumption.
  destruct (binade_spec _ Hpos) as [Hlo _].
  unfold fl64_positive. set (e := binade (inject_Z z)) in *.
  assert (He : e <= 52).
  { assert (H : (2 ^ e < 2 ^ 53)%Q).
    { rewrite (Qpower2_Z 53) by lia.
      assert (H : (inject_Z z < inject_Z (2 ^ 53))%Q)
        by (rewrite <- Zlt_Qlt; lia).
      lra. }
    apply Qpower_lt_compat_l_inv in H; [lia | reflexivity]. }
  rewrite (round_half_even_int _ (z * 2 ^ (52 - e))).
  - rewrite inject_Z_mult, <- Qpower2_Z by lia.
    rewrite <- Qmult_assoc, <- Qpower2_plus.
    replace (52 - e + (e - 52)) with 0 by lia.
    change (2 ^ 0)%Q with 1%Q. ring.
  - rewrite inject_Z_mult, <- Qpower2_Z by lia. reflexivity.
Qed.

(** The relative error of rounding to a double is at most [2^-53]. *)
Lemma fl64_error (x : Q) :
  (0 <= x)%Q ->
  (x * (1 - (1 # 2 ^ 53)) <= fl64 x /\ fl64 x <= x * (1 + (1 # 2 ^ 53)))%Q.
Proof.
  intros Hx.
  destruct (Qlt_le_dec 0 x) as [Hpos|Hzero].
  2: { rewrite (fl64_of_zero x) by lra.
       assert (Hx0 : (x == 0)%Q) by lra. rewrite Hx0. split; discriminate. }
  rewrite fl64_of_positive by assumption.
  destruct (binade_spec x Hpos) as [Hlo _].
  unfold fl64_positive. set (e := binade x) in *.
  pose proof (round_half_even_near (x * 2 ^ (52 - e))) as [Hn1 Hn2].
  set (r := inject_Z (round_half_even (x * 2 ^ (52 - e)))) in *.
  pose proof (Qpower2_pos (e - 52)) as Hs.
  assert (Hback : (x * 2 ^ (52 - e) * 2 ^ (e - 52) == x)%Q).
  { rewrite <- Qmult_assoc, <- Qpower2_plus.
    replace (52 - e + (e - 52)) with 0 by lia.
    change (2 ^ 0)%Q with 1%Q. ring. }
  assert (Hhalf : ((1 # 2) * 2 ^ (e - 52) <= x * (1 # 2 ^ 53))%Q).
  { assert (H : (2 ^ e == 2 ^ 53 * 2 ^ (e - 52) * (1 # 2))%Q).
    { replace e with (1 + (e - 52) + 51) at 1 by lia.
      rewrite !Qpower2_plus. change (2 ^ 1)%Q with 2%Q.
      rewrite (Qpower2_Z 51), (Qpower2_Z 53) by lia.
      set (p := (2 ^ (e - 52))%Q). vm_compute (inject_Z (2 ^ 51)).
      vm_compute (inject_Z (2 ^ 53)). field. }
    rewrite (Qpower2_Z 53) in H by lia.
    set (p := (2 ^ (e - 52))%Q) in *. clearbody p.
    assert (H53 : (inject_Z (2 ^ 53) * (1 # 2 ^ 53) == 1)%Q)
      by reflexivity.
    set (u := (1 # 2 ^ 53)%Q) in *. set (b := inject_Z (2 ^ 53)) in *.
    assert (Hxu : (b * p * (1 # 2) * u <= x * u)%Q).
    { apply Qmult_le_compat_r; [lra | discriminate]. }
    assert (Hcalc : (b * p * (1 # 2) * u == (1 # 2) * p * (b * u))%Q)
      by ring.
    rewrite Hcalc, H53 in Hxu. lra. }
  set (p := (2 ^ (e - 52))%Q) in *.
  assert (H1 : ((r - (1 # 2)) * p <= x * 2 ^ (52 - e) * p)%Q)
    by (apply Qmult_le_compat_r; lra).
  assert (H2 : (x * 2 ^ (52 - e) * p <= (r + (1 # 2)) * p)%Q)
    by (apply Qmult_le_compat_r; lra).
  rewrite Hback in H1, H2.
  set (rp := (r * p)%Q) in *.
  assert (E1 : ((r - (1 # 2)) * p == rp - (1 # 2) * p)%Q) by (subst rp; ring).
  assert (E2 : ((r + (1 # 2)) * p == rp + (1 # 2) * p)%Q) by (subst rp; ring).
  rewrite E1 in H1. rewrite E2 in H2.
  set (hp := ((1 # 2) * p)%Q) in *. set (xu := (x * (1 # 2 ^ 53))%Q) in *.
  assert (E3 : (x * (1 - (1 # 2 ^ 53)) == x - xu)%Q) by (subst xu; ring).
  assert (E4 : (x * (1 + (1 # 2 ^ 53)) == x + xu)%Q) by (subst xu; ring).
  rewrite E3, E4. split; lra.
Qed.

Lemma fl64_error_bound (x : Q) :
  (0 <= x)%Q ->
  (x * (1 - (1 # 9007199254740992)) <= fl64 x
   /\ fl64 x <= x * (1 + (1 # 9007199254740992)))%Q.
Proof. exact (fl64_error x). Qed.

Lemma percentage_of_steps (completed total : Z) :
  0 < total -> 0 <= completed <= total ->
  let q := (inject_Z completed / inject_Z total)%Q in
  (0 <= q /\ q <= 1)%Q
  /\ (0 <= fl64 q /\ fl64 q <= 1)%Q
  /\ (0 <= fl64 (fl64 q * 100) /\ fl64 (fl64 q * 100) <= 100)%Q.
Proof.
  intros Ht Hc q.
  assert (Htq : (0 < inject_Z total)%Q).
  { change 0%Q with (inject_Z 0). rewrite <- Zlt_Qlt. assumption. }
  assert (Hq : (0 <= q /\ q <= 1)%Q).
  { subst q. split.
    - apply Qle_shift_div_l; [assumption|]. rewrite Qmult_0_l.
      change 0%Q with (inject_Z 0). rewrite <- Zle_Qle. lia.
    - apply Qle_shift_div_r; [assumption|]. rewrite Qmult_1_l.
      rewrite <- Zle_Qle. lia. }
  split; [assumption|]. destruct Hq as [Hq0 Hq1].
  assert (Ha : (0 <= fl64 q /\ fl64 q <= 1)%Q).
  { pose proof (fl64_mono 0 q ltac:(lra) Hq0) as H0.
    pose proof (fl64_mono q 1 Hq0 Hq1) as H1.
    change (fl64 0) with 0%Q in H0.
    rewrite (fl64_int 1) in H1 by lia. now split. }
  split; [assumption|]. destruct Ha as [Ha0 Ha1].
  pose proof (fl64_mono 0 (fl64 q * 100) ltac:(lra) ltac:(lra)) as H0.
  pose proof (fl64_mono (fl64 q * 100) 100 ltac:(lra) ltac:(lra)) as H1.
  change (fl64 0) with 0%Q in H0.
  rewrite (fl64_int 100) in H1 by lia. now split.
Qed.

Lemma round_mono (x y : Q) : (x <= y)%Q -> round x <= round y.
Proof. intros H. unfold round. apply Qfloor_resp_le. lra. Qed.

(** X15: the percentage [updateConversionProgress] shows for
    [completed] of [total > 0] files, computed as the program computes it,
    in double arithmetic: it lies between 0 and 100, does not decrease when
    more files are completed, is 100 when all are and 0 when none is, and
    differs from the exact percentage by at most a half and [10^-13].  It
    is not always the exact percentage rounded: for 230 of 400 files the
    exact percentage is 57.5, which rounds to 58, but the double product is
    just below it and the page shows 57. *)
Theorem percentage_of_rounding (completed later total : Z) :
  0 < total -> 0 <= completed <= later -> later <= total ->
  0 <= percentage_of completed total <= percentage_of later total
  /\ percentage_of later total <= 100
  /\ percentage_of total total = 100
  /\ percentage_of 0 total = 0
  /\ (inject_Z (percentage_of completed total) - (1 # 2) - (1 # 10 ^ 13)
      <= 100 * (inject_Z completed / inject_Z total)
      /\ 100 * (inject_Z completed / inject_Z total)
         <= inject_Z (percentage_of completed total) + (1 # 2)
            + (1 # 10 ^ 13))%Q
  /\ percentage_of 230 400 = 57
  /\ round (inject_Z 230 / inject_Z 400 * 100) = 58.
Proof.
  intros Ht Hc Hl.
  assert (Htq : (0 < inject_Z total)%Q).
  { change 0%Q with (inject_Z 0). rewrite <- Zlt_Qlt. assumption. }
  destruct (percentage_of_steps completed total Ht ltac:(lia))
    as ((Hq0 & Hq1) & (Ha0 & Ha1) & (Hb0 & Hb1)).
  destruct (percentage_of_steps later total Ht ltac:(lia))
    as ((Hq0' & Hq1') & (Ha0' & Ha1') & (Hb0' & Hb1')).
  assert (Hqq : (inject_Z completed / inject_Z total
                 <= inject_Z later / inject_Z total)%Q).
  { apply Qmult_le_compat_r.
    - rewrite <- Zle_Qle. lia.
    - apply Qlt_le_weak, Qinv_lt_0_compat. assumption. }
  pose proof (fl64_mono _ _ Hq0 Hqq) as Haa.
  assert (Hbb : (fl64 (fl64 (inject_Z completed / inject_Z total) * 100)
                 <= fl64 (fl64 (inject_Z later / inject_Z total) * 100))%Q)
    by (apply fl64_mono; lra).
  unfold percentage_of.
  split; [split|split; [|split; [|split; [|split; [|split]]]]].
  - apply (round_mono 0). lra.
  - apply round_mono. lra.
  - apply (round_mono _ 100). lra.
  - destruct (percentage_of_steps total total Ht ltac:(lia))
      as (_ & _ & (_ & Hup)).
    assert (Hone : (1 <= inject_Z total / inject_Z total)%Q).
    { apply Qle_shift_div_l; [assumption | lra]. }
    pose proof (fl64_mono 1 _ ltac:(lra) Hone) as H1.
    rewrite (fl64_int 1) in H1 by lia. change (inject_Z 1) with 1%Q in H1.
    pose proof (fl64_mono 100 (fl64 (inject_Z total / inject_Z total) * 100)
                  ltac:(lra) ltac:(lra)) as H100.
    rewrite (fl64_int 100) in H100 by lia.
    change (inject_Z 100) with 100%Q in H100.
    apply Z.le_antisymm.
    + apply (round_mono _ 100). lra.
    + apply (round_mono 100). lra.
  - destruct (percentage_of_steps 0 total Ht ltac:(lia))
      as ((Hq0z & _) & (Hz0 & _) & (Hy0 & _)).
    assert (Hzero : (inject_Z 0 / inject_Z total <= 0)%Q).
    { apply Qle_shift_div_r; [assumption|]. rewrite Qmult_0_l.
      apply Qle_refl. }
    pose proof (fl64_mono _ 0 Hq0z Hzero) as H0.
    change (fl64 0) with 0%Q in H0.
    pose proof (fl64_mono (fl64 (inject_Z 0 / inject_Z total) * 100) 0
                  ltac:(lra) ltac:(lra)) as H00.
    change (fl64 0) with 0%Q in H00.
    apply Z.le_antisymm.
    + apply (round_mono _ 0). lra.
    + apply (round_mono 0). lra.
  - set (q := (inject_Z completed / inject_Z total)%Q) in *.
    pose proof (fl64_error_bound q Hq0) as [Ea1 Ea2].
    pose proof (fl64_error_bound (fl64 q * 100) ltac:(lra)) as [Eb1 Eb2].
    set (a := fl64 q) in *. set (b := fl64 (a * 100)) in *.
    unfold round.
    pose proof (Qfloor_le (b + (1 # 2))) as Hfl.
    pose proof (Qlt_floor (b + (1 # 2))) as Hfu.
    rewrite inject_Z_plus in Hfu. change (inject_Z 1) with 1%Q in Hfu.
    set (p := inject_Z (Qfloor (b + (1 # 2)))) in *.
    change (1 # 10 ^ 13)%Q with (1 # 10000000000000)%Q.
    clearbody p b a q. split; lra.
  - vm_compute. reflexivity.
  - vm_compute. reflexivity.
Qed.

Lemma percentage_of_rounding_witness :
  0 <= percentage_of 230 400 <= percentage_of 240 400
  /\ percentage_of 240 400 <= 100
  /\ percentage_of 400 400 = 100
  /\ percentage_of 0 400 = 0.
Proof.
  destruct (percentage_of_rounding 230 240 400) as (H1 & H2 & H3 & H4 & _);
    [lia | lia | lia |].
  auto.
Defined.

(** ** The converted name, again *)

Lemma replace_extension_class (s : string) :
  all_not_slash_dot (replace_extension s) = true -> replace_extension s = s.
Proof.
  induction s as [|a s IH]; [reflexivity|].
  rewrite replace_extension_eq.
  destruct (ext_regex_matches_here (String a s)); [discriminate|].
  cbn [all_not_slash_dot]. intros H. apply andb_true_iff in H as [_ H].
  now rewrite IH.
Qed.

Lemma replace_extension_idempotent (s : string) :
  replace_extension (replace_extension s) = replace_extension s.
Proof.
  induction s as [|a s IH]; [reflexivity|].
  rewrite (replace_extension_eq (String a s)).
  destruct (ext_regex_matches_here (String a s)) eqn:Hm; [reflexivity|].
  rewrite replace_extension_eq.
  destruct (ext_regex_matches_here (String a (replace_extension s))) eqn:Hm';
    [|now rewrite IH].
  exfalso. unfold ext_regex_matches_here in Hm, Hm'.
  destruct a as [[] [] [] [] [] [] [] []]; try discriminate Hm'.
  destruct (replace_extension s) as [|c r] eqn:Hr; [discriminate Hm'|].
  rewrite <- Hr in Hm'. pose proof (replace_extension_class s Hm') as Hsame.
  rewrite Hsame in Hm', Hr. rewrite Hm', Hr in Hm. discriminate Hm.
Qed.

(** X16: converting a converted name changes nothing: the name
    [convertToFLAC] gives the output is a fixed point of the replacement
    of the final extension; and when the input name is a non-empty stem, a
    dot and a non-empty extension without slash or dot, [getFileExtension]
    reads "flac" off the output name. *)
Theorem convertedName_is_stable (file : File) (now : string) :
  let out := convertedName (convertedFile file now) in
  replace_extension out = out
  /\ (forall pre ext, name file = pre +:+ "." +:+ ext ->
        pre <> "" -> ext <> "" -> all_not_slash_dot ext = true ->
        Z.of_nat (String.length pre) + 5 <= 2 ^ 32 ->
        getFileExtension out = "flac").
Proof.
  cbn [convertedName convertedFile]. split.
  - apply replace_extension_idempotent.
  - intros pre ext Hname Hpre Hext Hclass Hlen.
    rewrite Hname, replace_extension_last by assumption.
    change (pre +:+ ".flac") with (pre +:+ "." +:+ "flac").
    apply getFileExtension_after_last_dot; [|assumption|reflexivity].
    rewrite string_length_app. simpl String.length. lia.
Qed.

Lemma convertedName_is_stable_witness :
  getFileExtension
    (convertedName
       (convertedFile (mkFile "song.final.mp3" 2048 "audio/mpeg") "t"))
  = "flac".
Proof.
  destruct (convertedName_is_stable
              (mkFile "song.final.mp3" 2048 "audio/mpeg") "t") as [_ Hext].
  apply (Hext "song.final" "mp3");
    [reflexivity | discriminate | discriminate | reflexivity
    | vm_compute; discriminate].
Defined.

(** ** The theme *)

(** X17: the saved theme survives a reload.  After [toggleTheme] the
    stored entry says "dark" exactly when the page is in dark mode, and the
    button shows the sun exactly then; toggling twice restores the mode;
    and on a page that starts in light mode with that stored entry,
    [loadTheme] puts the page in the mode that was saved, with the button
    of a dark page when the saved mode is dark. *)
Theorem theme_survives_reload (t page : Theme) :
  dark_mode page = false ->
  stored_theme page = stored_theme (toggleTheme t) ->
  (stored_theme (toggleTheme t) = Some "dark"
   <-> dark_mode (toggleTheme t) = true)
  /\ (icon (toggleTheme t) = Sun <-> dark_mode (toggleTheme t) = true)
  /\ dark_mode (toggleTheme (toggleTheme t)) = dark_mode t
  /\ dark_mode (loadTheme page) = dark_mode (toggleTheme t)
  /\ (dark_mode (toggleTheme t) = true ->
      icon (loadTheme page) = icon (toggleTheme t)
      /\ aria_label (loadTheme page) = aria_label (toggleTheme t))
  /\ (dark_mode (toggleTheme t) = false -> loadTheme page = page).
Proof.
  intros Hlight Hstored. unfold loadTheme. rewrite Hstored.
  unfold toggleTheme. cbn [dark_mode icon aria_label stored_theme].
  destruct (dark_mode t); cbn [negb String.eqb];
    repeat split; try reflexivity; try assumption; try discriminate;
    try (intros H; discriminate H).
Qed.

Lemma theme_survives_reload_witness :
  let t := mkTheme false Moon "Switch to dark mode" None in
  let page := mkTheme false Moon "Switch to dark mode" (Some "dark") in
  dark_mode (loadTheme page) = dark_mode (toggleTheme t).
Proof.
  intros t page.
  destruct (theme_survives_reload t page eq_refl eq_refl)
    as (_ & _ & _ & Hmode & _).
  exact Hmode.
Defined.
